(** * Reaction-template extraction: a shallow embedding of
      [template_comparison/generate_reaction_templates.py]

    The script mines atom-mapped reaction records, derives a generalized
    template for each one, canonicalizes it and tallies the templates in a
    frequency table.  This development embeds the script's functions as
    Rocq functions and proves (or refutes) statements about them.

    Conventions.
    - A Python [str] is a [list ascii]; [txt] turns a literal into one.
    - The two regular expressions on atom-map labels ([\:[0-9]+\]] and
      [\:([[0-9]+)\]]) are embedded as a left-to-right scanner producing
      tokens; [re.sub] and [re.findall] are read off the token list.
    - The chemistry toolkit (RDKit) is an interface, class [Toolkit].
    - Exceptions are explicit: fallible code returns a [result].
    - The file that is scanned is a Python 2 file object: its iterator
      reads ahead, and [tell()] is the position of the stream. *)

From Stdlib Require Import List Ascii Arith Lia Bool ZArith Permutation.
From Stdlib Require String DecimalString DecimalNat DecimalFacts.
Import ListNotations.
Import String.StringSyntax.

Set Implicit Arguments.
Local Open Scope char_scope.
Local Open Scope list_scope.

(* ================================================================== *)
(** * Python strings *)
(* ================================================================== *)

Definition str := list ascii.

Definition txt (x : String.string) : str := String.list_ascii_of_string x.

Arguments txt x%_string_scope.

Definition chr_eqb (a b : ascii) : bool := Ascii.eqb a b.

Fixpoint str_eqb (a b : str) : bool :=
  match a, b with
  | [], [] => true
  | x :: a', y :: b' => chr_eqb x y && str_eqb a' b'
  | _, _ => false
  end.

(** [x in l] for a list of strings, and [l.count(x)]. *)
Definition mem (x : str) (l : list str) : bool := existsb (str_eqb x) l.

Definition count (x : str) (l : list str) : nat :=
  length (filter (str_eqb x) l).

(** [c in s] for a one-character needle. *)
Definition has_char (c : ascii) (x : str) : bool := existsb (chr_eqb c) x.

(** [sep] is a prefix of [x] ([x.startswith(sep)]). *)
Fixpoint prefixb (sep x : str) : bool :=
  match sep, x with
  | [], _ => true
  | a :: sep', b :: x' => chr_eqb a b && prefixb sep' x'
  | _ :: _, [] => false
  end.

(** [x.split(sep)] for a non-empty separator: occurrences are found from
    the left and do not overlap.  [skip] counts the characters of the
    separator still to be dropped. *)
Fixpoint split_aux (sep : str) (skip : nat) (x : str) : list str :=
  match x with
  | [] => [[]]
  | c :: x' =>
      match skip with
      | S k => split_aux sep k x'
      | O =>
          if prefixb sep x
          then [] :: split_aux sep (length sep - 1) x'
          else match split_aux sep 0 x' with
               | p :: ps => (c :: p) :: ps
               | [] => [[c]]
               end
      end
  end.

Definition split (sep x : str) : list str := split_aux sep 0 x.

(** [sep.join(l)]. *)
Fixpoint join (A : Type) (sep : list A) (l : list (list A)) : list A :=
  match l with
  | [] => []
  | [x] => x
  | x :: l' => x ++ sep ++ join sep l'
  end.

(** [x.replace(old, new)]: every non-overlapping occurrence, from the left. *)
Definition replace (old new x : str) : str := join new (split old x).

(** [x[:-1]] and [x[1:-1]]. *)
Definition drop_last (x : str) : str := removelast x.

Definition strip_ends (x : str) : str := removelast (tl x).

(** [x.split()] : maximal runs of non-blank characters. *)
Definition is_space (c : ascii) : bool :=
  chr_eqb c " " || chr_eqb c "009" || chr_eqb c "010" || chr_eqb c "011"
  || chr_eqb c "012" || chr_eqb c "013".

Fixpoint words_aux (cur : str) (x : str) : list str :=
  match x with
  | [] => match cur with [] => [] | _ => [rev cur] end
  | c :: x' =>
      if is_space c
      then match cur with
           | [] => words_aux [] x'
           | _ => rev cur :: words_aux [] x'
           end
      else words_aux (c :: cur) x'
  end.

Definition words (x : str) : list str := words_aux [] x.

(** Comparison of strings as Python 2 compares [str]: byte by byte, a strict
    prefix being smaller. *)
Fixpoint str_leb (a b : str) : bool :=
  match a, b with
  | [], _ => true
  | _ :: _, [] => false
  | x :: a', y :: b' =>
      if (nat_of_ascii x <? nat_of_ascii y)%nat then true
      else if (nat_of_ascii y <? nat_of_ascii x)%nat then false
      else str_leb a' b'
  end.

(** [sorted(l, key = key)]: Python's sort is stable, and so is insertion
    from the right, an element going in front of the elements it equals. *)
Fixpoint insert_by (A : Type) (key : A -> str) (x : A) (l : list A) : list A :=
  match l with
  | [] => [x]
  | y :: l' =>
      if str_leb (key x) (key y) then x :: l else y :: insert_by key x l'
  end.

Definition sorted_by (A : Type) (key : A -> str) (l : list A) : list A :=
  fold_right (insert_by key) [] l.

Definition sorted (l : list str) : list str := sorted_by (fun x => x) l.

(** [enumerate(l)]. *)
Definition enumerate (A : Type) (l : list A) : list (nat * A) :=
  combine (seq 0 (length l)) l.

(** [str(n)] for a non-negative integer. *)
Definition str_of_nat (n : nat) : str :=
  String.list_ascii_of_string
    (DecimalString.NilEmpty.string_of_uint (Nat.to_uint n)).

(* ================================================================== *)
(** * Exceptions *)
(* ================================================================== *)

Inductive exn : Type :=
| IndexError
| ValueError
| AttributeError
| ArgumentError
| ZeroDivisionError
| ToolkitError (msg : str).

Inductive result (A : Type) : Type :=
| Ok (a : A)
| Raise (e : exn).

Arguments Ok {A} a.
Arguments Raise {A} e.

Definition bind (A B : Type) (m : result A) (k : A -> result B) : result B :=
  match m with
  | Ok a => k a
  | Raise e => Raise e
  end.

Notation "x <- m ;; k" := (bind m (fun x => k))
  (at level 61, m at next level, right associativity).
Notation "' p <- m ;; k" := (bind m (fun p => k))
  (at level 61, p pattern, m at next level, right associativity).

(** [l[i]]. *)
Definition index (A : Type) (l : list A) (i : nat) : result A :=
  match nth_error l i with
  | Some a => Ok a
  | None => Raise IndexError
  end.

Fixpoint mapM (A B : Type) (f : A -> result B) (l : list A) : result (list B) :=
  match l with
  | [] => Ok []
  | a :: l' => b <- f a ;; bs <- mapM f l' ;; Ok (b :: bs)
  end.

(** [try: body  except Exception as e: handler]. *)
Definition try_except (A : Type) (body : result A) (handler : exn -> result A)
  : result A :=
  match body with
  | Ok a => Ok a
  | Raise e => handler e
  end.

(* ================================================================== *)
(** * The atom-map label patterns *)
(* ================================================================== *)

Definition is_digit (c : ascii) : bool :=
  ((48 <=? nat_of_ascii c) && (nat_of_ascii c <=? 57))%nat.

(** The character class [[[0-9]] of [expand_changed_atom_tags]: a digit or
    an opening square bracket. *)
Definition is_digit_or_bracket (c : ascii) : bool :=
  is_digit c || chr_eqb c "[".

(** Longest prefix of characters satisfying [p], and the rest. *)
Fixpoint span (p : ascii -> bool) (x : str) : str * str :=
  match x with
  | c :: x' =>
      if p c then let (a, b) := span p x' in (c :: a, b) else ([], x)
  | [] => ([], [])
  end.

(** A match of [\:CLS+\]] at the very start of [x]: the text of the group
    and what follows the match.  The class never contains the closing
    bracket, so the greedy [+] takes the whole run. *)
Definition match_label (cls : ascii -> bool) (x : str) : option (str * str) :=
  match x with
  | c :: x' =>
      if chr_eqb c ":" then
        match span cls x' with
        | (d :: ds, c' :: rest) =>
            if chr_eqb c' "]" then Some (d :: ds, rest) else None
        | _ => None
        end
      else None
  | [] => None
  end.

Inductive token : Type :=
| Chr (c : ascii)
| Lab (digits : str).

(** All matches, from the left, with the characters between them. *)
Fixpoint scan_aux (cls : ascii -> bool) (skip : nat) (x : str) : list token :=
  match x with
  | [] => []
  | c :: x' =>
      match skip with
      | S k => scan_aux cls k x'
      | O =>
          match match_label cls x with
          | Some (ds, _) => Lab ds :: scan_aux cls (S (length ds)) x'
          | None => Chr c :: scan_aux cls 0 x'
          end
      end
  end.

Definition scan (x : str) : list token := scan_aux is_digit 0 x.

Definition label_text (ds : str) : str := ":" :: ds ++ ["]"].

Definition token_text (t : token) : str :=
  match t with
  | Chr c => [c]
  | Lab ds => label_text ds
  end.

Definition unscan (ts : list token) : str := flat_map token_text ts.

Fixpoint labels_of (ts : list token) : list str :=
  match ts with
  | [] => []
  | Chr _ :: ts' => labels_of ts'
  | Lab ds :: ts' => ds :: labels_of ts'
  end.

(** [re.findall('\:([0-9]+)\]', x)]. *)
Definition findall_labels (x : str) : list str := labels_of (scan x).

(** [re.findall('\:([[0-9]+)\]', x)]. *)
Definition findall_labels_bracket (x : str) : list str :=
  labels_of (scan_aux is_digit_or_bracket 0 x).

(** [re.sub('\:[0-9]+\]', repl, x)], the replacement being computed from
    the digits of the match. *)
Definition re_sub (repl : str -> str) (x : str) : str :=
  flat_map (fun t => match t with Chr c => [c] | Lab ds => repl ds end)
    (scan x).

(** [re.sub('\:[0-9]+\]', ']', x)]. *)
Definition strip_labels (x : str) : str := re_sub (fun _ => txt "]") x.

(** [re.search('\:[0-9]+\]', x)], as the matched text. *)
Fixpoint first_label (ts : list token) : option str :=
  match ts with
  | [] => None
  | Chr _ :: ts' => first_label ts'
  | Lab ds :: _ => Some (label_text ds)
  end.

Definition search_label (x : str) : option str := first_label (scan x).

(** [re.search('([-+]+[1-9]?)', x)], as the matched text. *)
Definition is_sign (c : ascii) : bool := chr_eqb c "-" || chr_eqb c "+".

Definition is_digit19 (c : ascii) : bool :=
  ((49 <=? nat_of_ascii c) && (nat_of_ascii c <=? 57))%nat.

Fixpoint search_charges (x : str) : option str :=
  match x with
  | [] => None
  | c :: x' =>
      if is_sign c then
        let (signs, rest) := span is_sign x in
        Some (signs ++ match rest with
                       | d :: _ => if is_digit19 d then [d] else []
                       | [] => []
                       end)
      else search_charges x'
  end.

(* ================================================================== *)
(** * The molecular graph view *)
(* ================================================================== *)

(** What the script reads of an end point of a bond. *)
Record atom_ref : Type := {
  ref_GetAtomicNum : nat;
  ref_molAtomMapNumber : option str
}.

Record bond : Type := {
  GetBeginAtom : atom_ref;
  GetEndAtom : atom_ref;
  bond_GetSmarts : str
}.

(** An atom, as the accessors of the toolkit show it.  [molAtomMapNumber]
    is the property of that name ([HasProp] / [GetProp]); [GetNeighbors]
    lists the [GetIdx] of the neighbours. *)
Record atom : Type := {
  GetIdx : nat;
  GetSmarts : str;
  GetAtomicNum : nat;
  GetTotalNumHs : nat;
  GetFormalCharge : Z;
  GetDegree : nat;
  GetNumRadicalElectrons : nat;
  GetIsAromatic : bool;
  molAtomMapNumber : option str;
  GetBonds : list bond;
  GetNeighbors : list nat
}.

Record mol : Type := { GetAtoms : list atom }.

Definition HasProp_molAtomMapNumber (a : atom) : bool :=
  match molAtomMapNumber a with Some _ => true | None => false end.

Definition GetAtomWithIdx (m : mol) (idx : nat) : result atom :=
  index (GetAtoms m) idx.

(** [x.ClearProp('molAtomMapNumber')] on every atom of the molecule. *)
Definition ClearProp_atom (a : atom) : atom :=
  {| GetIdx := GetIdx a; GetSmarts := GetSmarts a;
     GetAtomicNum := GetAtomicNum a; GetTotalNumHs := GetTotalNumHs a;
     GetFormalCharge := GetFormalCharge a; GetDegree := GetDegree a;
     GetNumRadicalElectrons := GetNumRadicalElectrons a;
     GetIsAromatic := GetIsAromatic a; molAtomMapNumber := None;
     GetBonds := GetBonds a; GetNeighbors := GetNeighbors a |}.

Definition ClearProp_all (m : mol) : mol :=
  {| GetAtoms := map ClearProp_atom (GetAtoms m) |}.

(** The collaborators supplied by the chemistry toolkit. *)
Class Toolkit : Type := {
  (** [Chem.MolFromSmiles]: [None] when the text cannot be parsed. *)
  MolFromSmiles : str -> option mol;
  (** [Chem.SanitizeMol]: normalizes the molecule, or raises. *)
  SanitizeMol : mol -> result mol;
  (** [mol.GetSubstructMatches(Chem.MolFromSmarts(pattern))]. *)
  GetSubstructMatches : mol -> str -> list (list nat);
  (** [AllChem.MolFragmentToSmiles(mol, atoms_to_use, atomSymbols = symbols,
      allHsExplicit = True, isomericSmiles = False,
      allBondsExplicit = True)]. *)
  MolFragmentToSmiles : mol -> list nat -> list str -> result str;
  (** [AllChem.ReactionFromSmarts(rxn_string).Validate()]: the numbers of
      warnings and of errors. *)
  ReactionValidate : str -> result (nat * nat)
}.

(* ================================================================== *)
(** * Atom change detector *)
(* ================================================================== *)

Definition mols_from_smiles_list `{Toolkit} (all_smiles : list str)
  : list (option mol) :=
  map MolFromSmiles (filter (fun smiles => negb (str_eqb smiles [])) all_smiles).

Definition end_label (a : atom_ref) : str :=
  str_of_nat (ref_GetAtomicNum a)
  ++ match ref_molAtomMapNumber a with Some n => n | None => [] end.

Definition bond_to_label (b : bond) : str :=
  let a1_label := end_label (GetBeginAtom b) in
  let a2_label := end_label (GetEndAtom b) in
  match sorted [a1_label; a2_label] with
  | first :: second :: _ => first ++ bond_GetSmarts b ++ second
  | _ => []
  end.

(** [atom.GetSmarts().split(':')[1][:-1]]. *)
Definition smarts_tag (smarts : str) : result str :=
  x <- index (split (txt ":") smarts) 1 ;; Ok (drop_last x).

Fixpoint tagged_atoms (l : list atom) : result (list atom * list str) :=
  match l with
  | [] => Ok ([], [])
  | a :: l' =>
      if has_char ":" (GetSmarts a) then
        tag <- smarts_tag (GetSmarts a) ;;
        '(atoms, atom_tags) <- tagged_atoms l' ;;
        Ok (a :: atoms, tag :: atom_tags)
      else tagged_atoms l'
  end.

Definition get_tagged_atoms_from_mol (m : mol) : result (list atom * list str) :=
  tagged_atoms (GetAtoms m).

Fixpoint get_tagged_atoms_from_mols (mols : list mol)
  : result (list atom * list str) :=
  match mols with
  | [] => Ok ([], [])
  | m :: mols' =>
      '(new_atoms, new_atom_tags) <- get_tagged_atoms_from_mol m ;;
      '(atoms, atom_tags) <- get_tagged_atoms_from_mols mols' ;;
      Ok (new_atoms ++ atoms, new_atom_tags ++ atom_tags)
  end.

Definition list_str_eqb (a b : list str) : bool :=
  (length a =? length b)%nat && forallb (fun p => str_eqb (fst p) (snd p)) (combine a b).

Definition atoms_are_different (atom1 atom2 : atom) (level : nat) : bool :=
  if negb (str_eqb (GetSmarts atom1) (GetSmarts atom2)) then true
  else if negb (GetAtomicNum atom1 =? GetAtomicNum atom2)%nat then true
  else if negb (GetTotalNumHs atom1 =? GetTotalNumHs atom2)%nat then true
  else if negb (GetFormalCharge atom1 =? GetFormalCharge atom2)%Z then true
  else if negb (GetDegree atom1 =? GetDegree atom2)%nat then true
  else if negb (GetNumRadicalElectrons atom1 =? GetNumRadicalElectrons atom2)%nat
  then true
  else if (1 <=? level)%nat then
    let bonds1 := sorted (map bond_to_label (GetBonds atom1)) in
    let bonds2 := sorted (map bond_to_label (GetBonds atom2)) in
    negb (list_str_eqb bonds1 bonds2)
  else false.

(** The lists [changed_atoms] and [changed_atom_tags], grown together. *)
Definition changed : Type := (list atom * list str)%type.

Definition append_changed (c : changed) (a : atom) (tag : str) : changed :=
  (fst c ++ [a], snd c ++ [tag]).

(** The loop over [enumerate(reac_atom_tags)] for one product atom; the
    recursion stops where the source has [break]. *)
Fixpoint compare_with_reactants (prod_atoms reac_atoms : list atom)
    (prod_atom_tags : list str) (i : nat) (prod_tag : str)
    (js : list (nat * str)) (c : changed) : result changed :=
  match js with
  | [] => Ok c
  | (j, reac_tag) :: js' =>
      if negb (str_eqb reac_tag prod_tag)
      then compare_with_reactants prod_atoms reac_atoms prod_atom_tags i prod_tag js' c
      else if negb (mem reac_tag (snd c)) then
        pa <- index prod_atoms i ;;
        ra <- index reac_atoms j ;;
        if atoms_are_different pa ra 1 then Ok (append_changed c ra reac_tag)
        else if (1 <? count reac_tag prod_atom_tags)%nat
        then Ok (append_changed c ra reac_tag)
        else compare_with_reactants prod_atoms reac_atoms prod_atom_tags i prod_tag js' c
      else compare_with_reactants prod_atoms reac_atoms prod_atom_tags i prod_tag js' c
  end.

Fixpoint compare_products (prod_atoms reac_atoms : list atom)
    (prod_atom_tags reac_atom_tags : list str)
    (ps : list (nat * str)) (c : changed) : result changed :=
  match ps with
  | [] => Ok c
  | (i, prod_tag) :: ps' =>
      c' <- compare_with_reactants prod_atoms reac_atoms prod_atom_tags i prod_tag
              (enumerate reac_atom_tags) c ;;
      compare_products prod_atoms reac_atoms prod_atom_tags reac_atom_tags ps' c'
  end.

(** The second loop over [enumerate(new_atom_tags)] of one reactant
    molecule: the atom appended is [reac_atoms[j]], the list over all the
    reactants, with [j] counted within the molecule. *)
Fixpoint add_leaving_tags (reac_atoms : list atom) (prod_atom_tags : list str)
    (js : list (nat * str)) (c : changed) : result changed :=
  match js with
  | [] => Ok c
  | (j, reac_tag) :: js' =>
      if negb (mem reac_tag (snd c)) then
        if negb (mem reac_tag prod_atom_tags) then
          ra <- index reac_atoms j ;;
          add_leaving_tags reac_atoms prod_atom_tags js' (append_changed c ra reac_tag)
        else add_leaving_tags reac_atoms prod_atom_tags js' c
      else add_leaving_tags reac_atoms prod_atom_tags js' c
  end.

Fixpoint leaving_groups (reac_atoms : list atom) (prod_atom_tags : list str)
    (reactants : list mol) (c : changed) : result changed :=
  match reactants with
  | [] => Ok c
  | m :: reactants' =>
      '(new_atoms, new_atom_tags) <- get_tagged_atoms_from_mol m ;;
      let use_this_mol :=
        existsb (fun reac_tag => mem reac_tag (snd c)) new_atom_tags in
      c' <- (if use_this_mol
             then add_leaving_tags reac_atoms prod_atom_tags
                    (enumerate new_atom_tags) c
             else Ok c) ;;
      leaving_groups reac_atoms prod_atom_tags reactants' c'
  end.

(** Returns [changed_atoms], [changed_atom_tags] and [err], which stays 0. *)
Definition get_changed_atoms (reactants products : list mol)
  : result (list atom * list str * nat) :=
  let err := 0 in
  '(prod_atoms, prod_atom_tags) <- get_tagged_atoms_from_mols products ;;
  '(reac_atoms, reac_atom_tags) <- get_tagged_atoms_from_mols reactants ;;
  c <- compare_products prod_atoms reac_atoms prod_atom_tags reac_atom_tags
         (enumerate prod_atom_tags) ([], []) ;;
  c' <- leaving_groups reac_atoms prod_atom_tags reactants c ;;
  Ok (fst c', snd c', err).

(* ================================================================== *)
(** * Wildcard symbol generator *)
(* ================================================================== *)

(** [symbol[-1]]. *)
Definition last_char (x : str) : result ascii :=
  match rev x with
  | c :: _ => Ok c
  | [] => Raise IndexError
  end.

(** [label.group()] for the result of a [re.search]. *)
Definition group (m : option str) : result str :=
  match m with
  | Some x => Ok x
  | None => Raise AttributeError
  end.

(** The construction from [symbol = '['] on. *)
Definition bracket_pattern (SUPER_GENERAL_TEMPLATES : bool) (a : atom)
  : result str :=
  let symbol := txt "[" in
  let symbol :=
    if negb (GetAtomicNum a =? 6)%nat
    then symbol ++ txt "#" ++ str_of_nat (GetAtomicNum a) ++ txt ";"
    else if GetIsAromatic a then symbol ++ txt "c;"
    else symbol ++ txt "C;" in
  let symbol :=
    if negb SUPER_GENERAL_TEMPLATES then
      if negb (GetFormalCharge a =? 0)%Z then
        match search_charges (GetSmarts a) with
        | Some charges => symbol ++ charges ++ txt ";"
        | None => symbol
        end
      else symbol
    else symbol in
  c <- last_char symbol ;;
  let symbol := if chr_eqb c ";" then drop_last symbol else symbol in
  match search_label (GetSmarts a) with
  | Some label => Ok (symbol ++ label)
  | None => Ok (symbol ++ txt "]")
  end.

Definition convert_atom_to_wildcard (SUPER_GENERAL_TEMPLATES : bool) (a : atom)
  : result str :=
  if SUPER_GENERAL_TEMPLATES && has_char ":" (GetSmarts a) then
    label <- group (search_label (GetSmarts a)) ;;
    Ok (txt "[*" ++ label)
  else if negb SUPER_GENERAL_TEMPLATES && (GetDegree a =? 1)%nat then
    Ok (GetSmarts a)
  else bracket_pattern SUPER_GENERAL_TEMPLATES a.

(* ================================================================== *)
(** * Neighborhood expander *)
(* ================================================================== *)

Definition mem_nat (n : nat) (l : list nat) : bool := existsb (Nat.eqb n) l.

(** The symbol overrides: pairs of an atom index and a symbol. *)
Definition replacements : Type := list (nat * str).

Definition expand_atoms_to_use_atom (SUPER_GENERAL_TEMPLATES : bool) (m : mol)
    (atoms_to_use : list nat) (atom_idx : nat) (groups : list (list nat))
    (symbol_replacements : replacements) : result (list nat * replacements) :=
  if mem_nat atom_idx atoms_to_use then Ok (atoms_to_use, symbol_replacements)
  else
    let hits := filter (mem_nat atom_idx) groups in
    match hits with
    | _ :: _ => Ok (atoms_to_use ++ concat hits, symbol_replacements)
    | [] =>
        a <- GetAtomWithIdx m atom_idx ;;
        symbol <- convert_atom_to_wildcard SUPER_GENERAL_TEMPLATES a ;;
        Ok (atoms_to_use ++ [atom_idx], symbol_replacements ++ [(atom_idx, symbol)])
    end.

(** The loop over the neighbours of one atom. *)
Fixpoint expand_neighbors (SUPER_GENERAL_TEMPLATES : bool) (m : mol)
    (neighbors : list nat) (groups : list (list nat))
    (acc : list nat * replacements) : result (list nat * replacements) :=
  match neighbors with
  | [] => Ok acc
  | neighbor :: neighbors' =>
      acc' <- expand_atoms_to_use_atom SUPER_GENERAL_TEMPLATES m (fst acc)
                neighbor groups (snd acc) ;;
      expand_neighbors SUPER_GENERAL_TEMPLATES m neighbors' groups acc'
  end.

(** The loop over the atoms of the molecule; [atoms_to_use] is the list the
    hop started from, [acc] holds its growing copy. *)
Fixpoint expand_atoms (SUPER_GENERAL_TEMPLATES : bool) (m : mol)
    (atoms : list atom) (atoms_to_use : list nat) (groups : list (list nat))
    (acc : list nat * replacements) : result (list nat * replacements) :=
  match atoms with
  | [] => Ok acc
  | a :: atoms' =>
      if negb (mem_nat (GetIdx a) atoms_to_use)
      then expand_atoms SUPER_GENERAL_TEMPLATES m atoms' atoms_to_use groups acc
      else
        acc' <- expand_neighbors SUPER_GENERAL_TEMPLATES m (GetNeighbors a)
                  groups acc ;;
        expand_atoms SUPER_GENERAL_TEMPLATES m atoms' atoms_to_use groups acc'
  end.

Definition expand_atoms_to_use (SUPER_GENERAL_TEMPLATES : bool) (m : mol)
    (atoms_to_use : list nat) (groups : list (list nat))
    (symbol_replacements : replacements) : result (list nat * replacements) :=
  let new_atoms_to_use := atoms_to_use in
  expand_atoms SUPER_GENERAL_TEMPLATES m (GetAtoms m) atoms_to_use groups
    (new_atoms_to_use, symbol_replacements).

(* ================================================================== *)
(** * Functional groups *)
(* ================================================================== *)

Definition group_templates : list str :=
  [ txt "C(=O)Cl";
    txt "C(=O)[O;H,-]";
    txt "[$(S-!@[#6])](=O)(=O)(Cl)";
    txt "[$(B-!@[#6])](O)(O)";
    txt "[$(N-!@[#6])](=!@C=!@O)";
    txt "[N;H0;$(N-[#6]);D2]=[N;D2]=[N;D1]";
    txt "O=C1N(Br)C(=O)CC1";
    txt "C=O";
    txt "ClS(Cl)=O";
    txt "[Mg][Br,Cl]";
    txt "[#6]S(=O)(=O)[O]";
    txt "[O]S(=O)(=O)[O]";
    txt "[N-]=[N+]=[C]" ].

Definition get_special_groups `{Toolkit} (SUPER_GENERAL_TEMPLATES : bool)
    (m : mol) : list (list nat) :=
  if SUPER_GENERAL_TEMPLATES then []
  else flat_map (fun template => GetSubstructMatches m template) group_templates.

(* ================================================================== *)
(** * Fragment selector *)
(* ================================================================== *)

Inductive category : Type := reactants | products.

(** [symbols[i] = symbol]. *)
Fixpoint set_index (A : Type) (l : list A) (i : nat) (v : A) : result (list A) :=
  match l, i with
  | [], _ => Raise IndexError
  | _ :: l', O => Ok (v :: l')
  | x :: l', S i' => l'' <- set_index l' i' v ;; Ok (x :: l'')
  end.

(** The symbol of a changed atom, made explicit about H0 and +0. *)
Definition explicit_symbol (a : atom) : str :=
  let symbol := GetSmarts a in
  let symbol :=
    if (GetTotalNumHs a =? 0)%nat then
      if has_char ":" symbol
      then replace (txt ":") (txt ";H0:") symbol
      else replace (txt "]") (txt ";H0]") symbol
    else symbol in
  if (GetFormalCharge a =? 0)%Z then
    if has_char ":" symbol
    then replace (txt ":") (txt ";+0:") symbol
    else replace (txt "]") (txt ";+0]") symbol
  else symbol.

(** The first loop over the atoms: the changed atoms themselves. *)
Fixpoint seed_atoms (atoms : list atom) (changed_atom_tags : list str)
    (acc : list nat * replacements) : result (list nat * replacements) :=
  match atoms with
  | [] => Ok acc
  | a :: atoms' =>
      if has_char ":" (GetSmarts a) then
        tag <- smarts_tag (GetSmarts a) ;;
        if mem tag changed_atom_tags then
          let symbol := explicit_symbol a in
          let atoms_to_use := fst acc ++ [GetIdx a] in
          let symbol_replacements :=
            if negb (str_eqb symbol (GetSmarts a))
            then snd acc ++ [(GetIdx a, symbol)] else snd acc in
          seed_atoms atoms' changed_atom_tags (atoms_to_use, symbol_replacements)
        else seed_atoms atoms' changed_atom_tags acc
      else seed_atoms atoms' changed_atom_tags acc
  end.

(** [for k in range(radius)]. *)
Fixpoint expand_radius (SUPER_GENERAL_TEMPLATES : bool) (m : mol) (radius : nat)
    (groups : list (list nat)) (acc : list nat * replacements)
  : result (list nat * replacements) :=
  match radius with
  | O => Ok acc
  | S radius' =>
      acc' <- expand_atoms_to_use SUPER_GENERAL_TEMPLATES m (fst acc) groups
                (snd acc) ;;
      expand_radius SUPER_GENERAL_TEMPLATES m radius' groups acc'
  end.

(** Products only: the extra labels, as wildcards. *)
Fixpoint add_expansion (SUPER_GENERAL_TEMPLATES : bool) (atoms : list atom)
    (changed_atom_tags expansion : list str) (acc : list nat * replacements)
  : result (list nat * replacements) :=
  match atoms with
  | [] => Ok acc
  | a :: atoms' =>
      if negb (has_char ":" (GetSmarts a))
      then add_expansion SUPER_GENERAL_TEMPLATES atoms' changed_atom_tags expansion acc
      else
        label <- smarts_tag (GetSmarts a) ;;
        if mem label expansion && negb (mem label changed_atom_tags) then
          symbol <- convert_atom_to_wildcard SUPER_GENERAL_TEMPLATES a ;;
          add_expansion SUPER_GENERAL_TEMPLATES atoms' changed_atom_tags expansion
            (fst acc ++ [GetIdx a], snd acc ++ [(GetIdx a, symbol)])
        else add_expansion SUPER_GENERAL_TEMPLATES atoms' changed_atom_tags expansion acc
  end.

(** Products only: the atoms without a map number. *)
Definition add_unmapped (atoms : list atom) (atoms_to_use : list nat) : list nat :=
  atoms_to_use
  ++ map GetIdx (filter (fun a => negb (HasProp_molAtomMapNumber a)) atoms).

Fixpoint apply_replacements (symbols : list str) (rs : replacements)
  : result (list str) :=
  match rs with
  | [] => Ok symbols
  | (i, symbol) :: rs' =>
      symbols' <- set_index symbols i symbol ;;
      apply_replacements symbols' rs'
  end.

(** The atoms and symbols of one molecule's fragment. *)
Definition fragment_spec `{Toolkit} (SUPER_GENERAL_TEMPLATES : bool) (m : mol)
    (changed_atom_tags : list str) (radius : nat) (cat : category)
    (expansion : list str) : result (list nat * list str) :=
  let symbol_replacements : replacements := [] in
  let groups :=
    match cat with
    | reactants => get_special_groups SUPER_GENERAL_TEMPLATES m
    | products => []
    end in
  acc <- seed_atoms (GetAtoms m) changed_atom_tags ([], symbol_replacements) ;;
  acc <- expand_radius SUPER_GENERAL_TEMPLATES m radius groups acc ;;
  acc <- match cat with
         | products =>
             acc <- match expansion with
                    | [] => Ok acc
                    | _ :: _ =>
                        add_expansion SUPER_GENERAL_TEMPLATES (GetAtoms m)
                          changed_atom_tags expansion acc
                    end ;;
             Ok (add_unmapped (GetAtoms m) (fst acc), snd acc)
         | reactants => Ok acc
         end ;;
  symbols <- apply_replacements (map GetSmarts (GetAtoms m)) (snd acc) ;;
  Ok (fst acc, symbols).

Fixpoint fragments_of_mols `{Toolkit} (SUPER_GENERAL_TEMPLATES : bool)
    (mols : list mol) (changed_atom_tags : list str) (radius : nat)
    (cat : category) (expansion : list str) (fragments : str) : result str :=
  match mols with
  | [] => Ok fragments
  | m :: mols' =>
      '(atoms_to_use, symbols) <-
        fragment_spec SUPER_GENERAL_TEMPLATES m changed_atom_tags radius cat
          expansion ;;
      match atoms_to_use with
      | [] =>
          fragments_of_mols SUPER_GENERAL_TEMPLATES mols' changed_atom_tags
            radius cat expansion fragments
      | _ :: _ =>
          smiles <- MolFragmentToSmiles (ClearProp_all m) atoms_to_use symbols ;;
          fragments_of_mols SUPER_GENERAL_TEMPLATES mols' changed_atom_tags
            radius cat expansion (fragments ++ txt "(" ++ smiles ++ txt ").")
      end
  end.

Definition get_fragments_for_changed_atoms `{Toolkit}
    (SUPER_GENERAL_TEMPLATES : bool) (mols : list mol)
    (changed_atom_tags : list str) (radius : nat) (cat : category)
    (expansion : list str) : result str :=
  fragments <- fragments_of_mols SUPER_GENERAL_TEMPLATES mols changed_atom_tags
                 radius cat expansion [] ;;
  Ok (drop_last fragments).

Definition expand_changed_atom_tags (changed_atom_tags : list str)
    (reactant_fragments : str) : list str :=
  filter (fun atom_tag => negb (mem atom_tag changed_atom_tags))
    (findall_labels_bracket reactant_fragments).

(* ================================================================== *)
(** * Template canonicalizer *)
(* ================================================================== *)

(** [[j[0] for j in sorted(enumerate(keys), key = lambda x: x[1])]]. *)
Definition sortorder_of (keys : list str) : list nat :=
  map fst (sorted_by (fun x : nat * str => snd x) (enumerate keys)).

(** [[l[j] for j in sortorder]]. *)
Definition pick (l : list str) (sortorder : list nat) : result (list str) :=
  mapM (index l) sortorder.

(** The body of the loop over the molecules, for the molecule at [i]: the
    new values of [template_nolabels_mols[i]] and [template_mols[i]]. *)
Definition sort_within_mol (template_nolabels_mols template_mols : list str)
    (i : nat) : result (str * str) :=
  nolabel_mol <- index template_nolabels_mols i ;;
  labeled_mol <- index template_mols i ;;
  let nolabel_mol_frags := split (txt ".") nolabel_mol in
  let mol_frags := split (txt ".") labeled_mol in
  let sortorder := sortorder_of nolabel_mol_frags in
  sorted_nolabel <- pick nolabel_mol_frags sortorder ;;
  sorted_labeled <- pick mol_frags sortorder ;;
  Ok (join (txt ".") sorted_nolabel, join (txt ".") sorted_labeled).

Definition canonicalize_template (template : str) : result str :=
  let template_nolabels := strip_labels template in
  let template_nolabels_mols :=
    split (txt ").(") (strip_ends template_nolabels) in
  let template_mols := split (txt ").(") (strip_ends template) in
  updated <- mapM (sort_within_mol template_nolabels_mols template_mols)
               (seq 0 (length template_mols)) ;;
  let template_nolabels_mols :=
    map fst updated ++ skipn (length template_mols) template_nolabels_mols in
  let template_mols := map snd updated in
  let sortorder := sortorder_of template_nolabels_mols in
  mols <- pick template_mols sortorder ;;
  Ok (txt "(" ++ join (txt ").(") mols ++ txt ")").

(** [replacement_dict], a dictionary from old to new labels. *)
Fixpoint lookup (k : str) (d : list (str * str)) : option str :=
  match d with
  | [] => None
  | (k', v) :: d' => if str_eqb k' k then Some v else lookup k d'
  end.

(** The loop over [all_labels]: the list [replacements]. *)
Fixpoint build_replacements (all_labels : list str)
    (replacement_dict : list (str * str)) (counter : nat) : list str :=
  match all_labels with
  | [] => []
  | label :: rest =>
      match lookup label replacement_dict with
      | Some r => r :: build_replacements rest replacement_dict counter
      | None =>
          let r := str_of_nat counter in
          r :: build_replacements rest ((label, r) :: replacement_dict)
                 (S counter)
      end
  end.

(** [re.sub] with the function that pops the next replacement. *)
Fixpoint sub_pop (ts : list token) (replacements : list str) : result str :=
  match ts with
  | [] => Ok []
  | Chr c :: ts' => rest <- sub_pop ts' replacements ;; Ok (c :: rest)
  | Lab _ :: ts' =>
      match replacements with
      | [] => Raise IndexError
      | r :: replacements' =>
          rest <- sub_pop ts' replacements' ;;
          Ok (txt ":" ++ r ++ txt "]" ++ rest)
      end
  end.

Definition reassign_atom_mapping (transform : str) : result str :=
  let all_labels := findall_labels transform in
  let replacements := build_replacements all_labels [] 1 in
  sub_pop (scan transform) replacements.

Definition canonicalize_transform (transform : str) : result str :=
  halves <- mapM canonicalize_template (split (txt ">>") transform) ;;
  let transform_reordered := join (txt ">>") halves in
  reassign_atom_mapping transform_reordered.

(* ================================================================== *)
(** * Retro converter *)
(* ================================================================== *)

Definition convert_to_retro (transform : str) : result str :=
  reactants <- index (split (txt ">>") transform) 0 ;;
  products <- index (split (txt ">>") transform) 1 ;;
  let products := replace (txt ").(") (txt ".") (strip_ends products) in
  let reactants := replace (txt ").(") (txt ".") (strip_ends reactants) in
  Ok (join (txt ">>") [products; reactants]).

(* ================================================================== *)
(** * Template aggregator and scan driver *)
(* ================================================================== *)

(** [template_dict], a [defaultdict(int)]. *)
Definition table : Type := list (str * nat).

(** [template_dict[k] += 1]. *)
Fixpoint increment (k : str) (d : table) : table :=
  match d with
  | [] => [(k, 1)]
  | (k', n) :: d' =>
      if str_eqb k' k then (k', S n) :: d' else (k', n) :: increment k d'
  end.

(** What [main] writes: [json.dump(template_dict, ...)] to [outfile] and
    [json.dump(reaction_fid.tell(), ...)] to [fileposfile]. *)
Inductive io_event : Type :=
| WriteTable (snapshot : table)
| WriteCursor (pos : Z).

Record scan_state : Type := {
  i : Z;
  total_attempted : nat;
  total_correct : nat;
  total_precise : nat;
  total_unmapped : nat;
  total_partialmapped : nat;
  total_nonreaction : nat;
  template_dict : table;
  written : list io_event
}.

Definition initial_state (d : table) : scan_state :=
  {| i := -1; total_attempted := 0; total_correct := 0; total_precise := 0;
     total_unmapped := 0; total_partialmapped := 0; total_nonreaction := 0;
     template_dict := d; written := [] |}.

Definition next_record (st : scan_state) : scan_state :=
  {| i := i st + 1; total_attempted := total_attempted st;
     total_correct := total_correct st; total_precise := total_precise st;
     total_unmapped := total_unmapped st;
     total_partialmapped := total_partialmapped st;
     total_nonreaction := total_nonreaction st;
     template_dict := template_dict st; written := written st |}.

Definition count_partialmapped (st : scan_state) : scan_state :=
  {| i := i st; total_attempted := total_attempted st;
     total_correct := total_correct st; total_precise := total_precise st;
     total_unmapped := total_unmapped st;
     total_partialmapped := total_partialmapped st + 1;
     total_nonreaction := total_nonreaction st;
     template_dict := template_dict st; written := written st |}.

Definition record_template (retro_canonical : str) (st : scan_state)
  : scan_state :=
  {| i := i st; total_attempted := total_attempted st + 1;
     total_correct := total_correct st; total_precise := total_precise st;
     total_unmapped := total_unmapped st;
     total_partialmapped := total_partialmapped st;
     total_nonreaction := total_nonreaction st;
     template_dict := increment retro_canonical (template_dict st);
     written := written st |}.

(** The two [with open(...)] blocks of the periodic logging; [pos] is what
    [reaction_fid.tell()] returns. *)
Definition log_progress (pos : Z) (st : scan_state) : scan_state :=
  {| i := i st; total_attempted := total_attempted st;
     total_correct := total_correct st; total_precise := total_precise st;
     total_unmapped := total_unmapped st;
     total_partialmapped := total_partialmapped st;
     total_nonreaction := total_nonreaction st;
     template_dict := template_dict st;
     written := written st ++ [WriteTable (template_dict st); WriteCursor pos] |}.

(** How an iteration leaves its [try] block: by [continue], or at its end. *)
Inductive flow : Type :=
| Continue (st : scan_state)
| Through (st : scan_state).

(** [Chem.SanitizeMol(mol)]; the molecule is [None] when the toolkit could
    not parse it, and the call raises. *)
Definition sanitize `{Toolkit} (m : option mol) : result (option mol) :=
  match m with
  | None => Raise ArgumentError
  | Some x => x' <- SanitizeMol x ;; Ok (Some x')
  end.

(** Access to an attribute of a molecule that may be [None]. *)
Definition deref (m : option mol) : result mol :=
  match m with
  | Some x => Ok x
  | None => Raise AttributeError
  end.

Fixpoint somes (l : list (option mol)) : list mol :=
  match l with
  | [] => []
  | Some x :: l' => x :: somes l'
  | None :: l' => somes l'
  end.

Definition is_None (m : option mol) : bool :=
  match m with None => true | Some _ => false end.

Definition record : Type :=
  (str * list (option mol) * list (option mol) * list (option mol))%type.

(** The first [try] block: unpack the line and sanitize the molecules. *)
Definition unpack `{Toolkit} (line : str) : result record :=
  reaction_smiles <- index (words line) 0 ;;
  match map (fun mols => mols_from_smiles_list (split (txt ".") mols))
            (split (txt ">") reaction_smiles) with
  | [rs; ags; ps] =>
      rs' <- mapM sanitize rs ;;
      ags' <- mapM sanitize ags ;;
      ps' <- mapM sanitize ps ;;
      Ok (reaction_smiles, rs', ags', ps')
  | _ => Raise ValueError
  end.

(** [sum([a.HasProp('molAtomMapNumber') for a in product.GetAtoms()])
     < len(product.GetAtoms())]. *)
Definition partly_mapped (product : option mol) : result bool :=
  p <- deref product ;;
  Ok (length (filter HasProp_molAtomMapNumber (GetAtoms p))
      <? length (GetAtoms p))%nat.

(** The second [try] block. *)
Definition extract_template `{Toolkit} (SUPER_GENERAL_TEMPLATES : bool)
    (r : record) (st : scan_state) : result flow :=
  let '(reaction_smiles, rs, ags, ps) := r in
  flags <- mapM partly_mapped ps ;;
  let skip := existsb (fun b => b) flags in
  if skip then Ok (Continue (count_partialmapped st))
  else if existsb is_None (rs ++ ps) then Ok (Continue st)
  else
    '(changed_atoms, changed_atom_tags, err) <-
      get_changed_atoms (somes rs) (somes ps) ;;
    if negb (err =? 0)%nat then Ok (Continue st)
    else match changed_atom_tags with
    | [] => Ok (Continue st)
    | _ :: _ =>
        reactant_fragments <-
          get_fragments_for_changed_atoms SUPER_GENERAL_TEMPLATES (somes rs)
            changed_atom_tags 1 reactants [] ;;
        product_fragments <-
          get_fragments_for_changed_atoms SUPER_GENERAL_TEMPLATES (somes ps)
            changed_atom_tags 0 products
            (expand_changed_atom_tags changed_atom_tags reactant_fragments) ;;
        let rxn_string := reactant_fragments ++ txt ">>" ++ product_fragments in
        validity <- ReactionValidate rxn_string ;;
        if negb (snd validity =? 0)%nat then Ok (Continue st)
        else
          rxn_canonical <- canonicalize_transform rxn_string ;;
          retro_canonical <- convert_to_retro rxn_canonical ;;
          Ok (Through (record_template retro_canonical st))
    end.

(** One iteration of [for line in reaction_fid].  Both handlers begin with
    [raise(e)]; the statements that follow it in the source, a [print] and
    a [continue], are never reached. *)
Definition iteration `{Toolkit} (SUPER_GENERAL_TEMPLATES : bool)
    (st : scan_state) (line : str) (pos : Z) : result scan_state :=
  let st := next_record st in
  r <- try_except (unpack line) (fun e => Raise e) ;;
  f <- try_except (extract_template SUPER_GENERAL_TEMPLATES r st)
         (fun e => Raise e) ;;
  match f with
  | Continue st' => Ok st'
  | Through st' =>
      if (i st' mod 10000 =? 0)%Z then Ok (log_progress pos st') else Ok st'
  end.

(** How the scan ends: the loop runs out of lines, or an exception leaves
    [main]; [st] is the state reached by then. *)
Inductive outcome : Type :=
| Finished (st : scan_state)
| Uncaught (e : exn) (st : scan_state).

(** The loop of [main]; every line comes with the value that
    [reaction_fid.tell()] returns while the line is processed. *)
Fixpoint scan_lines `{Toolkit} (SUPER_GENERAL_TEMPLATES : bool)
    (reaction_fid : list (str * Z)) (st : scan_state) : outcome :=
  match reaction_fid with
  | [] => Finished st
  | (line, pos) :: rest =>
      match iteration SUPER_GENERAL_TEMPLATES st line pos with
      | Ok st' => scan_lines SUPER_GENERAL_TEMPLATES rest st'
      | Raise e => Uncaught e (next_record st)
      end
  end.

(** The summary after the loop.  [total_examples = i + 1], and each of the
    six percentages it prints is a float division by [total_examples]: the
    first one raises [ZeroDivisionError] when no record was read.  The
    printed texts are not kept; the function then returns [True]. *)
Definition summary (st : scan_state) : result bool :=
  let total_examples := (i st + 1)%Z in
  if (total_examples =? 0)%Z then Raise ZeroDivisionError else Ok true.

(** [main]: the loop from the initial values of its variables, then the
    summary.  [Finished st] stands for [return True]. *)
Definition main `{Toolkit} (SUPER_GENERAL_TEMPLATES : bool)
    (reaction_fid : list (str * Z)) (template_dict : table) : outcome :=
  match scan_lines SUPER_GENERAL_TEMPLATES reaction_fid
          (initial_state template_dict) with
  | Finished st =>
      match summary st with
      | Ok _ => Finished st
      | Raise e => Uncaught e st
      end
  | Uncaught e st => Uncaught e st
  end.

(** The script sets [SUPER_GENERAL_TEMPLATES = True] before it calls
    [main]. *)
Definition script `{Toolkit} (reaction_fid : list (str * Z))
    (template_dict : table) : outcome :=
  let SUPER_GENERAL_TEMPLATES := true in
  main SUPER_GENERAL_TEMPLATES reaction_fid template_dict.

Definition final_state (o : outcome) : scan_state :=
  match o with
  | Finished st => st
  | Uncaught _ st => st
  end.

(* ================================================================== *)
(** * A concrete reaction and a stand-in toolkit *)
(* ================================================================== *)

(** The substitution [[OH-:1].[CH3:2][Cl:3]>>[OH:1][CH3:2]]: hydroxide and
    chloromethane give methanol, the chlorine leaves. *)

Definition ref_C2 : atom_ref :=
  {| ref_GetAtomicNum := 6; ref_molAtomMapNumber := Some (txt "2") |}.
Definition ref_Cl3 : atom_ref :=
  {| ref_GetAtomicNum := 17; ref_molAtomMapNumber := Some (txt "3") |}.
Definition ref_O1 : atom_ref :=
  {| ref_GetAtomicNum := 8; ref_molAtomMapNumber := Some (txt "1") |}.
Definition ref_O : atom_ref :=
  {| ref_GetAtomicNum := 8; ref_molAtomMapNumber := None |}.

Definition bond_C_Cl : bond :=
  {| GetBeginAtom := ref_C2; GetEndAtom := ref_Cl3; bond_GetSmarts := txt "-" |}.
Definition bond_O_C : bond :=
  {| GetBeginAtom := ref_O1; GetEndAtom := ref_C2; bond_GetSmarts := txt "-" |}.
Definition bond_Ou_C : bond :=
  {| GetBeginAtom := ref_O; GetEndAtom := ref_C2; bond_GetSmarts := txt "-" |}.

Definition O_hydroxide : atom :=
  {| GetIdx := 0; GetSmarts := txt "[OH-:1]"; GetAtomicNum := 8;
     GetTotalNumHs := 1; GetFormalCharge := -1; GetDegree := 0;
     GetNumRadicalElectrons := 0; GetIsAromatic := false;
     molAtomMapNumber := Some (txt "1"); GetBonds := []; GetNeighbors := [] |}.

Definition C_chloromethane : atom :=
  {| GetIdx := 0; GetSmarts := txt "[CH3:2]"; GetAtomicNum := 6;
     GetTotalNumHs := 3; GetFormalCharge := 0; GetDegree := 1;
     GetNumRadicalElectrons := 0; GetIsAromatic := false;
     molAtomMapNumber := Some (txt "2"); GetBonds := [bond_C_Cl];
     GetNeighbors := [1] |}.

Definition Cl_chloromethane : atom :=
  {| GetIdx := 1; GetSmarts := txt "[Cl:3]"; GetAtomicNum := 17;
     GetTotalNumHs := 0; GetFormalCharge := 0; GetDegree := 1;
     GetNumRadicalElectrons := 0; GetIsAromatic := false;
     molAtomMapNumber := Some (txt "3"); GetBonds := [bond_C_Cl];
     GetNeighbors := [0] |}.

Definition O_methanol : atom :=
  {| GetIdx := 0; GetSmarts := txt "[OH:1]"; GetAtomicNum := 8;
     GetTotalNumHs := 1; GetFormalCharge := 0; GetDegree := 1;
     GetNumRadicalElectrons := 0; GetIsAromatic := false;
     molAtomMapNumber := Some (txt "1"); GetBonds := [bond_O_C];
     GetNeighbors := [1] |}.

Definition C_methanol : atom :=
  {| GetIdx := 1; GetSmarts := txt "[CH3:2]"; GetAtomicNum := 6;
     GetTotalNumHs := 3; GetFormalCharge := 0; GetDegree := 1;
     GetNumRadicalElectrons := 0; GetIsAromatic := false;
     molAtomMapNumber := Some (txt "2"); GetBonds := [bond_O_C];
     GetNeighbors := [0] |}.

(** The oxygen of methanol written without a map number, [O[CH3:2]]. *)
Definition O_unmapped : atom :=
  {| GetIdx := 0; GetSmarts := txt "O"; GetAtomicNum := 8;
     GetTotalNumHs := 1; GetFormalCharge := 0; GetDegree := 1;
     GetNumRadicalElectrons := 0; GetIsAromatic := false;
     molAtomMapNumber := None; GetBonds := [bond_Ou_C];
     GetNeighbors := [1] |}.

Definition C_methanol' : atom :=
  {| GetIdx := 1; GetSmarts := txt "[CH3:2]"; GetAtomicNum := 6;
     GetTotalNumHs := 3; GetFormalCharge := 0; GetDegree := 1;
     GetNumRadicalElectrons := 0; GetIsAromatic := false;
     molAtomMapNumber := Some (txt "2"); GetBonds := [bond_Ou_C];
     GetNeighbors := [0] |}.

Definition hydroxide : mol := {| GetAtoms := [O_hydroxide] |}.
Definition chloromethane : mol :=
  {| GetAtoms := [C_chloromethane; Cl_chloromethane] |}.
Definition methanol : mol := {| GetAtoms := [O_methanol; C_methanol] |}.
Definition methanol_unmapped_O : mol :=
  {| GetAtoms := [O_unmapped; C_methanol'] |}.

(** A stand-in for the toolkit, enough to run the driver on the records
    above: it parses the four molecules, sanitizes without change, finds
    no functional group, writes a fragment as the chosen symbols in the
    order given, and accepts every template. *)
Definition known_smiles : list (str * mol) :=
  [ (txt "[OH-:1]", hydroxide);
    (txt "[CH3:2][Cl:3]", chloromethane);
    (txt "[OH:1][CH3:2]", methanol);
    (txt "O[CH3:2]", methanol_unmapped_O) ].

Fixpoint assoc (A : Type) (k : str) (d : list (str * A)) : option A :=
  match d with
  | [] => None
  | (k', v) :: d' => if str_eqb k' k then Some v else assoc k d'
  end.

Definition standin_toolkit : Toolkit :=
  {| MolFromSmiles := fun smiles => assoc smiles known_smiles;
     SanitizeMol := fun m => Ok m;
     GetSubstructMatches := fun _ _ => [];
     MolFragmentToSmiles := fun _ atoms_to_use symbols =>
       Ok (join (txt "-") (map (fun idx => nth idx symbols []) atoms_to_use));
     ReactionValidate := fun _ => Ok (0, 0) |}.

Definition sn2_line : str := txt "[OH-:1].[CH3:2][Cl:3]>>[OH:1][CH3:2] 1-2".
Definition partly_mapped_line : str := txt "[OH-:1].[CH3:2][Cl:3]>>O[CH3:2]".
(** A line that holds nothing but its newline. *)
Definition blank_line : str := ["010"].

(* ================================================================== *)
(** * Checkpoints *)
(* ================================================================== *)

(** The two writes of one checkpoint, in the order a reader of the files
    sees them. *)
Definition checkpoint_events (cp : table * Z) : list io_event :=
  [WriteTable (fst cp); WriteCursor (snd cp)].

(** The checkpoint [cp] was taken while a line was processed during which
    [tell()] returned [snd cp], and its table is the table reached once
    that line and all the lines before it were processed. *)
Definition taken_after `{Toolkit} (SUPER_GENERAL_TEMPLATES : bool)
    (reaction_fid : list (str * Z)) (st0 : scan_state) (cp : table * Z) : Prop :=
  exists pre line post st,
    reaction_fid = pre ++ (line, snd cp) :: post
    /\ scan_lines SUPER_GENERAL_TEMPLATES (pre ++ [(line, snd cp)]) st0
       = Finished st
    /\ fst cp = template_dict st.

(* ================================================================== *)
(** * Notions used to state the properties *)
(* ================================================================== *)

(** A character that no match of the label pattern can contain. *)
Definition barrier (cls : ascii -> bool) (c : ascii) : Prop :=
  c <> ":" /\ c <> "]" /\ cls c = false.

Definition barrierb (c : ascii) : bool :=
  negb (chr_eqb c ":") && negb (chr_eqb c "]") && negb (is_digit c).

(** A label: a non-empty run of digits. *)
Definition is_label (ds : str) : Prop :=
  ds <> [] /\ forallb is_digit ds = true.

(** Renaming the atom-map labels of a text with [f]. *)
Definition relabel_token (f : str -> str) (t : token) : token :=
  match t with
  | Chr c => Chr c
  | Lab ds => Lab (f ds)
  end.

Definition relabel (f : str -> str) (x : str) : str :=
  re_sub (fun ds => label_text (f ds)) x.

(** No occurrence of [sep] starts inside [x] when [x] is followed by [k]. *)
Fixpoint unbroken (sep x k : str) : Prop :=
  match x with
  | [] => True
  | _ :: x' => prefixb sep (x ++ k) = false /\ unbroken sep x' k
  end.

(** [x] can be an item of a [sep]-joined list: whether it is the last item
    or is followed by [sep], no occurrence of [sep] starts inside it. *)
Definition item_of (sep x : str) : Prop :=
  forall k, k = [] \/ (exists r, k = sep ++ r) -> unbroken sep x k.

(** [pat in x] for a pattern of several characters. *)
Fixpoint has_sub (pat x : str) : bool :=
  prefixb pat x
  || match x with
     | [] => false
     | _ :: x' => has_sub pat x'
     end.

(** A list of keys in ascending order. *)
Fixpoint ascending (keys : list str) : Prop :=
  match keys with
  | [] => True
  | a :: l =>
      match l with [] => True | b :: _ => str_leb a b = true end
      /\ ascending l
  end.

(** ** Templates as data

    One half of a template lists molecules, and a molecule lists the texts
    of its fragments; [render_half] writes the half as the script builds
    it, every molecule in parentheses, with dots between the fragments and
    between the molecules. *)

Definition render_mol (m : list str) : str := join (txt ".") m.

Definition render_half (h : list (list str)) : str :=
  txt "(" ++ join (txt ").(") (map render_mol h) ++ txt ")".

Definition render_transform (hs : list (list (list str))) : str :=
  join (txt ">>") (map render_half hs).

(** The text of a fragment holds no dot and no [>], and does not begin
    with an opening parenthesis. *)
Definition fragment_ok (f : str) : Prop :=
  has_char "." f = false /\ has_char ">" f = false
  /\ prefixb (txt "(") f = false.

Definition mol_ok (m : list str) : Prop := m <> [] /\ Forall fragment_ok m.

Definition half_ok (h : list (list str)) : Prop := h <> [] /\ Forall mol_ok h.

(** The label-stripped text that orders the molecules. *)
Definition bare_mol (m : list str) : str := strip_labels (render_mol m).

(** The canonical order: fragments sorted within each molecule, then the
    molecules sorted, both by label-stripped text. *)
Definition canonical_mol (m : list str) : list str := sorted_by strip_labels m.

Definition canonical_half (h : list (list str)) : list (list str) :=
  sorted_by bare_mol (map canonical_mol h).

Definition relabel_half (f : str -> str) (h : list (list str))
  : list (list str) :=
  map (map (relabel f)) h.

(** [h'] holds the molecules of [h] in another order, each one with its
    fragments in another order. *)
Definition reordered (h h' : list (list str)) : Prop :=
  exists h1, Forall2 (@Permutation str) h h1 /\ Permutation h1 h'.

(** No two fragments of a molecule, and no two molecules, have the same
    label-stripped text. *)
Definition no_ties (h : list (list str)) : Prop :=
  Forall (fun m => NoDup (map strip_labels m)) h
  /\ NoDup (map bare_mol (map canonical_mol h)).

(** A relabeling renames labels to labels, different labels to different
    labels. *)
Definition relabeling (f : str -> str) : Prop :=
  (forall l, is_label l -> is_label (f l))
  /\ (forall l l', is_label l -> is_label l' -> f l = f l' -> l = l').

(** ** Dense renumbering, in the words of the specification

    The labels are numbered from 1 in the order of their first appearance
    in the text, and every occurrence of a label is replaced by the number
    of the label. *)

Fixpoint first_appearances_from (seen labels : list str) : list str :=
  match labels with
  | [] => seen
  | l :: labels' =>
      if mem l seen then first_appearances_from seen labels'
      else first_appearances_from (seen ++ [l]) labels'
  end.

Definition first_appearances (labels : list str) : list str :=
  first_appearances_from [] labels.

(** The place of [l] in [order], counted from 0. *)
Fixpoint position (l : str) (order : list str) : nat :=
  match order with
  | [] => 0
  | l' :: order' => if str_eqb l' l then 0 else S (position l order')
  end.

Definition dense_number (labels : list str) (l : str) : nat :=
  S (position l (first_appearances labels)).

Definition new_label (x : str) (l : str) : str :=
  str_of_nat (dense_number (findall_labels x) l).

Definition renumbered (x : str) : str := relabel (new_label x) x.

(** The dictionary of [reassign_atom_mapping] holds the labels seen so far,
    each with its number. *)
Definition represents (d : list (str * str)) (seen : list str) : Prop :=
  forall l, lookup l d
            = if mem l seen then Some (str_of_nat (S (position l seen)))
              else None.

(** ** Two molecules with the same label-stripped text

    A mapped carbon bound to an unmapped oxygen, and an unmapped carbon
    bound to a mapped oxygen, listed in either order. *)
Definition tied_half : list (list str) :=
  [[txt "[C:1]-[O]"]; [txt "[C]-[O:2]"]].

Definition tied_half_swapped : list (list str) :=
  [[txt "[C]-[O:2]"]; [txt "[C:1]-[O]"]].

(** A half without ties, its molecules and fragments in another order, and
    a relabeling that writes a 9 in front of every label. *)
Definition sample_half : list (list str) :=
  [[txt "[N:5]"; txt "[C:7]"]; [txt "[B:3]-[C:5]"]].

Definition sample_half_reordered : list (list str) :=
  [[txt "[B:3]-[C:5]"]; [txt "[C:7]"; txt "[N:5]"]].

Definition prefix_nine (l : str) : str := "9" :: l.

Definition sample_product : list (list str) :=
  [[txt "[C:7]-[N:5]-[B:3]"]].

(** A text outside the data model: its fragments [(y] and [#)] begin or
    end with a parenthesis of their own. *)
Definition ill_formed_transform : str := txt "((y.#)).($)>>(a)".

(* ================================================================== *)
(** * Further functions and notions *)
(* ================================================================== *)

(** [mol_list_to_inchi]; [MolToInchi] is [Chem.MolToInchi]. *)
Definition mol_list_to_inchi (MolToInchi : mol -> str) (mols : list mol) : str :=
  let inchis := map MolToInchi mols in
  join (txt " ++ ") (sorted inchis).

(** The same bond, read from its other end. *)
Definition reverse_bond (b : bond) : bond :=
  {| GetBeginAtom := GetEndAtom b; GetEndAtom := GetBeginAtom b;
     bond_GetSmarts := bond_GetSmarts b |}.

(** [':' in atom.GetSmarts()]. *)
Definition has_colon (a : atom) : bool := has_char ":" (GetSmarts a).

(** [template_dict[k]], which is 0 for a key that was never counted. *)
Fixpoint count_of (k : str) (d : table) : nat :=
  match d with
  | [] => 0
  | (k', n) :: d' => if str_eqb k' k then n else count_of k d'
  end.

(** The sum of all the counts of the table. *)
Fixpoint table_total (d : table) : nat :=
  match d with
  | [] => 0
  | (_, n) :: d' => n + table_total d'
  end.

(** A carbon with a colon in its SMARTS but no label after it. *)
Definition C_colon_without_label : atom :=
  {| GetIdx := 0; GetSmarts := txt "[C:]"; GetAtomicNum := 6;
     GetTotalNumHs := 0; GetFormalCharge := 0; GetDegree := 2;
     GetNumRadicalElectrons := 0; GetIsAromatic := false;
     molAtomMapNumber := None; GetBonds := []; GetNeighbors := [] |}.

(** What [get_changed_atoms] keeps true of its two lists: they have the
    same length, no tag is listed twice, and the tags and the atoms are
    tags and atoms of the reactants. *)
Definition changed_ok (reac_atoms : list atom) (reac_atom_tags : list str)
    (c : changed) : Prop :=
  length (fst c) = length (snd c)
  /\ NoDup (snd c)
  /\ incl (snd c) reac_atom_tags
  /\ incl (fst c) reac_atoms.

(** [idx] is a neighbour of an atom of [atoms_to_use], or belongs to a
    group that holds such a neighbour. *)
Definition reached_in_one_hop (m : mol) (atoms_to_use : list nat)
    (groups : list (list nat)) (idx : nat) : Prop :=
  exists a neighbor,
    In a (GetAtoms m) /\ In (GetIdx a) atoms_to_use
    /\ In neighbor (GetNeighbors a)
    /\ (idx = neighbor
        \/ exists g, In g groups /\ In neighbor g /\ In idx g).

(** [l'] is [l] with more at its end. *)
Definition extends (A : Type) (l l' : list A) : Prop :=
  exists more, l' = l ++ more.

(** A text without the arrow [>>]. *)
Definition one_sided : str := txt "([C:1]-[O:2])".

(** A stand-in for [Chem.MolToInchi]: the SMARTS of the first atom. *)
Definition inchi_of_smarts (m : mol) : str :=
  match GetAtoms m with
  | a :: _ => GetSmarts a
  | [] => []
  end.

(** A record whose reaction SMILES has one [>] only. *)
Definition two_part_line : str := txt "[OH-:1]>[OH:1] 7".

(** The fragments that the stand-in toolkit writes for the reactants of the
    substitution. *)
Definition sn2_reactant_fragments : str :=
  txt "([OH-:1]).([CH3;+0:2]-[Cl;H0;+0:3])".

(* ================================================================== *)
(** * The file that is scanned *)
(* ================================================================== *)

(** [reaction_fid] is a Python 2 file object.  [for line in reaction_fid]
    calls its [next], which serves the lines from a read-ahead buffer: an
    empty buffer is filled with the next 8192 bytes of the file, and a line
    that does not end inside the buffer is continued from a new buffer,
    larger by a quarter.  [reaction_fid.tell()] knows nothing of the
    buffer: it reports the position of the underlying stream, which is
    where the buffer that was filled last ends. *)

Definition READAHEAD_BUFSIZE : nat := Z.to_nat 8192.

Record file : Type := {
  f_buf : str;   (* the bytes of the read-ahead buffer not yet served *)
  f_rest : str;  (* the bytes of the file after the stream position *)
  f_pos : Z      (* the stream position, what [tell()] returns *)
}.

(** [open(infile)] followed by [seek(filepos)]. *)
Definition open_at (content : str) (filepos : nat) : file :=
  {| f_buf := []; f_rest := skipn filepos content; f_pos := Z.of_nat filepos |}.

(** Filling the buffer: up to [bufsize] bytes are read from the stream. *)
Definition readahead (bufsize : nat) (f : file) : file :=
  {| f_buf := firstn bufsize (f_rest f);
     f_rest := skipn bufsize (f_rest f);
     f_pos := f_pos f + Z.of_nat (length (firstn bufsize (f_rest f))) |}.

(** The bytes up to the first newline, the newline included, and the bytes
    after it; [None] when there is no newline. *)
Fixpoint cut_line (buf : str) : option (str * str) :=
  match buf with
  | [] => None
  | c :: buf' =>
      if chr_eqb c "010" then Some ([c], buf')
      else match cut_line buf' with
           | Some (l, r) => Some (c :: l, r)
           | None => None
           end
  end.

(** One line from the buffer, refilled as often as the line needs. *)
Fixpoint get_line (fuel bufsize : nat) (f : file) : str * file :=
  match fuel with
  | O => ([], f)
  | S fuel' =>
      let f := match f_buf f with [] => readahead bufsize f | _ :: _ => f end in
      match f_buf f with
      | [] => ([], f)
      | _ :: _ =>
          match cut_line (f_buf f) with
          | Some (l, r) =>
              (l, {| f_buf := r; f_rest := f_rest f; f_pos := f_pos f |})
          | None =>
              let (l, f') :=
                get_line fuel' (bufsize + Nat.shiftr bufsize 2)
                  {| f_buf := []; f_rest := f_rest f; f_pos := f_pos f |} in
              (f_buf f ++ l, f')
          end
      end
  end.

(** [reaction_fid.next()]; the empty line stands for [StopIteration]. *)
Definition file_next (f : file) : str * file :=
  get_line (length (f_rest f) + 2) READAHEAD_BUFSIZE f.

(** The lines that [for line in reaction_fid] yields, each with what
    [reaction_fid.tell()] returns while the line is processed. *)
Fixpoint lines_and_tells (fuel : nat) (f : file) : list (str * Z) :=
  match fuel with
  | O => []
  | S fuel' =>
      let (line, f') := file_next f in
      match line with
      | [] => []
      | _ :: _ => (line, f_pos f') :: lines_and_tells fuel' f'
      end
  end.

Definition iterate_file (f : file) : list (str * Z) :=
  lines_and_tells (S (length (f_buf f) + length (f_rest f))) f.

(** The script: the table and the cursor come from the files of an earlier
    run when there are any, and are empty and 0 otherwise; the file is
    opened, moved to the cursor and scanned. *)
Definition run `{Toolkit} (content : str) (saved : option (table * nat))
  : outcome :=
  let (template_dict, filepos) :=
    match saved with
    | Some (template_dict, filepos) => (template_dict, filepos)
    | None => ([], 0)
    end in
  script (iterate_file (open_at content filepos)) template_dict.

(** A file of two records, the substitution twice. *)
Definition two_records : str :=
  sn2_line ++ ["010"] ++ sn2_line ++ ["010"].

(** The template that the stand-in toolkit gives for the substitution. *)
Definition sn2_template : str :=
  txt "[OH;+0:3]-[CH3;+0:1]>>[CH3;+0:1]-[Cl;H0;+0:2].[OH-:3]".

(* ================================================================== *)
(** * Notions for the fragments in super-general mode *)
(* ================================================================== *)





(* ================================================================== *)
(** * Texts that differ by a renaming of labels *)
(* ================================================================== *)

(** [g] renames the labels of [x]: to labels, and different labels to
    different labels. *)
Definition renaming_on (x : str) (g : str -> str) : Prop :=
  (forall l, In l (findall_labels x) -> is_label (g l))
  /\ (forall a b, In a (findall_labels x) -> In b (findall_labels x) ->
                  g a = g b -> a = b).

(** [x'] is [x] with its labels renamed. *)
Definition same_up_to_renaming (x x' : str) : Prop :=
  exists g, renaming_on x g /\ x' = relabel g x.

(** Two molecules that tie and carry their labels at the same places, and
    two molecules that tie only once their fragments are sorted. *)
Definition tied_alike : list (list str) :=
  [[txt "[C:1]-[O:2]"]; [txt "[C:3]-[O:4]"]].

Definition tied_alike_swapped : list (list str) :=
  [[txt "[C:3]-[O:4]"]; [txt "[C:1]-[O:2]"]].

Definition tied_once_sorted : list (list str) :=
  [[txt "[C:1]"; txt "[N]"]; [txt "[N:2]"; txt "[C]"]].

Definition tied_once_sorted_swapped : list (list str) :=
  [[txt "[N:2]"; txt "[C]"]; [txt "[C:1]"; txt "[N]"]].

(* ================================================================== *)
(** * Properties *)
(* ================================================================== *)

Unset Implicit Arguments.

(** ** The exception monad *)

Lemma bind_Ok_inv (A B : Type) (m : result A) (k : A -> result B) (b : B) :
  bind m k = Ok b -> exists a, m = Ok a /\ k a = Ok b.
Proof.
  destruct m as [a|e]; simpl; intros Hb; [eauto | discriminate].
Qed.

Ltac bind_inv H :=
  let a := fresh "a" in
  let Ha := fresh "Ha" in
  apply bind_Ok_inv in H; destruct H as [a [Ha H]].

(** ** Characters and strings *)

Lemma chr_eqb_eq (a b : ascii) : chr_eqb a b = true <-> a = b.
Proof. apply Ascii.eqb_eq. Qed.

Lemma chr_eqb_refl (a : ascii) : chr_eqb a a = true.
Proof. apply chr_eqb_eq. reflexivity. Qed.

Lemma chr_eqb_neq (a b : ascii) : chr_eqb a b = false <-> a <> b.
Proof. apply Ascii.eqb_neq. Qed.

Lemma str_eqb_eq (a b : str) : str_eqb a b = true <-> a = b.
Proof.
  revert b. induction a as [|x a IH]; intros [|y b]; simpl;
    try (split; (reflexivity || discriminate)).
  rewrite andb_true_iff, chr_eqb_eq, IH.
  split; [intros [-> ->]; reflexivity | intros H; inversion H; auto].
Qed.

Lemma str_eqb_refl (a : str) : str_eqb a a = true.
Proof. apply str_eqb_eq. reflexivity. Qed.

Lemma str_eqb_neq (a b : str) : str_eqb a b = false <-> a <> b.
Proof.
  rewrite <- str_eqb_eq. destruct (str_eqb a b); split; congruence.
Qed.

Lemma mem_In (x : str) (l : list str) : mem x l = true <-> In x l.
Proof.
  unfold mem. rewrite existsb_exists. split.
  - intros [y [Hy He]]. apply str_eqb_eq in He. now subst.
  - intros H. exists x. split; [assumption | apply str_eqb_refl].
Qed.

Lemma mem_not_In (x : str) (l : list str) : mem x l = false <-> ~ In x l.
Proof.
  rewrite <- mem_In. destruct (mem x l); split; congruence.
Qed.

(** ** The scanner *)

Section Scanner.

Variable cls : ascii -> bool.
Hypothesis cls_colon : cls ":" = false.
Hypothesis cls_close : cls "]" = false.

Lemma span_spec (x a b : str) :
  span cls x = (a, b) ->
  x = a ++ b /\ forallb cls a = true
  /\ match b with [] => True | c :: _ => cls c = false end.
Proof.
  revert a b. induction x as [|c x IH]; simpl; intros a b H.
  - inversion H; subst. auto.
  - destruct (cls c) eqn:Hc.
    + destruct (span cls x) as [a' b'] eqn:Hs. inversion H; subst.
      destruct (IH a' b eq_refl) as [-> [Ha Hb]].
      simpl. rewrite Hc, Ha. auto.
    + inversion H; subst. simpl. rewrite Hc. auto.
Qed.

Lemma span_app_stop (a b : str) :
  forallb cls a = true ->
  match b with [] => True | c :: _ => cls c = false end ->
  span cls (a ++ b) = (a, b).
Proof.
  induction a as [|c a IH]; simpl; intros Ha Hb.
  - destruct b as [|c b]; [reflexivity |]. simpl. now rewrite Hb.
  - apply andb_true_iff in Ha. destruct Ha as [Hc Ha].
    rewrite Hc, (IH Ha Hb). reflexivity.
Qed.

Lemma match_label_Some (x ds rest : str) :
  match_label cls x = Some (ds, rest) ->
  x = ":" :: ds ++ "]" :: rest /\ ds <> [] /\ forallb cls ds = true.
Proof.
  unfold match_label. destruct x as [|c x]; [discriminate |].
  destruct (chr_eqb c ":") eqn:Hc; [| discriminate].
  apply chr_eqb_eq in Hc. subst c.
  destruct (span cls x) as [a b] eqn:Hs.
  destruct a as [|d a]; [discriminate |].
  destruct b as [|c' b]; [discriminate |].
  destruct (chr_eqb c' "]") eqn:Hc'; [| discriminate].
  apply chr_eqb_eq in Hc'. subst c'.
  intros H. inversion H; subst.
  destruct (span_spec _ _ _ Hs) as [-> [Hd _]].
  repeat split; [discriminate | exact Hd].
Qed.

Lemma match_label_label (ds rest : str) :
  ds <> [] -> forallb cls ds = true ->
  match_label cls (":" :: ds ++ "]" :: rest) = Some (ds, rest).
Proof.
  intros Hne Hd. unfold match_label. rewrite chr_eqb_refl.
  rewrite (span_app_stop ds ("]" :: rest) Hd cls_close).
  destruct ds; [contradiction |]. rewrite chr_eqb_refl. reflexivity.
Qed.

(** Whether a match starts at a colon depends on the run of class
    characters after it and on the character that ends the run. *)
Lemma match_label_colon (ds r : str) :
  forallb cls ds = true ->
  match r with [] => True | c :: _ => cls c = false end ->
  match_label cls (":" :: ds ++ r)
  = match ds, r with
    | _ :: _, c :: rest => if chr_eqb c "]" then Some (ds, rest) else None
    | _, _ => None
    end.
Proof.
  intros Hd Hr. unfold match_label. rewrite chr_eqb_refl.
  rewrite (span_app_stop ds r Hd Hr). destruct ds; reflexivity.
Qed.

Lemma match_label_other (c : ascii) (x : str) :
  c <> ":" -> match_label cls (c :: x) = None.
Proof.
  intros Hc. unfold match_label.
  apply chr_eqb_neq in Hc. rewrite Hc. reflexivity.
Qed.

Lemma scan_aux_skip (a b : str) :
  scan_aux cls (length a) (a ++ b) = scan_aux cls 0 b.
Proof.
  induction a as [|c a IH]; simpl; [reflexivity | exact IH].
Qed.

Lemma scan_aux_nil : scan_aux cls 0 [] = [].
Proof. reflexivity. Qed.

Lemma scan_aux_none (c : ascii) (x : str) :
  match_label cls (c :: x) = None ->
  scan_aux cls 0 (c :: x) = Chr c :: scan_aux cls 0 x.
Proof.
  intros H. cbn [scan_aux]. rewrite H. reflexivity.
Qed.

Lemma scan_aux_label (ds rest : str) :
  ds <> [] -> forallb cls ds = true ->
  scan_aux cls 0 (":" :: ds ++ "]" :: rest) = Lab ds :: scan_aux cls 0 rest.
Proof.
  intros Hne Hd. cbn [scan_aux]. rewrite (match_label_label ds rest Hne Hd).
  f_equal.
  change (ds ++ "]" :: rest) with (ds ++ ["]"] ++ rest).
  rewrite app_assoc.
  replace (S (length ds)) with (length (ds ++ ["]"])).
  - apply scan_aux_skip.
  - rewrite length_app. simpl. lia.
Qed.

(** Induction along the scan: a string is empty, or starts with a character
    where no label matches, or starts with a label. *)
Lemma scan_induction (P : str -> Prop) :
  P [] ->
  (forall c x, match_label cls (c :: x) = None -> P x -> P (c :: x)) ->
  (forall ds rest, ds <> [] -> forallb cls ds = true -> P rest ->
                   P (":" :: ds ++ "]" :: rest)) ->
  forall x, P x.
Proof.
  intros Hnil Hnone Hlab x.
  assert (H : forall n y, length y <= n -> P y).
  { induction n as [|n IH]; intros y Hy.
    - destruct y; [exact Hnil | simpl in Hy; lia].
    - destruct y as [|c y]; [exact Hnil |].
      destruct (match_label cls (c :: y)) as [[ds rest]|] eqn:Hm.
      + destruct (match_label_Some _ _ _ Hm) as [Heq [Hne Hd]].
        rewrite Heq. apply Hlab; try assumption.
        apply IH. rewrite Heq in Hy. simpl in Hy.
        rewrite length_app in Hy. simpl in Hy. lia.
      + apply Hnone; [exact Hm |]. apply IH. simpl in Hy. lia. }
  apply (H (length x)). lia.
Qed.

Lemma unscan_scan_aux (x : str) : unscan (scan_aux cls 0 x) = x.
Proof.
  induction x as [| c x Hm IH | ds rest Hne Hd IH] using scan_induction.
  - reflexivity.
  - rewrite (scan_aux_none _ _ Hm). simpl. now rewrite IH.
  - rewrite (scan_aux_label ds rest Hne Hd). simpl. rewrite IH.
    unfold label_text. simpl. rewrite <- app_assoc. reflexivity.
Qed.

(** A run of class characters is scanned character by character. *)
Lemma scan_aux_run (ds r : str) :
  forallb cls ds = true ->
  scan_aux cls 0 (ds ++ r) = map Chr ds ++ scan_aux cls 0 r.
Proof.
  induction ds as [|d ds IH]; simpl app; intros Hd; [reflexivity |].
  simpl in Hd. apply andb_true_iff in Hd. destruct Hd as [Hc Hd].
  rewrite scan_aux_none.
  - simpl. now rewrite IH.
  - apply match_label_other. intros ->. congruence.
Qed.

(** A character outside the pattern separates the text before it from the
    text after it. *)
Lemma match_label_None_barrier (c0 c : ascii) (a b : str) :
  barrier cls c ->
  match_label cls (c0 :: a) = None ->
  match_label cls (c0 :: a ++ c :: b) = None.
Proof.
  intros [Hc1 [Hc2 Hc3]] Hm.
  destruct (ascii_dec c0 ":") as [-> | Hne];
    [| now apply match_label_other].
  destruct (span cls a) as [ds r] eqn:Hs.
  destruct (span_spec _ _ _ Hs) as [-> [Hd Hr]].
  rewrite (match_label_colon ds r Hd Hr) in Hm.
  rewrite <- app_assoc.
  rewrite match_label_colon; [| exact Hd |].
  - destruct ds as [|d ds]; [reflexivity |].
    destruct r as [|c' r]; simpl.
    + apply chr_eqb_neq in Hc2. now rewrite Hc2.
    + destruct (chr_eqb c' "]"); [discriminate | reflexivity].
  - destruct r as [|c' r]; simpl; assumption.
Qed.

Lemma scan_aux_barrier (c : ascii) (a b : str) :
  barrier cls c ->
  scan_aux cls 0 (a ++ c :: b)
  = scan_aux cls 0 a ++ Chr c :: scan_aux cls 0 b.
Proof.
  intros Hc.
  induction a as [| c0 a Hm IH | ds rest Hne Hd IH] using scan_induction.
  - change ([] ++ c :: b) with (c :: b).
    rewrite scan_aux_none; [reflexivity |].
    apply match_label_other. apply Hc.
  - change ((c0 :: a) ++ c :: b) with (c0 :: (a ++ c :: b)).
    rewrite (scan_aux_none c0 (a ++ c :: b)
               (match_label_None_barrier c0 c a b Hc Hm)).
    rewrite (scan_aux_none _ _ Hm), IH. reflexivity.
  - change ((":" :: ds ++ "]" :: rest) ++ c :: b)
      with (":" :: (ds ++ "]" :: rest) ++ c :: b).
    rewrite <- app_assoc.
    change (("]" :: rest) ++ c :: b) with ("]" :: (rest ++ c :: b)).
    rewrite !scan_aux_label by assumption. rewrite IH. reflexivity.
Qed.

End Scanner.

(** *** The digit pattern *)

Lemma is_digit_colon : is_digit ":" = false.
Proof. reflexivity. Qed.

Lemma is_digit_close : is_digit "]" = false.
Proof. reflexivity. Qed.

Lemma barrierb_barrier (c : ascii) : barrierb c = true -> barrier is_digit c.
Proof.
  unfold barrierb, barrier. rewrite !andb_true_iff, !negb_true_iff.
  intros [[H1 H2] H3]. repeat split; try assumption; now apply chr_eqb_neq.
Qed.

Lemma scan_nil : scan [] = [].
Proof. reflexivity. Qed.

Lemma scan_none (c : ascii) (x : str) :
  match_label is_digit (c :: x) = None -> scan (c :: x) = Chr c :: scan x.
Proof. apply scan_aux_none. Qed.

Lemma scan_label (ds rest : str) :
  is_label ds -> scan (":" :: ds ++ "]" :: rest) = Lab ds :: scan rest.
Proof.
  intros [Hne Hd]. apply scan_aux_label; auto using is_digit_close.
Qed.

Lemma scan_ind (P : str -> Prop) :
  P [] ->
  (forall c x, match_label is_digit (c :: x) = None -> P x -> P (c :: x)) ->
  (forall ds rest, is_label ds -> P rest -> P (":" :: ds ++ "]" :: rest)) ->
  forall x, P x.
Proof.
  intros Hnil Hnone Hlab.
  apply (scan_induction is_digit); try assumption.
  intros ds rest Hne Hd. apply Hlab. split; assumption.
Qed.

Lemma unscan_scan (x : str) : unscan (scan x) = x.
Proof. apply unscan_scan_aux. exact is_digit_close. Qed.

Lemma scan_barrier (c : ascii) (a b : str) :
  barrier is_digit c -> scan (a ++ c :: b) = scan a ++ Chr c :: scan b.
Proof. apply scan_aux_barrier. exact is_digit_close. Qed.

Lemma unscan_app (ts us : list token) : unscan (ts ++ us) = unscan ts ++ unscan us.
Proof. unfold unscan. apply flat_map_app. Qed.

(** *** Renaming labels *)

Lemma relabel_nil (f : str -> str) : relabel f [] = [].
Proof. reflexivity. Qed.

Lemma relabel_none (f : str -> str) (c : ascii) (x : str) :
  match_label is_digit (c :: x) = None ->
  relabel f (c :: x) = c :: relabel f x.
Proof.
  intros Hm. unfold relabel, re_sub. rewrite (scan_none c x Hm). reflexivity.
Qed.

Lemma relabel_label (f : str -> str) (ds rest : str) :
  is_label ds ->
  relabel f (":" :: ds ++ "]" :: rest) = ":" :: f ds ++ "]" :: relabel f rest.
Proof.
  intros Hl. unfold relabel, re_sub. rewrite (scan_label ds rest Hl).
  simpl. unfold label_text. simpl. rewrite <- app_assoc. reflexivity.
Qed.

Lemma relabel_hd (f : str -> str) (x : str) :
  hd_error (relabel f x) = hd_error x.
Proof.
  destruct x as [|c x]; [reflexivity |].
  destruct (match_label is_digit (c :: x)) as [[ds rest]|] eqn:Hm.
  - destruct (match_label_Some is_digit _ _ _ Hm) as [Heq [Hne Hd]].
    rewrite Heq. rewrite relabel_label by (split; assumption). reflexivity.
  - rewrite (relabel_none f c x Hm). reflexivity.
Qed.

Lemma relabel_run (f : str -> str) (ds r : str) :
  forallb is_digit ds = true -> relabel f (ds ++ r) = ds ++ relabel f r.
Proof.
  intros Hd. unfold relabel, re_sub, scan.
  rewrite (scan_aux_run is_digit is_digit_colon ds r Hd).
  rewrite flat_map_app. f_equal.
  clear Hd. induction ds as [|d ds IH]; simpl; [reflexivity | now rewrite IH].
Qed.

Lemma match_label_None_relabel (f : str -> str) (c : ascii) (x : str) :
  match_label is_digit (c :: x) = None ->
  match_label is_digit (c :: relabel f x) = None.
Proof.
  intros Hm.
  destruct (ascii_dec c ":") as [-> | Hne];
    [| now apply match_label_other].
  destruct (span is_digit x) as [ds r] eqn:Hs.
  destruct (span_spec is_digit _ _ _ Hs) as [-> [Hd Hr]].
  rewrite (match_label_colon is_digit ds r Hd Hr) in Hm.
  rewrite (relabel_run f ds r Hd).
  pose proof (relabel_hd f r) as Hhd.
  rewrite match_label_colon; [| exact Hd |].
  - destruct ds as [|d ds]; [reflexivity |].
    destruct r as [|c' r]; destruct (relabel f _) as [|c'' r'];
      simpl in Hhd; try discriminate; try reflexivity.
    inversion Hhd; subst c''.
    destruct (chr_eqb c' "]"); [discriminate | reflexivity].
  - destruct r as [|c' r]; destruct (relabel f _) as [|c'' r'];
      simpl in Hhd; try discriminate; try exact I.
    inversion Hhd; subst c''. exact Hr.
Qed.

(** Scanning a relabelled text gives the relabelled tokens, as long as the
    new labels are labels. *)
Lemma scan_relabel (f : str -> str) (x : str) :
  (forall ds, In ds (findall_labels x) -> is_label (f ds)) ->
  scan (relabel f x) = map (relabel_token f) (scan x).
Proof.
  unfold findall_labels.
  induction x as [| c x Hm IH | ds rest Hl IH] using scan_ind; intros Hf.
  - reflexivity.
  - rewrite (relabel_none f c x Hm), (scan_none c x Hm).
    rewrite (scan_none c x Hm) in Hf. simpl in Hf.
    rewrite scan_none by now apply match_label_None_relabel.
    simpl. now rewrite IH.
  - rewrite (relabel_label f ds rest Hl), (scan_label ds rest Hl).
    rewrite (scan_label ds rest Hl) in Hf. simpl in Hf.
    rewrite scan_label by (apply Hf; now left).
    simpl. rewrite IH; [reflexivity |]. intros ds' Hds'. apply Hf. now right.
Qed.

(** *** The string functions at work *)

Example split_dot : split (txt ".") (txt "a.bc.") = [txt "a"; txt "bc"; txt ""].
Proof. reflexivity. Qed.

Example split_paren :
  split (txt ").(") (txt "a).(b.c).(") = [txt "a"; txt "b.c"; txt ""].
Proof. reflexivity. Qed.

Example scan_ex :
  findall_labels (txt "[C:12][N;H0:3]:4[O:]") = [txt "12"; txt "3"].
Proof. reflexivity. Qed.

Example strip_ex :
  strip_labels (txt "[C:12][N;H0:3]:4[O:]") = txt "[C][N;H0]:4[O:]".
Proof. reflexivity. Qed.

Example words_ex : words (txt "  ab  c ") = [txt "ab"; txt "c"].
Proof. reflexivity. Qed.

Example str_of_nat_ex : str_of_nat 120 = txt "120".
Proof. reflexivity. Qed.

(** ** Splitting and joining *)

Lemma prefixb_app (sep r : str) : prefixb sep (sep ++ r) = true.
Proof.
  induction sep as [|c sep IH]; simpl; [reflexivity |].
  now rewrite chr_eqb_refl, IH.
Qed.

Lemma split_aux_skip (sep a b : str) :
  split_aux sep (length a) (a ++ b) = split_aux sep 0 b.
Proof.
  induction a as [|c a IH]; simpl; [reflexivity | exact IH].
Qed.

Lemma split_nil (sep : str) : split sep [] = [[]].
Proof. reflexivity. Qed.

Lemma split_sep (sep r : str) :
  sep <> [] -> split sep (sep ++ r) = [] :: split sep r.
Proof.
  intros Hne. destruct sep as [|c sep]; [contradiction |].
  unfold split. change ((c :: sep) ++ r) with (c :: (sep ++ r)).
  cbn [split_aux].
  change (c :: sep ++ r) with ((c :: sep) ++ r). rewrite prefixb_app.
  f_equal. replace (length (c :: sep) - 1) with (length sep) by (simpl; lia).
  apply split_aux_skip.
Qed.

Lemma split_cons (sep : str) (c : ascii) (x : str) :
  prefixb sep (c :: x) = false ->
  split sep (c :: x)
  = match split sep x with
    | p :: ps => (c :: p) :: ps
    | [] => [[c]]
    end.
Proof.
  intros H. unfold split. cbn [split_aux]. rewrite H. reflexivity.
Qed.

Lemma split_cut (sep x r : str) :
  sep <> [] -> unbroken sep x (sep ++ r) ->
  split sep (x ++ sep ++ r) = x :: split sep r.
Proof.
  intros Hne. induction x as [|c x IH]; intros Hu.
  - change ([] ++ sep ++ r) with (sep ++ r). apply split_sep. exact Hne.
  - destruct Hu as [Hp Hu].
    change ((c :: x) ++ sep ++ r) with (c :: (x ++ sep ++ r)).
    rewrite split_cons by exact Hp. rewrite (IH Hu). reflexivity.
Qed.

Lemma split_whole (sep x : str) : unbroken sep x [] -> split sep x = [x].
Proof.
  induction x as [|c x IH]; intros Hu; [reflexivity |].
  destruct Hu as [Hp Hu]. rewrite app_nil_r in Hp.
  rewrite split_cons by exact Hp. rewrite (IH Hu). reflexivity.
Qed.

Lemma split_join (sep : str) (l : list str) :
  sep <> [] -> l <> [] -> Forall (item_of sep) l ->
  split sep (join sep l) = l.
Proof.
  intros Hne Hl Hall. induction Hall as [|x l Hx Hall IH]; [contradiction |].
  destruct l as [|y l].
  - simpl. apply split_whole. apply Hx. now left.
  - change (join sep (x :: y :: l)) with (x ++ sep ++ join sep (y :: l)).
    rewrite split_cut; [| exact Hne | apply Hx; right; eauto].
    rewrite IH by discriminate. reflexivity.
Qed.

Lemma has_sub_cons (pat : str) (c : ascii) (x : str) :
  has_sub pat (c :: x) = prefixb pat (c :: x) || has_sub pat x.
Proof. reflexivity. Qed.

Lemma prefixb_cons (a b : ascii) (p x : str) :
  prefixb (a :: p) (b :: x) = chr_eqb a b && prefixb p x.
Proof. reflexivity. Qed.

Lemma txt_dot_paren : txt ".(" = ["."; "("].
Proof. reflexivity. Qed.

Lemma txt_paren_dot_paren : txt ").(" = [")"; "."; "("].
Proof. reflexivity. Qed.

(** A text in which the first character of the separator does not occur. *)
Lemma item_of_no_first (c0 : ascii) (sep x : str) :
  has_char c0 x = false -> item_of (c0 :: sep) x.
Proof.
  intros Hx k _. induction x as [|c x IH]; [exact I |].
  unfold has_char in Hx. cbn [existsb] in Hx.
  apply orb_false_iff in Hx. destruct Hx as [Hc Hx].
  split; [| exact (IH Hx)].
  change ((c :: x) ++ k) with (c :: (x ++ k)).
  rewrite prefixb_cons, Hc. reflexivity.
Qed.

(** For the separator between molecules it is enough that no [.(] occurs
    in the text. *)
Lemma item_of_mol (x : str) :
  has_sub (txt ".(") x = false -> item_of (txt ").(") x.
Proof.
  rewrite txt_dot_paren, txt_paren_dot_paren.
  intros Hx k Hk.
  assert (Hk1 : prefixb ["."; "("] k = false).
  { destruct Hk as [-> | [r ->]]; reflexivity. }
  assert (Hk2 : prefixb ["("] k = false).
  { destruct Hk as [-> | [r ->]]; reflexivity. }
  clear Hk. induction x as [|c x IH]; [exact I |].
  rewrite has_sub_cons in Hx. apply orb_false_iff in Hx.
  destruct Hx as [Hp Hx].
  split; [| exact (IH Hx)].
  change ((c :: x) ++ k) with (c :: (x ++ k)). rewrite prefixb_cons.
  destruct (chr_eqb ")" c); [| reflexivity]. rewrite andb_true_l.
  clear IH Hp. destruct x as [|c1 x]; [exact Hk1 |].
  rewrite has_sub_cons in Hx. apply orb_false_iff in Hx.
  destruct Hx as [Hp Hx].
  change ((c1 :: x) ++ k) with (c1 :: (x ++ k)).
  rewrite prefixb_cons in *.
  destruct (chr_eqb "." c1); [| reflexivity]. rewrite andb_true_l in *.
  destruct x as [|c2 x]; [exact Hk2 |].
  exact Hp.
Qed.

Lemma has_sub_dot_app (f rest : str) :
  has_char "." f = false ->
  has_sub (txt ".(") rest = false ->
  prefixb (txt "(") rest = false ->
  has_sub (txt ".(") (f ++ txt "." ++ rest) = false.
Proof.
  rewrite txt_dot_paren.
  intros Hf Hrest Hhd. induction f as [|c f IH].
  - change ([] ++ txt "." ++ rest) with ("." :: rest).
    rewrite has_sub_cons, Hrest, orb_false_r, prefixb_cons, chr_eqb_refl.
    exact Hhd.
  - unfold has_char in Hf. cbn [existsb] in Hf.
    apply orb_false_iff in Hf. destruct Hf as [Hc Hf].
    change ((c :: f) ++ txt "." ++ rest) with (c :: (f ++ txt "." ++ rest)).
    rewrite has_sub_cons, (IH Hf), orb_false_r, prefixb_cons, Hc.
    reflexivity.
Qed.

(** ** The order on strings *)

Lemma nat_of_ascii_inj (a b : ascii) : nat_of_ascii a = nat_of_ascii b -> a = b.
Proof.
  intros H. rewrite <- (ascii_nat_embedding a), <- (ascii_nat_embedding b).
  now rewrite H.
Qed.

Lemma str_leb_refl (a : str) : str_leb a a = true.
Proof.
  induction a as [|x a IH]; simpl; [reflexivity |].
  rewrite Nat.ltb_irrefl. exact IH.
Qed.

Lemma str_leb_total (a b : str) : str_leb a b = true \/ str_leb b a = true.
Proof.
  revert b. induction a as [|x a IH]; intros [|y b]; simpl; auto.
  destruct (Nat.ltb_spec (nat_of_ascii x) (nat_of_ascii y)); [now left |].
  destruct (Nat.ltb_spec (nat_of_ascii y) (nat_of_ascii x)); [now right |].
  apply IH.
Qed.

Lemma str_leb_antisym (a b : str) :
  str_leb a b = true -> str_leb b a = true -> a = b.
Proof.
  revert b. induction a as [|x a IH]; intros [|y b]; simpl;
    try discriminate; [reflexivity |].
  destruct (Nat.ltb_spec (nat_of_ascii x) (nat_of_ascii y)) as [Hxy | Hxy];
    destruct (Nat.ltb_spec (nat_of_ascii y) (nat_of_ascii x)) as [Hyx | Hyx];
    try discriminate; try lia.
  intros H1 H2. f_equal; [apply nat_of_ascii_inj; lia | now apply IH].
Qed.

Lemma str_leb_trans (a b c : str) :
  str_leb a b = true -> str_leb b c = true -> str_leb a c = true.
Proof.
  revert b c. induction a as [|x a IH]; intros [|y b] [|z c]; simpl;
    try discriminate; try reflexivity.
  destruct (Nat.ltb_spec (nat_of_ascii x) (nat_of_ascii y)) as [Hxy | Hxy];
    destruct (Nat.ltb_spec (nat_of_ascii y) (nat_of_ascii x)) as [Hyx | Hyx];
    destruct (Nat.ltb_spec (nat_of_ascii y) (nat_of_ascii z)) as [Hyz | Hyz];
    destruct (Nat.ltb_spec (nat_of_ascii z) (nat_of_ascii y)) as [Hzy | Hzy];
    destruct (Nat.ltb_spec (nat_of_ascii x) (nat_of_ascii z)) as [Hxz | Hxz];
    destruct (Nat.ltb_spec (nat_of_ascii z) (nat_of_ascii x)) as [Hzx | Hzx];
    try discriminate; try reflexivity; try lia.
  apply IH.
Qed.

Lemma str_leb_false (a b : str) : str_leb a b = false -> str_leb b a = true.
Proof.
  intros H. destruct (str_leb_total a b) as [H' | H']; congruence.
Qed.

Lemma str_leb_strict (a b : str) :
  a <> b -> str_leb a b = true -> str_leb b a = false.
Proof.
  intros Hne H. destruct (str_leb b a) eqn:H'; [| reflexivity].
  exfalso. apply Hne. now apply str_leb_antisym.
Qed.

(** ** Stable sorting *)

Section Sorting.

Variable A : Type.
Variable key : A -> str.

Lemma sorted_by_cons (x : A) (l : list A) :
  sorted_by key (x :: l) = insert_by key x (sorted_by key l).
Proof. reflexivity. Qed.

Lemma insert_by_perm (x : A) (l : list A) : Permutation (x :: l) (insert_by key x l).
Proof.
  induction l as [|y l IH]; simpl; [reflexivity |].
  destruct (str_leb (key x) (key y)); [reflexivity |].
  rewrite perm_swap. now constructor.
Qed.

Lemma sorted_by_perm (l : list A) : Permutation l (sorted_by key l).
Proof.
  induction l as [|x l IH]; simpl; [constructor |].
  rewrite <- insert_by_perm. now constructor.
Qed.

Lemma sorted_by_length (l : list A) : length (sorted_by key l) = length l.
Proof. symmetry. apply Permutation_length, sorted_by_perm. Qed.

Lemma sorted_by_In (x : A) (l : list A) : In x (sorted_by key l) <-> In x l.
Proof.
  split; apply Permutation_in;
    [symmetry |]; apply sorted_by_perm.
Qed.

(** A list whose keys ascend is left as it is. *)
Lemma sorted_by_ascending (l : list A) :
  ascending (map key l) -> sorted_by key l = l.
Proof.
  induction l as [|x l IH]; [reflexivity |].
  intros [Hx Hl]. rewrite sorted_by_cons, (IH Hl).
  destruct l as [|y l]; [reflexivity |].
  simpl in Hx |- *. now rewrite Hx.
Qed.

Lemma insert_by_ascending (x : A) (l : list A) :
  ascending (map key l) -> ascending (map key (insert_by key x l)).
Proof.
  induction l as [|y l IH]; intros Hl; [simpl; auto |].
  cbn [insert_by]. destruct (str_leb (key x) (key y)) eqn:Hxy.
  - cbn [map ascending]. split; [exact Hxy | exact Hl].
  - destruct Hl as [Hy Hl]. specialize (IH Hl).
    cbn [map ascending]. split; [| exact IH].
    destruct l as [|z l]; cbn [insert_by map].
    + now apply str_leb_false.
    + destruct (str_leb (key x) (key z)); cbn [map].
      * now apply str_leb_false.
      * exact Hy.
Qed.

Lemma sorted_by_is_ascending (l : list A) : ascending (map key (sorted_by key l)).
Proof.
  induction l as [|x l IH]; [exact I |].
  rewrite sorted_by_cons. now apply insert_by_ascending.
Qed.

(** Sorting twice is sorting once. *)
Lemma sorted_by_idempotent (l : list A) :
  sorted_by key (sorted_by key l) = sorted_by key l.
Proof. apply sorted_by_ascending, sorted_by_is_ascending. Qed.

(** Two elements with different keys can be inserted in either order. *)
Lemma insert_by_comm (x y : A) (l : list A) :
  key x <> key y ->
  insert_by key x (insert_by key y l) = insert_by key y (insert_by key x l).
Proof.
  intros Hne.
  assert (Hne' : key y <> key x) by congruence.
  induction l as [|z l IH]; cbn [insert_by].
  - destruct (str_leb (key x) (key y)) eqn:H1.
    + now rewrite (str_leb_strict _ _ Hne H1).
    + now rewrite (str_leb_false _ _ H1).
  - destruct (str_leb (key y) (key z)) eqn:Hyz;
      destruct (str_leb (key x) (key z)) eqn:Hxz; cbn [insert_by];
      rewrite ?Hyz, ?Hxz.
    + destruct (str_leb (key x) (key y)) eqn:H1.
      * now rewrite (str_leb_strict _ _ Hne H1).
      * rewrite (str_leb_false _ _ H1). cbn [insert_by].
        rewrite ?Hxz, ?Hyz. reflexivity.
    + assert (H1 : str_leb (key y) (key x) = true).
      { apply str_leb_trans with (key z); [exact Hyz | now apply str_leb_false]. }
      rewrite (str_leb_strict _ _ Hne' H1). cbn [insert_by].
      rewrite ?Hxz, ?Hyz. reflexivity.
    + assert (H1 : str_leb (key x) (key y) = true).
      { apply str_leb_trans with (key z); [exact Hxz | now apply str_leb_false]. }
      rewrite (str_leb_strict _ _ Hne H1). cbn [insert_by].
      rewrite ?Hxz, ?Hyz. reflexivity.
    + now rewrite IH.
Qed.

(** With no two keys alike, the sorted list does not depend on the order of
    the input. *)
Lemma sorted_by_permutation (l1 l2 : list A) :
  Permutation l1 l2 -> NoDup (map key l1) ->
  sorted_by key l1 = sorted_by key l2.
Proof.
  induction 1 as [| x l1 l2 Hp IH | x y l | l1 l2 l3 Hp1 IH1 Hp2 IH2];
    intros Hnd.
  - reflexivity.
  - rewrite !sorted_by_cons. rewrite IH; [reflexivity |].
    now inversion Hnd.
  - rewrite !sorted_by_cons. apply insert_by_comm.
    inversion Hnd as [| ? ? Hin _]; subst. intros Heq. apply Hin.
    rewrite Heq. now left.
  - rewrite IH1 by exact Hnd. apply IH2.
    eapply Permutation_NoDup; [| exact Hnd]. now apply Permutation_map.
Qed.

End Sorting.

(** Sorting commutes with a map that preserves the keys. *)
Lemma sorted_by_map (A B : Type) (keyA : A -> str) (keyB : B -> str)
    (g : A -> B) (l : list A) :
  (forall x, In x l -> keyB (g x) = keyA x) ->
  map g (sorted_by keyA l) = sorted_by keyB (map g l).
Proof.
  intros Hk.
  assert (Hins : forall x l', keyB (g x) = keyA x ->
            (forall y, In y l' -> keyB (g y) = keyA y) ->
            map g (insert_by keyA x l') = insert_by keyB (g x) (map g l')).
  { intros x l' Hx. induction l' as [|y l' IH]; intros Hl'; [reflexivity |].
    cbn [insert_by map]. rewrite Hx, (Hl' y (or_introl eq_refl)).
    destruct (str_leb (keyA x) (keyA y)); [reflexivity |].
    cbn [map]. rewrite IH; [reflexivity |]. intros z Hz. apply Hl'. now right. }
  induction l as [|x l IH]; [reflexivity |].
  cbn [map]. rewrite !sorted_by_cons.
  rewrite Hins.
  - rewrite IH; [reflexivity |]. intros y Hy. apply Hk. now right.
  - apply Hk. now left.
  - intros y Hy. apply Hk. right. now apply (sorted_by_In A keyA y l).
Qed.

(** ** Sorting through an index list *)

Lemma combine_map_fst (A B : Type) (l1 : list A) (l2 : list B) :
  length l1 = length l2 -> map fst (combine l1 l2) = l1.
Proof.
  revert l2. induction l1 as [|a l1 IH]; intros [|b l2] H; simpl in *;
    try discriminate; [reflexivity |].
  f_equal. apply IH. lia.
Qed.

Lemma combine_map_snd (A B : Type) (l1 : list A) (l2 : list B) :
  length l1 = length l2 -> map snd (combine l1 l2) = l2.
Proof.
  revert l2. induction l1 as [|a l1 IH]; intros [|b l2] H; simpl in *;
    try discriminate; [reflexivity |].
  f_equal. apply IH. lia.
Qed.

Lemma mapM_index_Ok (A B : Type) (vals : list B) (l : list A)
    (ix : A -> nat) (v : A -> B) :
  (forall t, In t l -> nth_error vals (ix t) = Some (v t)) ->
  mapM (index vals) (map ix l) = Ok (map v l).
Proof.
  induction l as [|t l IH]; intros H; [reflexivity |].
  cbn [map mapM]. unfold index at 1. rewrite (H t (or_introl eq_refl)).
  cbn [bind]. rewrite IH; [reflexivity |]. intros t' Ht'. apply H. now right.
Qed.

Lemma enumerate_tagged (B : Type) (keys : list str) (vals : list B) (s : nat)
    (t : nat * (str * B)) :
  In t (combine (seq s (length keys)) (combine keys vals)) ->
  exists i, fst t = s + i /\ nth_error vals i = Some (snd (snd t)).
Proof.
  revert vals s. induction keys as [|k keys IH]; intros vals s Hin;
    [contradiction |].
  destruct vals as [|v vals]; [contradiction |].
  destruct Hin as [<- | Hin].
  - exists 0. split; [simpl; lia | reflexivity].
  - destruct (IH vals (S s) Hin) as [i [Hi Hn]].
    exists (S i). split; [lia | exact Hn].
Qed.

(** Picking through the sort order of the keys sorts the values by their
    keys. *)
Lemma pick_sortorder (keys vals : list str) :
  length keys = length vals ->
  pick vals (sortorder_of keys)
  = Ok (map snd (sorted_by (fun p : str * str => fst p) (combine keys vals))).
Proof.
  intros Hlen. unfold pick, sortorder_of, enumerate.
  set (T := combine (seq 0 (length keys)) (combine keys vals)).
  set (keyT := fun t : nat * (str * str) => fst (snd t)).
  assert (H1 : sorted_by (fun x : nat * str => snd x)
                 (combine (seq 0 (length keys)) keys)
               = map (fun t : nat * (str * str) => (fst t, fst (snd t)))
                   (sorted_by keyT T)).
  { rewrite (sorted_by_map _ _ keyT (fun x : nat * str => snd x)) by reflexivity.
    f_equal. unfold T. clear T keyT.
    generalize 0. revert vals Hlen.
    induction keys as [|k keys IH]; intros [|v vals] Hlen s; simpl in *;
      try discriminate; [reflexivity |].
    f_equal. apply IH. lia. }
  assert (H2 : sorted_by (fun p : str * str => fst p) (combine keys vals)
               = map snd (sorted_by keyT T)).
  { rewrite (sorted_by_map _ _ keyT (fun p : str * str => fst p)) by reflexivity.
    f_equal. unfold T. symmetry. apply combine_map_snd.
    rewrite length_seq, length_combine. lia. }
  rewrite H1, H2, !map_map. cbn [fst].
  apply mapM_index_Ok.
  intros t Ht. apply (proj1 (sorted_by_In _ keyT t T)) in Ht.
  destruct (enumerate_tagged _ _ _ _ _ Ht) as [i [Hi Hn]].
  simpl in Hi. now rewrite Hi.
Qed.

(** The values sorted by the keys computed from them. *)
Lemma sorted_by_combine_map (key : str -> str) (vals : list str) :
  map snd (sorted_by (fun p : str * str => fst p) (combine (map key vals) vals))
  = sorted_by key vals.
Proof.
  rewrite (sorted_by_map _ _ (fun p : str * str => fst p) key).
  - f_equal. apply combine_map_snd. now rewrite length_map.
  - intros [k v] Hin. simpl.
    clear -Hin. induction vals as [|w vals IH]; [contradiction |].
    destruct Hin as [H | H]; [inversion H; reflexivity | now apply IH].
Qed.

(** ** Decimal numerals *)

Lemma string_of_uint_digits (d : Decimal.uint) :
  forallb is_digit
    (String.list_ascii_of_string (DecimalString.NilEmpty.string_of_uint d))
  = true.
Proof.
  induction d; simpl; try reflexivity; exact IHd.
Qed.

Lemma str_of_nat_inj (n m : nat) : str_of_nat n = str_of_nat m -> n = m.
Proof.
  unfold str_of_nat. intros H.
  apply DecimalNat.Unsigned.to_uint_inj.
  apply (f_equal String.string_of_list_ascii) in H.
  rewrite !String.string_of_list_ascii_of_string in H.
  apply (f_equal DecimalString.NilEmpty.uint_of_string) in H.
  rewrite !DecimalString.NilEmpty.usu in H. now inversion H.
Qed.

Lemma str_of_nat_is_label (n : nat) : is_label (str_of_nat n).
Proof.
  split; [| apply string_of_uint_digits].
  unfold str_of_nat. intros H.
  assert (Hnil : Nat.to_uint n = Decimal.Nil).
  { apply (f_equal String.string_of_list_ascii) in H.
    rewrite String.string_of_list_ascii_of_string in H.
    apply (f_equal DecimalString.NilEmpty.uint_of_string) in H.
    rewrite DecimalString.NilEmpty.usu in H. simpl in H. now inversion H. }
  apply (DecimalFacts.unorm_nonnil (Nat.to_uint n)).
  rewrite <- DecimalNat.Unsigned.to_of, DecimalNat.Unsigned.of_to.
  exact Hnil.
Qed.

(** ** Labels of a text *)

Lemma labels_of_app (ts us : list token) :
  labels_of (ts ++ us) = labels_of ts ++ labels_of us.
Proof.
  induction ts as [|[c|ds] ts IH]; simpl; [reflexivity | exact IH |].
  now rewrite IH.
Qed.

Lemma labels_of_relabel (f : str -> str) (ts : list token) :
  labels_of (map (relabel_token f) ts) = map f (labels_of ts).
Proof.
  induction ts as [|[c|ds] ts IH]; simpl; [reflexivity | exact IH |].
  now rewrite IH.
Qed.

Lemma findall_labels_is_label (x ds : str) :
  In ds (findall_labels x) -> is_label ds.
Proof.
  unfold findall_labels.
  induction x as [| c x Hm IH | ds' rest Hl IH] using scan_ind.
  - intros [].
  - rewrite (scan_none c x Hm). exact IH.
  - rewrite (scan_label ds' rest Hl). simpl.
    intros [<- | H]; [exact Hl | exact (IH H)].
Qed.

Lemma findall_labels_relabel (f : str -> str) (x : str) :
  (forall ds, In ds (findall_labels x) -> is_label (f ds)) ->
  findall_labels (relabel f x) = map f (findall_labels x).
Proof.
  intros Hf. unfold findall_labels at 1.
  rewrite (scan_relabel f x Hf). apply labels_of_relabel.
Qed.

Lemma re_sub_ext_tokens (f g : str -> str) (ts : list token) :
  (forall ds, In ds (labels_of ts) -> f ds = g ds) ->
  flat_map (fun t => match t with Chr c => [c] | Lab ds => f ds end) ts
  = flat_map (fun t => match t with Chr c => [c] | Lab ds => g ds end) ts.
Proof.
  induction ts as [|[c|ds] ts IH]; intros H; [reflexivity | |].
  - simpl. now rewrite IH.
  - cbn [flat_map]. rewrite (H ds) by now left.
    rewrite IH; [reflexivity |]. intros ds' Hds'. apply H. now right.
Qed.

Lemma relabel_ext (f g : str -> str) (x : str) :
  (forall ds, In ds (findall_labels x) -> f ds = g ds) ->
  relabel f x = relabel g x.
Proof.
  intros H. unfold relabel, re_sub. apply re_sub_ext_tokens.
  intros ds Hds. now rewrite (H ds Hds).
Qed.

Lemma re_sub_relabel (g f : str -> str) (x : str) :
  (forall ds, In ds (findall_labels x) -> is_label (f ds)) ->
  re_sub g (relabel f x) = re_sub (fun ds => g (f ds)) x.
Proof.
  intros Hf. unfold re_sub at 1. rewrite (scan_relabel f x Hf).
  unfold re_sub. induction (scan x) as [|[c|ds] ts IH]; simpl;
    [reflexivity | |]; now rewrite IH.
Qed.

Lemma relabel_relabel (g f : str -> str) (x : str) :
  (forall ds, In ds (findall_labels x) -> is_label (f ds)) ->
  relabel g (relabel f x) = relabel (fun ds => g (f ds)) x.
Proof. intros Hf. unfold relabel at 1. now rewrite re_sub_relabel. Qed.

(** Relabeling does not change the label-stripped text. *)
Lemma strip_labels_relabel (f : str -> str) (x : str) :
  (forall ds, In ds (findall_labels x) -> is_label (f ds)) ->
  strip_labels (relabel f x) = strip_labels x.
Proof. intros Hf. unfold strip_labels. now rewrite re_sub_relabel. Qed.

(** ** First appearances and dense numbers *)

Lemma first_appearances_from_extends (seen labels : list str) :
  exists extra, first_appearances_from seen labels = seen ++ extra.
Proof.
  revert seen. induction labels as [|l labels IH]; intros seen; simpl.
  - exists []. now rewrite app_nil_r.
  - destruct (mem l seen); [apply IH |].
    destruct (IH (seen ++ [l])) as [extra ->].
    exists (l :: extra). now rewrite <- app_assoc.
Qed.

Lemma first_appearances_from_In (seen labels : list str) (l : str) :
  In l (first_appearances_from seen labels) <-> In l seen \/ In l labels.
Proof.
  revert seen. induction labels as [|l' labels IH]; intros seen; simpl.
  - tauto.
  - destruct (mem l' seen) eqn:Hm; rewrite IH.
    + apply mem_In in Hm. split; [tauto |].
      intros [H | [<- | H]]; tauto.
    + rewrite in_app_iff. simpl. tauto.
Qed.

Lemma first_appearances_from_NoDup (seen labels : list str) :
  NoDup seen -> NoDup (first_appearances_from seen labels).
Proof.
  revert seen. induction labels as [|l labels IH]; intros seen Hnd; simpl;
    [exact Hnd |].
  destruct (mem l seen) eqn:Hm; [now apply IH |].
  apply IH. apply mem_not_In in Hm.
  apply NoDup_app; [exact Hnd | repeat constructor; intros [] |].
  intros a Ha [<- | []]. contradiction.
Qed.

Lemma position_app_in (l : str) (a b : list str) :
  In l a -> position l (a ++ b) = position l a.
Proof.
  induction a as [|x a IH]; intros Hin; [contradiction |].
  simpl. destruct (str_eqb x l) eqn:He; [reflexivity |].
  f_equal. apply IH. destruct Hin as [-> | H]; [| exact H].
  rewrite str_eqb_refl in He. discriminate.
Qed.

Lemma position_app_notin (l : str) (a b : list str) :
  ~ In l a -> position l (a ++ b) = length a + position l b.
Proof.
  induction a as [|x a IH]; intros Hnot; [reflexivity |].
  simpl. destruct (str_eqb x l) eqn:He.
  - apply str_eqb_eq in He. subst. exfalso. apply Hnot. now left.
  - f_equal. apply IH. intros H. apply Hnot. now right.
Qed.

Lemma position_inj (order : list str) (a b : str) :
  In a order -> In b order -> position a order = position b order -> a = b.
Proof.
  induction order as [|x order IH]; intros Ha Hb; [contradiction |].
  simpl. destruct (str_eqb x a) eqn:Ea; destruct (str_eqb x b) eqn:Eb;
    try discriminate.
  - apply str_eqb_eq in Ea, Eb. congruence.
  - intros H. injection H as H. apply IH; [| | exact H].
    + destruct Ha as [-> | Ha]; [rewrite str_eqb_refl in Ea; discriminate | exact Ha].
    + destruct Hb as [-> | Hb]; [rewrite str_eqb_refl in Eb; discriminate | exact Hb].
Qed.

Lemma position_NoDup (order : list str) :
  NoDup order ->
  map (fun l => position l order) order = seq 0 (length order).
Proof.
  induction 1 as [|x order Hx Hnd IH]; [reflexivity |].
  cbn [map length seq position]. rewrite str_eqb_refl. f_equal.
  rewrite <- seq_shift, <- IH, map_map.
  apply map_ext_in. intros l Hl.
  destruct (str_eqb x l) eqn:He; [| reflexivity].
  apply str_eqb_eq in He. subst. contradiction.
Qed.

(** The first appearances are numbered 1, 2, ... in their order. *)
Lemma dense_number_first_appearances (labels : list str) :
  map (dense_number labels) (first_appearances labels)
  = seq 1 (length (first_appearances labels)).
Proof.
  unfold dense_number. rewrite <- seq_shift.
  rewrite <- (position_NoDup (first_appearances labels)), map_map;
    [reflexivity |].
  apply first_appearances_from_NoDup. constructor.
Qed.

Lemma dense_number_inj (labels : list str) (a b : str) :
  In a labels -> In b labels ->
  dense_number labels a = dense_number labels b -> a = b.
Proof.
  unfold dense_number. intros Ha Hb H. injection H as H.
  apply (position_inj (first_appearances labels)); [| | exact H];
    apply first_appearances_from_In; now right.
Qed.

(** An injective renaming of the labels does not change their numbers. *)
Section Renaming.

Variable f : str -> str.
Variable dom : str -> Prop.
Hypothesis f_inj : forall a b, dom a -> dom b -> f a = f b -> a = b.

Lemma mem_map_inj (l : str) (seen : list str) :
  dom l -> Forall dom seen -> mem (f l) (map f seen) = mem l seen.
Proof.
  intros Hl Hs. destruct (mem l seen) eqn:Hm.
  - apply mem_In. apply in_map. now apply mem_In.
  - apply mem_not_In. apply mem_not_In in Hm. intros Hin.
    apply in_map_iff in Hin. destruct Hin as [l' [He Hin]].
    apply Hm. rewrite Forall_forall in Hs.
    rewrite <- (f_inj l' l (Hs l' Hin) Hl He). exact Hin.
Qed.

Lemma first_appearances_from_map (seen labels : list str) :
  Forall dom seen -> Forall dom labels ->
  first_appearances_from (map f seen) (map f labels)
  = map f (first_appearances_from seen labels).
Proof.
  revert seen. induction labels as [|l labels IH]; intros seen Hs Hl;
    [reflexivity |].
  inversion Hl as [|? ? Hd Hl']; subst.
  cbn [map first_appearances_from]. rewrite (mem_map_inj l seen Hd Hs).
  destruct (mem l seen); [now apply IH |].
  rewrite <- IH; [now rewrite map_app | | exact Hl'].
  apply Forall_app. split; [exact Hs | now constructor].
Qed.

Lemma position_map (l : str) (order : list str) :
  dom l -> Forall dom order ->
  position (f l) (map f order) = position l order.
Proof.
  intros Hl. induction 1 as [|x order Hx Ho IH]; [reflexivity |].
  cbn [map position]. rewrite IH.
  destruct (str_eqb x l) eqn:He.
  - apply str_eqb_eq in He. subst. now rewrite str_eqb_refl.
  - destruct (str_eqb (f x) (f l)) eqn:He'; [| reflexivity].
    apply str_eqb_eq in He'. apply (f_inj x l Hx Hl) in He'. subst.
    rewrite str_eqb_refl in He. discriminate.
Qed.

Lemma dense_number_map (labels : list str) (l : str) :
  dom l -> Forall dom labels ->
  dense_number (map f labels) (f l) = dense_number labels l.
Proof.
  intros Hl Hls. unfold dense_number, first_appearances. f_equal.
  change (@nil str) with (map f []) at 1.
  rewrite first_appearances_from_map by (constructor || exact Hls).
  apply position_map; [exact Hl |].
  apply Forall_forall. intros a Ha.
  apply first_appearances_from_In in Ha. destruct Ha as [[] | Ha].
  rewrite Forall_forall in Hls. now apply Hls.
Qed.

End Renaming.

(** ** Reassigning the atom-map labels *)

Lemma represents_nil : represents [] [].
Proof. intros l. reflexivity. Qed.

Lemma represents_add (d : list (str * str)) (seen : list str) (l : str) :
  represents d seen -> mem l seen = false ->
  represents ((l, str_of_nat (S (length seen))) :: d) (seen ++ [l]).
Proof.
  intros Hd Hm l'. cbn [lookup]. apply mem_not_In in Hm.
  destruct (str_eqb l l') eqn:He.
  - apply str_eqb_eq in He. subst l'.
    assert (Hin : mem l (seen ++ [l]) = true).
    { apply mem_In, in_app_iff. right. now left. }
    rewrite Hin, (position_app_notin l seen [l] Hm). simpl.
    rewrite str_eqb_refl. do 3 f_equal. lia.
  - rewrite (Hd l'). apply str_eqb_neq in He.
    destruct (mem l' seen) eqn:Hm'.
    + apply mem_In in Hm'.
      assert (Hin : mem l' (seen ++ [l]) = true).
      { apply mem_In, in_app_iff. now left. }
      now rewrite Hin, (position_app_in l' seen [l] Hm').
    + assert (Hin : mem l' (seen ++ [l]) = false).
      { apply mem_not_In. apply mem_not_In in Hm'. rewrite in_app_iff.
        intros [H | [H | []]]; [contradiction | congruence]. }
      now rewrite Hin.
Qed.

Lemma build_replacements_spec (labels : list str) (d : list (str * str))
    (seen : list str) :
  represents d seen ->
  build_replacements labels d (S (length seen))
  = map (fun l => str_of_nat (S (position l (first_appearances_from seen labels))))
      labels.
Proof.
  revert d seen. induction labels as [|l labels IH]; intros d seen Hd;
    [reflexivity |].
  cbn [build_replacements map first_appearances_from]. rewrite (Hd l).
  destruct (mem l seen) eqn:Hm.
  - rewrite (IH d seen Hd). f_equal.
    destruct (first_appearances_from_extends seen labels) as [extra ->].
    apply mem_In in Hm. now rewrite position_app_in.
  - cbn zeta.
    replace (S (S (length seen))) with (S (length (seen ++ [l])))
      by (rewrite length_app; simpl; lia).
    rewrite (IH _ _ (represents_add d seen l Hd Hm)). f_equal.
    destruct (first_appearances_from_extends (seen ++ [l]) labels)
      as [extra ->].
    apply mem_not_In in Hm.
    rewrite position_app_in by (apply in_app_iff; right; now left).
    rewrite position_app_notin by exact Hm. simpl.
    rewrite str_eqb_refl. do 2 f_equal. lia.
Qed.

Lemma sub_pop_spec (f : str -> str) (ts : list token) :
  sub_pop ts (map f (labels_of ts))
  = Ok (flat_map (fun t => match t with
                           | Chr c => [c]
                           | Lab ds => label_text (f ds)
                           end) ts).
Proof.
  induction ts as [|[c|ds] ts IH]; [reflexivity | |].
  - cbn [sub_pop labels_of flat_map]. rewrite IH. reflexivity.
  - cbn [sub_pop labels_of map flat_map]. rewrite IH. cbn [bind].
    unfold label_text. simpl. rewrite <- app_assoc. reflexivity.
Qed.

(** [reassign_atom_mapping] never fails, and renumbers the labels densely
    in the order of their first appearance. *)
Lemma reassign_atom_mapping_renumbered (x : str) :
  reassign_atom_mapping x = Ok (renumbered x).
Proof.
  unfold reassign_atom_mapping, renumbered, relabel, re_sub, findall_labels.
  pose proof (build_replacements_spec (labels_of (scan x)) [] []
                represents_nil) as Hb.
  cbn [length] in Hb. rewrite Hb.
  apply (sub_pop_spec
           (fun l => str_of_nat
                       (S (position l (first_appearances_from []
                                         (labels_of (scan x))))))).
Qed.

Lemma new_label_is_label (x l : str) : is_label (new_label x l).
Proof. apply str_of_nat_is_label. Qed.

Lemma scan_renumbered (x : str) :
  scan (renumbered x) = map (relabel_token (new_label x)) (scan x).
Proof.
  apply scan_relabel. intros ds _. apply new_label_is_label.
Qed.

(** Renumbering after a relabeling that keeps different labels apart gives
    what renumbering alone gives. *)
Lemma renumbered_relabel (f : str -> str) (x : str) :
  (forall l, In l (findall_labels x) -> is_label (f l)) ->
  (forall a b, In a (findall_labels x) -> In b (findall_labels x) ->
               f a = f b -> a = b) ->
  renumbered (relabel f x) = renumbered x.
Proof.
  intros Hlab Hinj. unfold renumbered.
  rewrite (relabel_relabel _ f x Hlab).
  apply relabel_ext. intros l Hl. unfold new_label. f_equal.
  rewrite (findall_labels_relabel f x Hlab).
  apply (dense_number_map f (fun a => In a (findall_labels x)) Hinj);
    [exact Hl |].
  apply Forall_forall. auto.
Qed.

(** Renumbering twice is renumbering once. *)
Lemma renumbered_idempotent (x : str) :
  renumbered (renumbered x) = renumbered x.
Proof.
  apply renumbered_relabel.
  - intros l _. apply new_label_is_label.
  - intros a b Ha Hb H. apply str_of_nat_inj in H.
    now apply (dense_number_inj (findall_labels x)).
Qed.

(** ** Substitution and the separators *)

Lemma re_sub_nil (g : str -> str) : re_sub g [] = [].
Proof. reflexivity. Qed.

Lemma re_sub_none (g : str -> str) (c : ascii) (x : str) :
  match_label is_digit (c :: x) = None -> re_sub g (c :: x) = c :: re_sub g x.
Proof.
  intros Hm. unfold re_sub. rewrite (scan_none c x Hm). reflexivity.
Qed.

Lemma re_sub_label (g : str -> str) (ds rest : str) :
  is_label ds ->
  re_sub g (":" :: ds ++ "]" :: rest) = g ds ++ re_sub g rest.
Proof.
  intros Hl. unfold re_sub. rewrite (scan_label ds rest Hl). reflexivity.
Qed.

Lemma re_sub_barrier (g : str -> str) (c : ascii) (a b : str) :
  barrier is_digit c ->
  re_sub g (a ++ c :: b) = re_sub g a ++ c :: re_sub g b.
Proof.
  intros Hc. unfold re_sub. rewrite (scan_barrier c a b Hc).
  rewrite flat_map_app. reflexivity.
Qed.

Lemma re_sub_sep (g : str -> str) (c : ascii) (sep a b : str) :
  Forall (barrier is_digit) (c :: sep) ->
  re_sub g (a ++ (c :: sep) ++ b) = re_sub g a ++ (c :: sep) ++ re_sub g b.
Proof.
  revert c a. induction sep as [|c' sep IH]; intros c a Hsep;
    inversion Hsep as [|? ? Hc Hsep']; subst.
  - apply re_sub_barrier. exact Hc.
  - change (a ++ (c :: c' :: sep) ++ b) with (a ++ c :: ([] ++ (c' :: sep) ++ b)).
    rewrite (re_sub_barrier g c a _ Hc), (IH c' [] Hsep'). reflexivity.
Qed.

Lemma re_sub_join (g : str -> str) (sep : str) (l : list str) :
  sep <> [] -> Forall (barrier is_digit) sep ->
  re_sub g (join sep l) = join sep (map (re_sub g) l).
Proof.
  intros Hne Hsep. destruct sep as [|c sep]; [contradiction |].
  induction l as [|x l IH]; [reflexivity |].
  destruct l as [|y l]; [reflexivity |].
  change (join (c :: sep) (x :: y :: l))
    with (x ++ (c :: sep) ++ join (c :: sep) (y :: l)).
  rewrite (re_sub_sep g c sep x _ Hsep), IH. reflexivity.
Qed.

Lemma barrier_dot : Forall (barrier is_digit) (txt ".").
Proof. repeat constructor; discriminate. Qed.

Lemma barrier_between_mols : Forall (barrier is_digit) (txt ").(").
Proof. repeat constructor; discriminate. Qed.

Lemma barrier_arrow : Forall (barrier is_digit) (txt ">>").
Proof. repeat constructor; discriminate. Qed.

Lemma barrier_open : barrier is_digit "(".
Proof. repeat constructor; discriminate. Qed.

Lemma barrier_close : barrier is_digit ")".
Proof. repeat constructor; discriminate. Qed.

Lemma re_sub_render_mol (g : str -> str) (m : list str) :
  re_sub g (render_mol m) = render_mol (map (re_sub g) m).
Proof. apply re_sub_join; [discriminate | apply barrier_dot]. Qed.

Lemma re_sub_render_half (g : str -> str) (h : list (list str)) :
  re_sub g (render_half h) = render_half (map (map (re_sub g)) h).
Proof.
  unfold render_half.
  change (txt "(" ++ join (txt ").(") (map render_mol h) ++ txt ")")
    with ([] ++ "(" :: (join (txt ").(") (map render_mol h) ++ ")" :: [])).
  rewrite (re_sub_barrier g "(" [] _ barrier_open).
  rewrite (re_sub_barrier g ")" _ [] barrier_close).
  rewrite (re_sub_join g (txt ").(") _ ltac:(discriminate) barrier_between_mols),
    !map_map.
  simpl. do 2 f_equal. f_equal. apply map_ext. intros m.
  apply re_sub_render_mol.
Qed.

Lemma re_sub_render_transform (g : str -> str) (hs : list (list (list str))) :
  re_sub g (render_transform hs)
  = render_transform (map (map (map (re_sub g))) hs).
Proof.
  unfold render_transform.
  rewrite (re_sub_join g (txt ">>") _ ltac:(discriminate) barrier_arrow),
    !map_map. f_equal.
  apply map_ext. intros h. apply re_sub_render_half.
Qed.

Lemma strip_labels_render_mol (m : list str) :
  strip_labels (render_mol m) = render_mol (map strip_labels m).
Proof. apply re_sub_render_mol. Qed.

Lemma strip_labels_render_half (h : list (list str)) :
  strip_labels (render_half h) = render_half (map (map strip_labels) h).
Proof. apply re_sub_render_half. Qed.

Lemma relabel_render_half (f : str -> str) (h : list (list str)) :
  relabel f (render_half h) = render_half (relabel_half f h).
Proof. apply re_sub_render_half. Qed.

Lemma relabel_render_transform (f : str -> str) (hs : list (list (list str))) :
  relabel f (render_transform hs) = render_transform (map (relabel_half f) hs).
Proof. apply re_sub_render_transform. Qed.

(** ** Characters of a substituted text *)

Lemma has_char_app (c : ascii) (a b : str) :
  has_char c (a ++ b) = has_char c a || has_char c b.
Proof. unfold has_char. apply existsb_app. Qed.

Lemma has_char_re_sub (g : str -> str) (c : ascii) (x : str) :
  has_char c x = false ->
  (forall ds, In ds (findall_labels x) -> has_char c (g ds) = false) ->
  has_char c (re_sub g x) = false.
Proof.
  unfold findall_labels.
  induction x as [| c0 x Hm IH | ds rest Hl IH] using scan_ind; intros Hx Hg.
  - reflexivity.
  - rewrite (re_sub_none g c0 x Hm). rewrite (scan_none c0 x Hm) in Hg.
    unfold has_char in Hx |- *. cbn [existsb] in Hx |- *.
    apply orb_false_iff in Hx. destruct Hx as [Hc Hx].
    rewrite Hc. exact (IH Hx Hg).
  - rewrite (re_sub_label g ds rest Hl), has_char_app.
    rewrite (scan_label ds rest Hl) in Hg. cbn [labels_of] in Hg.
    rewrite (Hg ds (or_introl eq_refl)).
    apply IH; [| intros ds' H; apply Hg; now right].
    change (":" :: ds ++ "]" :: rest) with ([":"] ++ ds ++ ["]"] ++ rest) in Hx.
    rewrite !has_char_app in Hx.
    repeat (apply orb_false_iff in Hx; destruct Hx as [_ Hx]). exact Hx.
Qed.

Lemma prefix_open_re_sub (g : str -> str) (x : str) :
  prefixb (txt "(") x = false ->
  (forall ds k, In ds (findall_labels x) -> prefixb (txt "(") (g ds ++ k) = false) ->
  prefixb (txt "(") (re_sub g x) = false.
Proof.
  intros Hx Hg. destruct x as [|c x]; [reflexivity |].
  destruct (match_label is_digit (c :: x)) as [[ds rest]|] eqn:Hm.
  - destruct (match_label_Some is_digit _ _ _ Hm) as [Heq [Hne Hd]].
    rewrite Heq in *. rewrite re_sub_label by (split; assumption).
    apply Hg. unfold findall_labels.
    rewrite scan_label by (split; assumption). now left.
  - rewrite (re_sub_none g c x Hm). exact Hx.
Qed.

Lemma digits_no_char (c : ascii) (ds : str) :
  is_digit c = false -> forallb is_digit ds = true -> has_char c ds = false.
Proof.
  intros Hc. induction ds as [|d ds IH]; [reflexivity |].
  cbn [forallb]. intros H. apply andb_true_iff in H. destruct H as [Hd Hds].
  unfold has_char. cbn [existsb]. apply orb_false_iff. split; [| now apply IH].
  apply chr_eqb_neq. intros ->. congruence.
Qed.

Lemma fragment_ok_strip_labels (f : str) :
  fragment_ok f -> fragment_ok (strip_labels f).
Proof.
  intros (H1 & H2 & H3). unfold strip_labels. repeat split.
  - apply has_char_re_sub; [exact H1 | reflexivity].
  - apply has_char_re_sub; [exact H2 | reflexivity].
  - apply prefix_open_re_sub; [exact H3 | reflexivity].
Qed.

Lemma fragment_ok_relabel (f : str -> str) (x : str) :
  (forall ds, In ds (findall_labels x) -> is_label (f ds)) ->
  fragment_ok x -> fragment_ok (relabel f x).
Proof.
  intros Hf (H1 & H2 & H3). unfold relabel. repeat split.
  - apply has_char_re_sub; [exact H1 |]. intros ds Hds.
    unfold label_text. change (":" :: f ds ++ ["]"]) with ([":"] ++ f ds ++ ["]"]).
    rewrite !has_char_app. rewrite (digits_no_char "." (f ds) eq_refl);
      [reflexivity | apply Hf, Hds].
  - apply has_char_re_sub; [exact H2 |]. intros ds Hds.
    unfold label_text. change (":" :: f ds ++ ["]"]) with ([":"] ++ f ds ++ ["]"]).
    rewrite !has_char_app. rewrite (digits_no_char ">" (f ds) eq_refl);
      [reflexivity | apply Hf, Hds].
  - apply prefix_open_re_sub; [exact H3 | reflexivity].
Qed.

(** ** Reading a rendered half back *)

Lemma has_sub_no_dot (f : str) :
  has_char "." f = false -> has_sub (txt ".(") f = false.
Proof.
  rewrite txt_dot_paren. induction f as [|c f IH]; intros H; [reflexivity |].
  unfold has_char in H. cbn [existsb] in H.
  apply orb_false_iff in H. destruct H as [Hc H].
  rewrite has_sub_cons, (IH H), prefixb_cons, Hc. reflexivity.
Qed.

Lemma prefix_open_app (f r : str) (c : ascii) :
  prefixb (txt "(") f = false -> c <> "(" ->
  prefixb (txt "(") (f ++ c :: r) = false.
Proof.
  intros Hf Hc. destruct f as [|d f]; [| exact Hf].
  change (txt "(") with ["("]. change ([] ++ c :: r) with (c :: r).
  rewrite prefixb_cons. apply chr_eqb_neq in Hc.
  rewrite andb_true_r. apply chr_eqb_neq. apply chr_eqb_neq in Hc. congruence.
Qed.

Lemma render_mol_cons (f : str) (g : str) (m : list str) :
  render_mol (f :: g :: m) = f ++ txt "." ++ render_mol (g :: m).
Proof. reflexivity. Qed.

Lemma render_mol_shape (m : list str) :
  Forall fragment_ok m ->
  has_sub (txt ".(") (render_mol m) = false
  /\ prefixb (txt "(") (render_mol m) = false.
Proof.
  induction 1 as [|f m (H1 & H2 & H3) Hm [IH1 IH2]]; [split; reflexivity |].
  destruct m as [|g m].
  - split; [now apply has_sub_no_dot | exact H3].
  - rewrite render_mol_cons. split.
    + now apply has_sub_dot_app.
    + apply prefix_open_app; [exact H3 | discriminate].
Qed.

Lemma split_render_mol (m : list str) :
  mol_ok m -> split (txt ".") (render_mol m) = m.
Proof.
  intros [Hne Hm]. apply split_join; [discriminate | exact Hne |].
  eapply Forall_impl; [| exact Hm].
  intros f (H1 & _ & _). now apply (item_of_no_first "." []).
Qed.

Lemma split_mols (h : list (list str)) :
  half_ok h ->
  split (txt ").(") (join (txt ").(") (map render_mol h)) = map render_mol h.
Proof.
  intros [Hne Hh]. apply split_join; [discriminate | |].
  - destruct h; [contradiction | discriminate].
  - apply Forall_map. eapply Forall_impl; [| exact Hh].
    intros m [_ Hm]. apply item_of_mol. now apply render_mol_shape.
Qed.

Lemma strip_ends_render_half (h : list (list str)) :
  strip_ends (render_half h) = join (txt ").(") (map render_mol h).
Proof.
  unfold strip_ends, render_half. cbn [txt String.list_ascii_of_string app tl].
  apply removelast_last.
Qed.

Lemma has_char_join (c : ascii) (sep : str) (l : list str) :
  has_char c sep = false -> Forall (fun x => has_char c x = false) l ->
  has_char c (join sep l) = false.
Proof.
  intros Hsep. induction 1 as [|x l Hx Hl IH]; [reflexivity |].
  destruct l as [|y l]; [exact Hx |].
  change (join sep (x :: y :: l)) with (x ++ sep ++ join sep (y :: l)).
  now rewrite !has_char_app, Hx, Hsep, IH.
Qed.

Lemma render_half_no_arrow (h : list (list str)) :
  half_ok h -> has_char ">" (render_half h) = false.
Proof.
  intros [_ Hh]. unfold render_half. rewrite !has_char_app.
  rewrite has_char_join; [reflexivity | reflexivity |].
  apply Forall_map. eapply Forall_impl; [| exact Hh].
  intros m [_ Hm]. apply has_char_join; [reflexivity |].
  eapply Forall_impl; [| exact Hm]. now intros f (_ & H2 & _).
Qed.

Lemma split_render_transform (hs : list (list (list str))) :
  hs <> [] -> Forall half_ok hs ->
  split (txt ">>") (render_transform hs) = map render_half hs.
Proof.
  intros Hne Hhs. apply split_join; [discriminate | |].
  - destruct hs; [contradiction | discriminate].
  - apply Forall_map. eapply Forall_impl; [| exact Hhs].
    intros h Hh. apply (item_of_no_first ">" [">"]).
    now apply render_half_no_arrow.
Qed.

(** ** Well-formedness is kept *)

Lemma mol_ok_map (g : str -> str) (m : list str) :
  (forall f, In f m -> fragment_ok f -> fragment_ok (g f)) ->
  mol_ok m -> mol_ok (map g m).
Proof.
  intros Hg [Hne Hm]. split.
  - destruct m; [contradiction | discriminate].
  - apply Forall_map. rewrite Forall_forall in *. auto.
Qed.

Lemma half_ok_map (g : list str -> list str) (h : list (list str)) :
  (forall m, In m h -> mol_ok m -> mol_ok (g m)) ->
  half_ok h -> half_ok (map g h).
Proof.
  intros Hg [Hne Hh]. split.
  - destruct h; [contradiction | discriminate].
  - apply Forall_map. rewrite Forall_forall in *. auto.
Qed.

Lemma Forall_Permutation (A : Type) (P : A -> Prop) (l l' : list A) :
  Permutation l l' -> Forall P l -> Forall P l'.
Proof.
  intros Hp Hl. rewrite Forall_forall in *. intros x Hx.
  apply Hl. apply Permutation_in with l'; [now symmetry | exact Hx].
Qed.

Lemma mol_ok_Permutation (m m' : list str) :
  Permutation m m' -> mol_ok m -> mol_ok m'.
Proof.
  intros Hp [Hne Hm]. split.
  - intros ->. apply Permutation_sym, Permutation_nil in Hp. contradiction.
  - now apply (Forall_Permutation _ _ m).
Qed.

Lemma half_ok_Permutation (h h' : list (list str)) :
  Permutation h h' -> half_ok h -> half_ok h'.
Proof.
  intros Hp [Hne Hh]. split.
  - intros ->. apply Permutation_sym, Permutation_nil in Hp. contradiction.
  - now apply (Forall_Permutation _ _ h).
Qed.

Lemma mol_ok_canonical (m : list str) : mol_ok m -> mol_ok (canonical_mol m).
Proof. apply mol_ok_Permutation, sorted_by_perm. Qed.

Lemma half_ok_canonical (h : list (list str)) :
  half_ok h -> half_ok (canonical_half h).
Proof.
  intros Hh. unfold canonical_half.
  apply (half_ok_Permutation (map canonical_mol h)); [apply sorted_by_perm |].
  apply half_ok_map; [| exact Hh]. intros m _. apply mol_ok_canonical.
Qed.

Lemma half_ok_strip (h : list (list str)) :
  half_ok h -> half_ok (map (map strip_labels) h).
Proof.
  apply half_ok_map. intros m _. apply mol_ok_map.
  intros f _. apply fragment_ok_strip_labels.
Qed.

(** ** The canonical order of a half *)

Lemma combine_map_map (A B C : Type) (k : A -> B) (v : A -> C) (l : list A) :
  combine (map k l) (map v l) = map (fun x => (k x, v x)) l.
Proof.
  induction l as [|x l IH]; [reflexivity |]. simpl. now rewrite IH.
Qed.

(** Picking the values of a list through the sort order of its keys. *)
Lemma pick_sorted_values (A : Type) (k v : A -> str) (l : list A) :
  pick (map v l) (sortorder_of (map k l)) = Ok (map v (sorted_by k l)).
Proof.
  rewrite pick_sortorder by now rewrite !length_map.
  rewrite combine_map_map.
  rewrite <- (sorted_by_map _ _ k (fun p : str * str => fst p)
                (fun x => (k x, v x)) l) by reflexivity.
  now rewrite map_map.
Qed.

Lemma mapM_seq (A B : Type) (F : nat -> result B) (G : A -> B) (l : list A)
    (s : nat) :
  (forall i x, nth_error l i = Some x -> F (s + i) = Ok (G x)) ->
  mapM F (seq s (length l)) = Ok (map G l).
Proof.
  revert s. induction l as [|x l IH]; intros s H; [reflexivity |].
  cbn [length seq mapM map].
  rewrite <- (Nat.add_0_r s) at 1. rewrite (H 0 x eq_refl). cbn [bind].
  rewrite (IH (S s)); [reflexivity |].
  intros i y Hi. replace (S s + i) with (s + S i) by lia.
  now apply (H (S i) y).
Qed.

Lemma index_map (A B : Type) (g : A -> B) (l : list A) (i : nat) (x : A) :
  nth_error l i = Some x -> index (map g l) i = Ok (g x).
Proof.
  intros H. unfold index. now rewrite (map_nth_error g i l H).
Qed.

Lemma sort_within_mol_render (h : list (list str)) (i : nat) (m : list str) :
  half_ok h -> nth_error h i = Some m ->
  sort_within_mol (map render_mol (map (map strip_labels) h))
    (map render_mol h) i
  = Ok (bare_mol (canonical_mol m), render_mol (canonical_mol m)).
Proof.
  intros [_ Hh] Hi.
  assert (Hm : mol_ok m).
  { rewrite Forall_forall in Hh. apply Hh. eapply nth_error_In, Hi. }
  unfold sort_within_mol.
  rewrite map_map, (index_map _ _ _ h i m Hi). cbn [bind].
  rewrite (index_map _ _ _ h i m Hi). cbn [bind].
  rewrite split_render_mol
    by (apply mol_ok_map; [intros f _; apply fragment_ok_strip_labels | exact Hm]).
  rewrite (split_render_mol m Hm).
  rewrite (pick_sorted_values _ strip_labels strip_labels m). cbn [bind].
  pose proof (pick_sorted_values _ strip_labels (fun f => f) m) as Hpick.
  rewrite !map_id in Hpick. rewrite Hpick. cbn [bind].
  unfold bare_mol. rewrite strip_labels_render_mol. reflexivity.
Qed.

(** On a well-formed half, [canonicalize_template] returns the half in its
    canonical order. *)
Lemma canonicalize_template_render (h : list (list str)) :
  half_ok h ->
  canonicalize_template (render_half h) = Ok (render_half (canonical_half h)).
Proof.
  intros Hh. unfold canonicalize_template.
  rewrite strip_labels_render_half, !strip_ends_render_half.
  rewrite (split_mols _ (half_ok_strip h Hh)), (split_mols h Hh).
  rewrite (length_map render_mol h).
  rewrite (mapM_seq _ _ _
             (fun m => (bare_mol (canonical_mol m), render_mol (canonical_mol m)))
             h 0)
    by (intros i m Hi; now apply sort_within_mol_render).
  cbn [bind]. rewrite skipn_all2 by (rewrite !length_map; lia).
  rewrite app_nil_r, !map_map. cbn [fst snd].
  rewrite <- (map_map canonical_mol bare_mol).
  rewrite <- (map_map canonical_mol render_mol).
  rewrite (pick_sorted_values _ bare_mol render_mol (map canonical_mol h)).
  reflexivity.
Qed.

(** *** Properties of the canonical order *)

Lemma map_fixed (A : Type) (g : A -> A) (l : list A) :
  (forall x, In x l -> g x = x) -> map g l = l.
Proof.
  intros H. rewrite <- (map_id l) at 2. now apply map_ext_in.
Qed.

Lemma canonical_mol_idempotent (m : list str) :
  canonical_mol (canonical_mol m) = canonical_mol m.
Proof. apply sorted_by_idempotent. Qed.

Lemma canonical_half_idempotent (h : list (list str)) :
  canonical_half (canonical_half h) = canonical_half h.
Proof.
  unfold canonical_half at 1.
  rewrite (map_fixed _ canonical_mol (canonical_half h)).
  - apply sorted_by_idempotent.
  - intros m Hm. unfold canonical_half in Hm.
    apply (proj1 (sorted_by_In _ bare_mol m (map canonical_mol h))) in Hm.
    apply in_map_iff in Hm.
    destruct Hm as [m' [<- _]]. apply canonical_mol_idempotent.
Qed.

(** A map on the fragments that keeps the label-stripped text commutes
    with the canonical order. *)
Lemma canonical_mol_map (g : str -> str) (m : list str) :
  (forall f, In f m -> strip_labels (g f) = strip_labels f) ->
  canonical_mol (map g m) = map g (canonical_mol m).
Proof.
  intros Hg. unfold canonical_mol. symmetry. now apply sorted_by_map.
Qed.

Lemma bare_mol_map (g : str -> str) (m : list str) :
  (forall f, In f m -> strip_labels (g f) = strip_labels f) ->
  bare_mol (map g m) = bare_mol m.
Proof.
  intros Hg. unfold bare_mol. rewrite !strip_labels_render_mol, map_map.
  f_equal. now apply map_ext_in.
Qed.

Lemma canonical_half_map (g : str -> str) (h : list (list str)) :
  (forall m f, In m h -> In f m -> strip_labels (g f) = strip_labels f) ->
  canonical_half (map (map g) h) = map (map g) (canonical_half h).
Proof.
  intros Hg. unfold canonical_half. rewrite map_map.
  rewrite (map_ext_in (fun m => canonical_mol (map g m))
             (fun m => map g (canonical_mol m)))
    by (intros m Hm; apply canonical_mol_map; intros f; now apply Hg).
  rewrite <- (map_map canonical_mol (map g)).
  symmetry. apply sorted_by_map.
  intros m Hm. apply in_map_iff in Hm. destruct Hm as [m' [<- Hm']].
  apply bare_mol_map. intros f Hf. apply (Hg m'); [exact Hm' |].
  exact (proj1 (sorted_by_In _ strip_labels f m') Hf).
Qed.

(** ** Canonical transforms *)

Lemma mapM_map_Ok (A B C : Type) (F : B -> result C) (g : A -> B)
    (g' : A -> C) (l : list A) :
  (forall x, In x l -> F (g x) = Ok (g' x)) ->
  mapM F (map g l) = Ok (map g' l).
Proof.
  induction l as [|x l IH]; intros H; [reflexivity |].
  cbn [map mapM]. rewrite (H x (or_introl eq_refl)). cbn [bind].
  rewrite IH; [reflexivity |]. intros y Hy. apply H. now right.
Qed.

Lemma canonicalize_transform_unfold (transform : str) :
  canonicalize_transform transform
  = (halves <- mapM canonicalize_template (split (txt ">>") transform) ;;
     Ok (renumbered (join (txt ">>") halves))).
Proof.
  unfold canonicalize_transform.
  destruct (mapM canonicalize_template _) as [halves|e]; [| reflexivity].
  cbn [bind]. apply reassign_atom_mapping_renumbered.
Qed.

Lemma canonicalize_transform_render (hs : list (list (list str))) :
  hs <> [] -> Forall half_ok hs ->
  canonicalize_transform (render_transform hs)
  = Ok (renumbered (render_transform (map canonical_half hs))).
Proof.
  intros Hne Hhs. rewrite canonicalize_transform_unfold.
  rewrite (split_render_transform hs Hne Hhs).
  rewrite (mapM_map_Ok _ _ _ canonicalize_template render_half
             (fun h => render_half (canonical_half h)) hs).
  - cbn [bind]. unfold render_transform. now rewrite map_map.
  - intros h Hh. apply canonicalize_template_render.
    rewrite Forall_forall in Hhs. now apply Hhs.
Qed.

Lemma half_ok_relabel (f : str -> str) (h : list (list str)) :
  (forall l, is_label l -> is_label (f l)) ->
  half_ok h -> half_ok (relabel_half f h).
Proof.
  intros Hf. apply half_ok_map. intros m _. apply mol_ok_map.
  intros x _. apply fragment_ok_relabel.
  intros ds Hds. apply Hf. now apply (findall_labels_is_label x).
Qed.

Lemma canonical_half_relabel (f : str -> str) (h : list (list str)) :
  (forall l, is_label l -> is_label (f l)) ->
  canonical_half (relabel_half f h) = relabel_half f (canonical_half h).
Proof.
  intros Hf. apply canonical_half_map. intros m x _ _.
  apply strip_labels_relabel.
  intros ds Hds. apply Hf. now apply (findall_labels_is_label x).
Qed.

(** What a second run of [canonicalize_transform] sees is already in
    canonical order and densely numbered. *)
Lemma canonicalize_transform_twice (hs : list (list (list str))) :
  hs <> [] -> Forall half_ok hs ->
  canonicalize_transform
    (renumbered (render_transform (map canonical_half hs)))
  = Ok (renumbered (render_transform (map canonical_half hs))).
Proof.
  intros Hne Hhs.
  set (x := render_transform (map canonical_half hs)).
  set (f := new_label x).
  assert (Hf : forall l, is_label l -> is_label (f l))
    by (intros l _; apply new_label_is_label).
  assert (Hx : renumbered x
               = render_transform
                   (map (relabel_half f) (map canonical_half hs))).
  { unfold renumbered. apply relabel_render_transform. }
  rewrite Hx at 1. rewrite canonicalize_transform_render.
  - rewrite !map_map.
    rewrite (map_ext (fun h => canonical_half (relabel_half f (canonical_half h)))
               (fun h => relabel_half f (canonical_half h))).
    + rewrite <- (map_map canonical_half (relabel_half f)), <- Hx.
      f_equal. apply renumbered_idempotent.
    + intros h. rewrite (canonical_half_relabel f _ Hf).
      now rewrite canonical_half_idempotent.
  - destruct hs; [contradiction | discriminate].
  - rewrite map_map. apply Forall_map. eapply Forall_impl; [| exact Hhs].
    intros h Hh. apply half_ok_relabel; [exact Hf |].
    now apply half_ok_canonical.
Qed.

(** C4.  For a two-sided transform whose sides are well-formed halves (the
    molecules in parentheses, the fragments free of dots and of [>] and not
    beginning with a parenthesis), [canonicalize_transform] returns a text,
    and returns the same text when it is applied to that text again. *)
Theorem canonicalize_transform_idempotent (R P : list (list str)) :
  half_ok R -> half_ok P ->
  exists u,
    canonicalize_transform (render_transform [R; P]) = Ok u
    /\ canonicalize_transform u = Ok u.
Proof.
  intros HR HP.
  assert (Hhs : Forall half_ok [R; P]).
  { constructor; [exact HR | constructor; [exact HP | constructor]]. }
  exists (renumbered (render_transform (map canonical_half [R; P]))).
  split.
  - apply canonicalize_transform_render; [discriminate | exact Hhs].
  - apply canonicalize_transform_twice; [discriminate | exact Hhs].
Qed.

(** C5.  [canonicalize_transform] canonicalizes the halves, joins them and
    renumbers the labels of the joined text; the renumbering never fails,
    leaves everything but the labels as it is, gives every occurrence of a
    label the number of the label, and numbers the labels 1, 2, ..., K in
    the order of their first appearance from the left. *)
Theorem labels_are_renumbered_densely (transform : str) :
  canonicalize_transform transform
  = (halves <- mapM canonicalize_template (split (txt ">>") transform) ;;
     Ok (renumbered (join (txt ">>") halves)))
  /\ forall joined : str,
       let labels := findall_labels joined in
       reassign_atom_mapping joined = Ok (renumbered joined)
       /\ scan (renumbered joined)
          = map (relabel_token (fun l => str_of_nat (dense_number labels l)))
              (scan joined)
       /\ findall_labels (renumbered joined)
          = map (fun l => str_of_nat (dense_number labels l)) labels
       /\ map (dense_number labels) (first_appearances labels)
          = seq 1 (length (first_appearances labels))
       /\ (forall l, In l labels -> In l (first_appearances labels)).
Proof.
  split; [apply canonicalize_transform_unfold |].
  intros joined labels. repeat split.
  - apply reassign_atom_mapping_renumbered.
  - apply scan_renumbered.
  - apply (findall_labels_relabel (new_label joined)).
    intros ds _. apply new_label_is_label.
  - apply dense_number_first_appearances.
  - intros l Hl. apply first_appearances_from_In. now right.
Qed.

(** ** Reordered and relabeled halves *)

Lemma half_ok_reordered (h h' : list (list str)) :
  reordered h h' -> half_ok h -> half_ok h'.
Proof.
  intros [h1 [H12 Hp]] Hh. apply (half_ok_Permutation h1); [exact Hp |].
  destruct Hh as [Hne Hh]. split.
  - intros ->. inversion H12; subst. contradiction.
  - clear Hne Hp. induction H12 as [|m m1 h h1 Hm H12 IH]; [constructor |].
    inversion Hh; subst. constructor; [| now apply IH].
    now apply (mol_ok_Permutation m).
Qed.

Lemma canonical_half_reordered (h h' : list (list str)) :
  no_ties h -> reordered h h' -> canonical_half h' = canonical_half h.
Proof.
  intros [Hfrags Hmols] [h1 [H12 Hp]].
  assert (H1 : map canonical_mol h1 = map canonical_mol h).
  { clear Hmols Hp. induction H12 as [|m m1 h h1 Hm H12 IH]; [reflexivity |].
    inversion Hfrags; subst. cbn [map]. f_equal; [| now apply IH].
    symmetry. now apply sorted_by_permutation. }
  unfold canonical_half. rewrite <- H1.
  apply sorted_by_permutation.
  - apply Permutation_map. now symmetry.
  - apply (Permutation_NoDup (l := map bare_mol (map canonical_mol h1))).
    + apply Permutation_map, Permutation_map. exact Hp.
    + rewrite H1. exact Hmols.
Qed.

(** ** Texts with the same renumbering *)

Section SameNumbers.

Variables r r' : str -> str.
Variable labels' : list str.
Hypothesis r'_inj :
  forall a b, In a labels' -> In b labels' -> r' a = r' b -> a = b.

(** The label of [labels'] that [r'] sends where [r] sends [l]. *)
Let partner (l : str) : str :=
  match find (fun l' => str_eqb (r' l') (r l)) labels' with
  | Some l' => l'
  | None => l
  end.

Lemma partner_spec (l l' : str) :
  In l' labels' -> r' l' = r l -> partner l = l'.
Proof.
  intros Hin He. unfold partner.
  destruct (find _ labels') as [l''|] eqn:Hf.
  - apply find_some in Hf. destruct Hf as [Hin'' He''].
    apply str_eqb_eq in He''. apply r'_inj; congruence.
  - apply (find_none _ _ Hf) in Hin. rewrite He, str_eqb_refl in Hin.
    discriminate.
Qed.

Lemma relabel_tokens_match (ts ts' : list token) :
  incl (labels_of ts') labels' ->
  map (relabel_token r') ts' = map (relabel_token r) ts ->
  map (relabel_token partner) ts = ts'
  /\ forall l, In l (labels_of ts) -> In (partner l) labels' /\ r' (partner l) = r l.
Proof.
  revert ts'. induction ts as [|t ts IH]; intros ts' Hin H.
  - destruct ts'; [| discriminate]. split; [reflexivity | intros l []].
  - destruct ts' as [|t' ts']; [discriminate |].
    cbn [map] in H. injection H as Ht H.
    destruct t as [c | l]; destruct t' as [c' | l']; try discriminate.
    + cbn [labels_of] in Hin |- *. destruct (IH ts' Hin H) as [Hm Hl].
      split; [| exact Hl]. cbn [map relabel_token].
      cbn [relabel_token] in Ht. now rewrite Hm, Ht.
    + cbn [relabel_token] in Ht. injection Ht as Ht.
      assert (Hl' : In l' labels') by (apply Hin; now left).
      assert (Hin' : incl (labels_of ts') labels')
        by (intros y Hy; apply Hin; now right).
      destruct (IH ts' Hin' H) as [Hm Hl].
      pose proof (partner_spec l l' Hl' Ht) as Hp.
      split.
      * cbn [map relabel_token]. now rewrite Hm, Hp.
      * intros y [<- | Hy]; [| now apply Hl].
        rewrite Hp. now split.
Qed.

End SameNumbers.

(** Two texts that the renumbering makes equal differ only by a renaming
    of their labels. *)
Lemma renumbered_eq_renaming (x x' : str) :
  renumbered x' = renumbered x -> same_up_to_renaming x x'.
Proof.
  intros H. apply (f_equal scan) in H. rewrite !scan_renumbered in H.
  assert (Hinj' : forall a b, In a (findall_labels x') ->
            In b (findall_labels x') -> new_label x' a = new_label x' b ->
            a = b).
  { intros a b Ha Hb He. apply str_of_nat_inj in He.
    now apply (dense_number_inj (findall_labels x')). }
  destruct (relabel_tokens_match (new_label x) (new_label x')
              (findall_labels x') Hinj' (scan x) (scan x')
              (incl_refl _) H) as [Hm Hl].
  set (g := fun l =>
              match find (fun l' => str_eqb (new_label x' l') (new_label x l))
                      (findall_labels x') with
              | Some l' => l'
              | None => l
              end) in *.
  assert (Hlab : forall l, In l (findall_labels x) -> is_label (g l)).
  { intros l Hin. apply (findall_labels_is_label x'). now apply Hl. }
  exists g. split; [split; [exact Hlab |] |].
  - intros a b Ha Hb He.
    assert (Hab : new_label x a = new_label x b).
    { destruct (Hl a Ha) as [_ Ea]. destruct (Hl b Hb) as [_ Eb].
      etransitivity; [symmetry; exact Ea |].
      etransitivity; [| exact Eb]. f_equal. exact He. }
    apply str_of_nat_inj in Hab.
    now apply (dense_number_inj (findall_labels x)).
  - rewrite <- (unscan_scan x'), <- (unscan_scan (relabel g x)).
    f_equal. rewrite <- Hm. symmetry. now apply scan_relabel.
Qed.

Lemma renumbered_same_up_to_renaming (x x' : str) :
  renumbered x' = renumbered x <-> same_up_to_renaming x x'.
Proof.
  split; [apply renumbered_eq_renaming |].
  intros [g [[Hlab Hinj] ->]]. now apply renumbered_relabel.
Qed.

(** C3, as stated, fails: two molecules with the same label-stripped text
    keep the order they come in, and the labels are then numbered in that
    order. *)
Lemma canonical_text_depends_on_order_of_ties :
  ~ (forall (h h' : list (list str)) (f : str -> str),
        half_ok h -> Permutation h h' -> relabeling f ->
        canonicalize_transform (render_half (relabel_half f h'))
        = canonicalize_transform (render_half h)).
Proof.
  intros claim.
  specialize (claim tied_half tied_half_swapped (fun l => l)).
  assert (Hok : half_ok tied_half).
  { split; [discriminate |].
    repeat constructor; try discriminate; reflexivity. }
  assert (Hre : Permutation tied_half tied_half_swapped).
  { apply perm_swap. }
  assert (Hid : relabeling (fun l => l)).
  { split; auto. }
  specialize (claim Hok Hre Hid). vm_compute in claim. discriminate.
Qed.

(** C3, amended.  For a well-formed half, a copy of it with the molecules
    and the fragments in another order, and a relabeling: the canonical
    text of the relabeled copy is the canonical text of the original if
    and only if the two-level sort leaves the copy and the original with
    texts that differ only by a renaming of the labels.  That is so
    whenever no molecule has two fragments with the same label-stripped
    text and no two molecules have the same label-stripped text once the
    fragments of each are sorted. *)
Theorem canonical_text_of_reordered_relabeled_copy
    (h h' : list (list str)) (f : str -> str) :
  half_ok h -> reordered h h' -> relabeling f ->
  ((exists out,
      canonicalize_transform (render_half h) = Ok out
      /\ canonicalize_transform (render_half (relabel_half f h')) = Ok out)
   <-> same_up_to_renaming (render_half (canonical_half h))
         (render_half (canonical_half h')))
  /\ (no_ties h ->
      exists out,
        canonicalize_transform (render_half h) = Ok out
        /\ canonicalize_transform (render_half (relabel_half f h')) = Ok out).
Proof.
  intros Hh Hre [Hlab Hinj].
  assert (Hone : forall k, half_ok k ->
            canonicalize_transform (render_half k)
            = Ok (renumbered (render_half (canonical_half k)))).
  { intros k Hk.
    apply (canonicalize_transform_render [k]); [discriminate |].
    constructor; [exact Hk | constructor]. }
  assert (Hcopy : canonicalize_transform (render_half (relabel_half f h'))
                  = Ok (renumbered (render_half (canonical_half h')))).
  { rewrite Hone
      by (apply half_ok_relabel; [exact Hlab | now apply (half_ok_reordered h)]).
    rewrite (canonical_half_relabel f h' Hlab).
    rewrite <- relabel_render_half. f_equal.
    apply renumbered_relabel.
    - intros l Hl. apply Hlab. now apply (findall_labels_is_label _ l Hl).
    - intros a b Ha Hb.
      apply Hinj; eapply findall_labels_is_label; eassumption. }
  rewrite (Hone h Hh), Hcopy.
  assert (Hiff : (exists out,
                    Ok (renumbered (render_half (canonical_half h))) = Ok out
                    /\ Ok (renumbered (render_half (canonical_half h')))
                       = Ok out)
                 <-> same_up_to_renaming (render_half (canonical_half h))
                       (render_half (canonical_half h'))).
  { rewrite <- renumbered_same_up_to_renaming. split.
    - intros [out [H1 H2]]. congruence.
    - intros H. eexists. split; [reflexivity | now rewrite H]. }
  split; [exact Hiff |].
  intros Hties. apply Hiff.
  rewrite (canonical_half_reordered h h' Hties Hre).
  exists (fun l => l). split.
  - split; [| auto]. intros l Hl. now apply (findall_labels_is_label _ l Hl).
  - unfold relabel. symmetry.
    rewrite <- (unscan_scan (render_half (canonical_half h))) at 2.
    unfold re_sub, unscan. apply flat_map_ext. now intros [c | ds].
Qed.

(** *** The theorems at concrete templates *)

Lemma canonicalize_transform_idempotent_witness :
  half_ok sample_half /\ half_ok sample_product
  /\ exists u,
       canonicalize_transform (render_transform [sample_half; sample_product])
       = Ok u
       /\ canonicalize_transform u = Ok u.
Proof.
  assert (HR : half_ok sample_half).
  { split; [discriminate |].
    repeat constructor; try discriminate; reflexivity. }
  assert (HP : half_ok sample_product).
  { split; [discriminate |].
    repeat constructor; try discriminate; reflexivity. }
  split; [exact HR |]. split; [exact HP |].
  apply (canonicalize_transform_idempotent sample_half sample_product HR HP).
Defined.

Lemma canonical_text_of_reordered_relabeled_copy_witness :
  ((exists out,
      canonicalize_transform (render_half sample_half) = Ok out
      /\ canonicalize_transform
           (render_half (relabel_half prefix_nine sample_half_reordered))
         = Ok out)
   <-> same_up_to_renaming (render_half (canonical_half sample_half))
         (render_half (canonical_half sample_half_reordered)))
  /\ exists out,
       canonicalize_transform (render_half sample_half) = Ok out
       /\ canonicalize_transform
            (render_half (relabel_half prefix_nine sample_half_reordered))
          = Ok out.
Proof.
  destruct (canonical_text_of_reordered_relabeled_copy
              sample_half sample_half_reordered prefix_nine) as [Hiff Hties].
  - split; [discriminate |].
    repeat constructor; try discriminate; reflexivity.
  - exists [[txt "[C:7]"; txt "[N:5]"]; [txt "[B:3]-[C:5]"]]. split.
    + constructor; [apply perm_swap |].
      constructor; [apply Permutation_refl | constructor].
    + apply perm_swap.
  - split.
    + intros l [Hne Hd]. split; [discriminate |].
      unfold prefix_nine. cbn [forallb]. now rewrite Hd.
    + intros l l' _ _ H. now inversion H.
  - split; [exact Hiff |]. apply Hties. split.
    + repeat constructor; vm_compute; intuition discriminate.
    + vm_compute. repeat constructor; simpl; intuition discriminate.
Defined.

Example canonical_sample :
  canonicalize_transform (render_transform [sample_half; sample_product])
  = Ok (txt "([B:1]-[C:2]).([C:3].[N:2])>>([C:3]-[N:2]-[B:1])")
  /\ canonicalize_transform
       (render_half (relabel_half prefix_nine sample_half_reordered))
     = Ok (txt "([B:1]-[C:2]).([C:3].[N:2])").
Proof. split; vm_compute; reflexivity. Qed.

(** The hypotheses of C4 are needed: sorting the fragments [(y] and [#)]
    writes a new boundary between molecules into the text, and a second
    run reads three molecules where the first read two. *)
Example ill_formed_fragments_move_on_second_run :
  canonicalize_transform ill_formed_transform = Ok (txt "(#).(y).($)>>(a)")
  /\ canonicalize_transform (txt "(#).(y).($)>>(a)")
     = Ok (txt "(#).($).(y)>>(a)").
Proof. split; vm_compute; reflexivity. Qed.

(** A tie is harmless where the tied molecules differ by a renaming, and
    harmful where they do not, also when the tie only shows once the
    fragments are sorted. *)
Example canonical_tied_alike :
  canonicalize_transform (render_half tied_alike)
  = Ok (txt "([C:1]-[O:2]).([C:3]-[O:4])")
  /\ canonicalize_transform (render_half tied_alike_swapped)
     = Ok (txt "([C:1]-[O:2]).([C:3]-[O:4])").
Proof. split; vm_compute; reflexivity. Qed.

Example canonical_tied_once_sorted :
  canonicalize_transform (render_half tied_once_sorted)
  = Ok (txt "([C:1].[N]).([C].[N:2])")
  /\ canonicalize_transform (render_half tied_once_sorted_swapped)
     = Ok (txt "([C].[N:1]).([C:2].[N])").
Proof. split; vm_compute; reflexivity. Qed.

Example canonical_tied :
  canonicalize_transform (render_half tied_half)
  = Ok (txt "([C:1]-[O]).([C]-[O:2])")
  /\ canonicalize_transform (render_half tied_half_swapped)
     = Ok (txt "([C]-[O:1]).([C:2]-[O])").
Proof. split; vm_compute; reflexivity. Qed.

(** ** The scan driver *)

Section Driver.

Context {TK : Toolkit}.
Variable SUPER_GENERAL_TEMPLATES : bool.

Lemma iteration_unpack_raises st line pos e :
  unpack line = Raise e ->
  iteration SUPER_GENERAL_TEMPLATES st line pos = Raise e.
Proof.
  intros Hu. unfold iteration. rewrite Hu. reflexivity.
Qed.

Lemma iteration_extract_raises st line pos r e :
  unpack line = Ok r ->
  extract_template SUPER_GENERAL_TEMPLATES r (next_record st) = Raise e ->
  iteration SUPER_GENERAL_TEMPLATES st line pos = Raise e.
Proof.
  intros Hu He. unfold iteration. rewrite Hu. simpl. rewrite He. reflexivity.
Qed.

Lemma scan_lines_raises st line pos rest e :
  iteration SUPER_GENERAL_TEMPLATES st line pos = Raise e ->
  scan_lines SUPER_GENERAL_TEMPLATES ((line, pos) :: rest) st
  = Uncaught e (next_record st).
Proof.
  intros Hi. simpl. rewrite Hi. reflexivity.
Qed.

Lemma final_state_main (reaction_fid : list (str * Z)) (d : table) :
  final_state (main SUPER_GENERAL_TEMPLATES reaction_fid d)
  = final_state (scan_lines SUPER_GENERAL_TEMPLATES reaction_fid
                   (initial_state d)).
Proof.
  unfold main.
  destruct (scan_lines _ reaction_fid (initial_state d)) as [st | e st];
    [| reflexivity].
  destruct (summary st); reflexivity.
Qed.

Lemma main_loop_raises (reaction_fid : list (str * Z)) (d : table) (e : exn)
    (st : scan_state) :
  scan_lines SUPER_GENERAL_TEMPLATES reaction_fid (initial_state d)
  = Uncaught e st ->
  main SUPER_GENERAL_TEMPLATES reaction_fid d = Uncaught e st.
Proof. intros H. unfold main. now rewrite H. Qed.

End Driver.

(** C1 (the code departs from the claim).  A per-record error does not stay
    local: a blank line makes [line.split()[0]] raise [IndexError], the
    handler raises it again, and [main] ends there with the remaining
    records unread, whatever the toolkit and whatever follows the line. *)
Theorem blank_line_ends_scan (TK : Toolkit) (sg : bool) (pos : Z)
    (rest : list (str * Z)) (d : table) :
  main sg ((blank_line, pos) :: rest) d
  = Uncaught IndexError (next_record (initial_state d)).
Proof.
  apply main_loop_raises, scan_lines_raises, iteration_unpack_raises.
  reflexivity.
Qed.

(** C2 (the code departs from the claim).  For hydroxide and chloromethane
    giving methanol, the changed tags are 1, 2 and 3, and the atom returned
    for the leaving chlorine, tag 3, is the carbon that bears tag 2: the
    atom is read from the list of all the reactant atoms at an index counted
    within the molecule. *)
Theorem leaving_group_atom_is_misindexed :
  get_changed_atoms [hydroxide; chloromethane] [methanol]
  = Ok ([O_hydroxide; C_chloromethane; C_chloromethane],
        [txt "1"; txt "2"; txt "3"], 0)
  /\ smarts_tag (GetSmarts C_chloromethane) = Ok (txt "2")
  /\ smarts_tag (GetSmarts Cl_chloromethane) = Ok (txt "3").
Proof.
  repeat split; vm_compute; reflexivity.
Qed.

(** ** Wildcard symbols *)

(** C6, as stated, fails: in super-general mode the terminal test is not
    made, and the unmapped terminal oxygen [O] becomes [[#8]]. *)
Lemma terminal_passthrough_fails_when_super_general :
  ~ (forall (sg : bool) (a : atom),
        GetDegree a = 1 ->
        sg = false \/ has_char ":" (GetSmarts a) = false ->
        convert_atom_to_wildcard sg a = Ok (GetSmarts a)).
Proof.
  intros claim.
  specialize (claim true O_unmapped eq_refl (or_intror eq_refl)).
  vm_compute in claim. discriminate.
Qed.

(** C6, amended.  In default mode (the super-general flag off) an atom of
    degree 1 keeps its literal symbol. *)
Theorem terminal_passthrough_default_mode (a : atom) :
  GetDegree a = 1 ->
  convert_atom_to_wildcard false a = Ok (GetSmarts a).
Proof.
  intros Hd. unfold convert_atom_to_wildcard. simpl. rewrite Hd. reflexivity.
Qed.

Lemma terminal_passthrough_default_mode_witness :
  GetDegree Cl_chloromethane = 1
  /\ convert_atom_to_wildcard false Cl_chloromethane
     = Ok (GetSmarts Cl_chloromethane).
Proof.
  split; [reflexivity |].
  apply (terminal_passthrough_default_mode Cl_chloromethane). reflexivity.
Defined.

(** ** Records with partly mapped products *)

Lemma filter_length_le (A : Type) (f : A -> bool) (l : list A) :
  length (filter f l) <= length l.
Proof.
  induction l as [|x l IH]; simpl; [lia |].
  destruct (f x); simpl; lia.
Qed.

Lemma filter_length_lt (A : Type) (f : A -> bool) (l : list A) (a : A) :
  In a l -> f a = false -> length (filter f l) < length l.
Proof.
  induction l as [|x l IH]; simpl; intros Hin Hf; [contradiction |].
  destruct Hin as [-> | Hin].
  - rewrite Hf. pose proof (filter_length_le A f l). lia.
  - specialize (IH Hin Hf). destruct (f x); simpl; lia.
Qed.

Section Records.

Context {TK : Toolkit}.

Lemma mapM_sanitize_Some (l l' : list (option mol)) :
  mapM sanitize l = Ok l' -> Forall (fun m => exists p, m = Some p) l'.
Proof.
  revert l'. induction l as [|m l IH]; simpl; intros l' H.
  - inversion H. constructor.
  - bind_inv H. bind_inv H. inversion H; subst.
    constructor; [| now apply IH].
    destruct m as [x|]; simpl in Ha; [| discriminate].
    bind_inv Ha. inversion Ha; eauto.
Qed.

Lemma unpack_products_Some line reaction_smiles rs ags ps :
  unpack line = Ok (reaction_smiles, rs, ags, ps) ->
  Forall (fun m => exists p, m = Some p) ps.
Proof.
  unfold unpack. intros H. bind_inv H.
  destruct (map _ _) as [|x1 [|x2 [|x3 [|x4 l]]]]; try discriminate.
  bind_inv H. bind_inv H. bind_inv H. inversion H; subst.
  eapply mapM_sanitize_Some; eauto.
Qed.

Lemma mapM_partly_mapped (ps : list (option mol)) :
  Forall (fun m => exists p, m = Some p) ps ->
  exists flags, mapM partly_mapped ps = Ok flags
    /\ forall p a, In (Some p) ps -> In a (GetAtoms p) ->
         molAtomMapNumber a = None -> existsb (fun b => b) flags = true.
Proof.
  induction 1 as [|m ps [p ->] _ [flags [Hf Hex]]]; simpl.
  - exists []. split; [reflexivity | intros ? ? []].
  - rewrite Hf. simpl. eexists. split; [reflexivity |].
    intros p' a [Heq | Hin] Ha Hmap; simpl.
    + inversion Heq; subst p'. apply orb_true_iff. left.
      apply Nat.ltb_lt. apply filter_length_lt with (a := a); [assumption |].
      unfold HasProp_molAtomMapNumber. now rewrite Hmap.
    + apply orb_true_iff. right. eauto.
Qed.

End Records.

(** C7.  A record that unpacks and whose products hold an atom without a
    map number is skipped at the mapping check: the iteration ends by
    counting it as partly mapped, the table is as before, no template is
    counted and nothing is written. *)
Theorem partly_mapped_record_is_skipped (TK : Toolkit) (sg : bool)
    (st : scan_state) (line : str) (pos : Z) (reaction_smiles : str)
    (rs ags ps : list (option mol)) (p : mol) (a : atom) :
  unpack line = Ok (reaction_smiles, rs, ags, ps) ->
  In (Some p) ps -> In a (GetAtoms p) -> molAtomMapNumber a = None ->
  exists st',
    iteration sg st line pos = Ok st'
    /\ template_dict st' = template_dict st
    /\ total_partialmapped st' = total_partialmapped st + 1
    /\ total_attempted st' = total_attempted st
    /\ written st' = written st.
Proof.
  intros Hu Hp Ha Hmap.
  destruct (mapM_partly_mapped ps (unpack_products_Some _ _ _ _ _ Hu)) as [flags [Hf Hex]].
  exists (count_partialmapped (next_record st)).
  split; [| repeat split].
  unfold iteration. rewrite Hu. simpl. rewrite Hf. simpl.
  rewrite (Hex p a Hp Ha Hmap). reflexivity.
Qed.

Lemma partly_mapped_record_is_skipped_witness :
  exists st',
    iteration (H := standin_toolkit) true (initial_state [])
      partly_mapped_line 80 = Ok st'
    /\ template_dict st' = template_dict (initial_state [])
    /\ total_partialmapped st' = total_partialmapped (initial_state []) + 1
    /\ total_attempted st' = total_attempted (initial_state [])
    /\ written st' = written (initial_state []).
Proof.
  apply (@partly_mapped_record_is_skipped standin_toolkit true
           (initial_state []) partly_mapped_line 80
           (txt "[OH-:1].[CH3:2][Cl:3]>>O[CH3:2]")
           [Some hydroxide; Some chloromethane] []
           [Some methanol_unmapped_O] methanol_unmapped_O O_unmapped).
  - vm_compute. reflexivity.
  - simpl. left. reflexivity.
  - simpl. left. reflexivity.
  - reflexivity.
Defined.

(** ** Checkpoints *)

Section Checkpoints.

Context {TK : Toolkit}.
Variable sg : bool.

Lemma extract_template_written r st f :
  extract_template sg r st = Ok f ->
  match f with
  | Continue st' => written st' = written st
  | Through st' => written st' = written st
  end.
Proof.
  unfold extract_template.
  destruct r as [[[reaction_smiles rs] ags] ps]. intros H.
  bind_inv H. destruct (existsb _ a); [inversion H; reflexivity |].
  destruct (existsb is_None _); [inversion H; reflexivity |].
  bind_inv H. destruct a0 as [[changed_atoms changed_atom_tags] err].
  destruct (negb _); [inversion H; reflexivity |].
  destruct changed_atom_tags; [inversion H; reflexivity |].
  bind_inv H. bind_inv H. bind_inv H.
  destruct (negb _); [inversion H; reflexivity |].
  bind_inv H. bind_inv H. inversion H. reflexivity.
Qed.

Lemma iteration_written st line pos st' :
  iteration sg st line pos = Ok st' ->
  written st' = written st
  \/ written st' = written st ++ checkpoint_events (template_dict st', pos).
Proof.
  unfold iteration. intros H. bind_inv H. bind_inv H.
  destruct (unpack line) as [r|e]; simpl in Ha; [| discriminate].
  inversion Ha; subst a. clear Ha.
  destruct (extract_template sg r (next_record st)) as [f|e] eqn:He;
    simpl in Ha0; [| discriminate].
  inversion Ha0; subst a0. clear Ha0.
  pose proof (extract_template_written _ _ _ He) as Hw.
  destruct f as [st1 | st1].
  - inversion H; subst. left. exact Hw.
  - destruct (_ =? _)%Z; inversion H; subst.
    + right. simpl. rewrite Hw. reflexivity.
    + left. exact Hw.
Qed.

Lemma scan_lines_checkpoints (reaction_fid : list (str * Z)) (st0 : scan_state) :
  exists cps : list (table * Z),
    written (final_state (scan_lines sg reaction_fid st0))
    = written st0 ++ flat_map checkpoint_events cps
    /\ Forall (taken_after sg reaction_fid st0) cps.
Proof.
  revert st0. induction reaction_fid as [|[line pos] rest IH]; intros st0.
  - exists []. simpl. rewrite app_nil_r. split; [reflexivity | constructor].
  - simpl. destruct (iteration sg st0 line pos) as [st'|e] eqn:Hi.
    + destruct (IH st') as [cps [Hw Hcps]].
      assert (Hlift : Forall (taken_after sg ((line, pos) :: rest) st0) cps).
      { eapply Forall_impl; [| exact Hcps].
        intros cp (pre & l & post & st & Hfid & Hrun & Htab).
        exists ((line, pos) :: pre), l, post, st. repeat split.
        - simpl. now rewrite Hfid.
        - simpl. rewrite Hi. exact Hrun.
        - exact Htab. }
      destruct (iteration_written _ _ _ _ Hi) as [Hsame | Hlog].
      * exists cps. split; [| exact Hlift]. rewrite Hw, Hsame. reflexivity.
      * exists ((template_dict st', pos) :: cps). split.
        -- rewrite Hw, Hlog. simpl. rewrite <- app_assoc. reflexivity.
        -- constructor; [| exact Hlift].
           exists [], line, rest, st'. simpl. rewrite Hi. repeat split.
    + exists []. simpl. rewrite app_nil_r. split; [reflexivity | constructor].
Qed.

End Checkpoints.

(** Whatever [main] has written when it ends is a sequence of checkpoints,
    each one the table first and the cursor after it; the table of a
    checkpoint is the table reached once the line during which the cursor
    was read, and every line before it, were processed. *)
Lemma checkpoints_write_table_then_cursor (TK : Toolkit) (sg : bool)
    (reaction_fid : list (str * Z)) (d : table) :
  exists cps : list (table * Z),
    written (final_state (main sg reaction_fid d))
    = flat_map checkpoint_events cps
    /\ Forall (taken_after sg reaction_fid (initial_state d)) cps.
Proof.
  rewrite final_state_main.
  destruct (scan_lines_checkpoints sg reaction_fid (initial_state d))
    as [cps [Hw Hcps]].
  exists cps. split; [exact Hw | exact Hcps].
Qed.

(** C8 (the code departs from the claim).  The table is written before
    the cursor, but the cursor is what [tell()] returns inside
    [for line in reaction_fid]: the end of the read-ahead buffer, not the
    end of the record that was just counted.  On a file of two records
    the one checkpoint, taken after the first record, writes a table that
    counts one record and the cursor 82, the end of the file, although the
    first record ends at 41, from where the second can still be read.  A
    run restarted from that table and that cursor finds no line to read:
    the second record, which an uninterrupted scan counts, is never
    counted. *)
Theorem cursor_is_ahead_of_table :
  exists st,
    run (H := standin_toolkit) two_records None = Finished st
    /\ written st = [WriteTable [(sn2_template, 1)]; WriteCursor 82]
    /\ template_dict st = [(sn2_template, 2)]
    /\ iterate_file (open_at two_records 41) = [(sn2_line ++ ["010"], 82%Z)]
    /\ iterate_file (open_at two_records 82) = []
    /\ run (H := standin_toolkit) two_records
         (Some ([(sn2_template, 1)], 82))
       = Uncaught ZeroDivisionError (initial_state [(sn2_template, 1)]).
Proof.
  eexists. split; [vm_compute; reflexivity |].
  repeat split; vm_compute; reflexivity.
Qed.

(** ** The radius of the neighbourhood *)

(** C10.  Whenever an iteration records a template, the template is the
    retro form of the canonical form of [R>>P], where [R] is extracted from
    the reactants with radius 1 and [P] from the products with radius 0
    (and the labels the reactant side added): the two radii are constants
    of the driver, none of its arguments sets them. *)
Theorem fragments_use_fixed_radii (TK : Toolkit) (sg : bool)
    (reaction_smiles : str) (rs ags ps : list (option mol))
    (st st' : scan_state) :
  extract_template sg (reaction_smiles, rs, ags, ps) st = Ok (Through st') ->
  exists changed_atoms changed_atom_tags reactant_fragments product_fragments
         rxn_canonical retro_canonical,
    get_changed_atoms (somes rs) (somes ps)
    = Ok (changed_atoms, changed_atom_tags, 0)
    /\ get_fragments_for_changed_atoms sg (somes rs) changed_atom_tags 1
         reactants [] = Ok reactant_fragments
    /\ get_fragments_for_changed_atoms sg (somes ps) changed_atom_tags 0
         products (expand_changed_atom_tags changed_atom_tags reactant_fragments)
       = Ok product_fragments
    /\ canonicalize_transform (reactant_fragments ++ txt ">>" ++ product_fragments)
       = Ok rxn_canonical
    /\ convert_to_retro rxn_canonical = Ok retro_canonical
    /\ st' = record_template retro_canonical st.
Proof.
  unfold extract_template. intros H.
  bind_inv H. destruct (existsb _ a); [discriminate |].
  destruct (existsb is_None _); [discriminate |].
  bind_inv H. destruct a0 as [[changed_atoms changed_atom_tags] err].
  destruct (err =? 0)%nat eqn:Herr; simpl in H; [| discriminate].
  apply Nat.eqb_eq in Herr. subst err.
  destruct changed_atom_tags as [|tag tags]; [discriminate |].
  bind_inv H. bind_inv H. bind_inv H.
  destruct (negb _); [discriminate |].
  bind_inv H. bind_inv H. inversion H; subst.
  exists changed_atoms, (tag :: tags), a0, a1, a3, a4.
  repeat split; assumption.
Qed.

Lemma fragments_use_fixed_radii_witness :
  exists changed_atoms changed_atom_tags reactant_fragments product_fragments
         rxn_canonical retro_canonical,
    get_changed_atoms (somes [Some hydroxide; Some chloromethane])
      (somes [Some methanol])
    = Ok (changed_atoms, changed_atom_tags, 0)
    /\ get_fragments_for_changed_atoms (H := standin_toolkit) true
         (somes [Some hydroxide; Some chloromethane]) changed_atom_tags 1
         reactants [] = Ok reactant_fragments
    /\ get_fragments_for_changed_atoms (H := standin_toolkit) true
         (somes [Some methanol]) changed_atom_tags 0
         products (expand_changed_atom_tags changed_atom_tags reactant_fragments)
       = Ok product_fragments
    /\ canonicalize_transform (reactant_fragments ++ txt ">>" ++ product_fragments)
       = Ok rxn_canonical
    /\ convert_to_retro rxn_canonical = Ok retro_canonical
    /\ record_template
         (txt "[OH;+0:3]-[CH3;+0:1]>>[CH3;+0:1]-[Cl;H0;+0:2].[OH-:3]")
         (initial_state [])
       = record_template retro_canonical (initial_state []).
Proof.
  apply (@fragments_use_fixed_radii standin_toolkit true
           (txt "[OH-:1].[CH3:2][Cl:3]>>[OH:1][CH3:2]")
           [Some hydroxide; Some chloromethane] [] [Some methanol]
           (initial_state [])
           (record_template
              (txt "[OH;+0:3]-[CH3;+0:1]>>[CH3;+0:1]-[Cl;H0;+0:2].[OH-:3]")
              (initial_state []))).
  vm_compute. reflexivity.
Defined.

(* ================================================================== *)
(** * Further properties of the script *)
(* ================================================================== *)

(** ** Bond labels and the comparison of atoms *)

Lemma sorted_pair (a b : str) : sorted [a; b] = sorted [b; a].
Proof.
  unfold sorted, sorted_by. cbn [fold_right insert_by].
  destruct (str_leb a b) eqn:Hab; destruct (str_leb b a) eqn:Hba.
  - now rewrite (str_leb_antisym a b Hab Hba).
  - reflexivity.
  - reflexivity.
  - apply str_leb_false in Hab. congruence.
Qed.

(** X1.  The label of a bond does not depend on the end the bond is read
    from. *)
Theorem bond_to_label_reverse (b : bond) :
  bond_to_label (reverse_bond b) = bond_to_label b.
Proof.
  unfold bond_to_label, reverse_bond. cbn [GetBeginAtom GetEndAtom bond_GetSmarts].
  now rewrite sorted_pair.
Qed.

Lemma chr_eqb_sym (a b : ascii) : chr_eqb a b = chr_eqb b a.
Proof.
  destruct (chr_eqb a b) eqn:H.
  - apply chr_eqb_eq in H. subst. symmetry. apply chr_eqb_refl.
  - apply chr_eqb_neq in H. symmetry. apply chr_eqb_neq. congruence.
Qed.

Lemma str_eqb_sym (a b : str) : str_eqb a b = str_eqb b a.
Proof.
  destruct (str_eqb a b) eqn:H.
  - apply str_eqb_eq in H. subst. symmetry. apply str_eqb_refl.
  - apply str_eqb_neq in H. symmetry. apply str_eqb_neq. congruence.
Qed.

Lemma list_str_eqb_eq (a b : list str) : list_str_eqb a b = true <-> a = b.
Proof.
  unfold list_str_eqb. revert b.
  induction a as [|x a IH]; intros [|y b]; cbn [length combine forallb];
    try (split; [discriminate | discriminate]); [split; reflexivity |].
  cbn [Nat.eqb fst snd]. split.
  - intros H. apply andb_true_iff in H. destruct H as [Hl H].
    apply andb_true_iff in H. destruct H as [Hxy H].
    apply str_eqb_eq in Hxy. subst y. f_equal. apply IH.
    now rewrite Hl, H.
  - intros H. inversion H; subst. rewrite str_eqb_refl.
    specialize (proj2 (IH b) eq_refl) as H'.
    apply andb_true_iff in H'. destruct H' as [Hl H'].
    now rewrite Hl, H'.
Qed.

Lemma list_str_eqb_sym (a b : list str) : list_str_eqb a b = list_str_eqb b a.
Proof.
  destruct (list_str_eqb a b) eqn:H.
  - apply list_str_eqb_eq in H. subst. symmetry. now apply list_str_eqb_eq.
  - destruct (list_str_eqb b a) eqn:H'; [| reflexivity].
    apply list_str_eqb_eq in H'. subst.
    assert (Hr : list_str_eqb a a = true) by now apply list_str_eqb_eq.
    congruence.
Qed.

(** X2.  The comparison of two atoms does not depend on their order, and no
    atom is different from itself. *)
Theorem atoms_are_different_symmetric (atom1 atom2 : atom) (level : nat) :
  atoms_are_different atom1 atom2 level = atoms_are_different atom2 atom1 level
  /\ atoms_are_different atom1 atom1 level = false.
Proof.
  split.
  - unfold atoms_are_different.
    rewrite (str_eqb_sym (GetSmarts atom1)).
    rewrite (Nat.eqb_sym (GetAtomicNum atom1)).
    rewrite (Nat.eqb_sym (GetTotalNumHs atom1)).
    rewrite (Z.eqb_sym (GetFormalCharge atom1)).
    rewrite (Nat.eqb_sym (GetDegree atom1)).
    rewrite (Nat.eqb_sym (GetNumRadicalElectrons atom1)).
    rewrite (list_str_eqb_sym (sorted (map bond_to_label (GetBonds atom1)))).
    reflexivity.
  - unfold atoms_are_different.
    rewrite str_eqb_refl, !Nat.eqb_refl, Z.eqb_refl. cbn [negb].
    destruct (1 <=? level)%nat; [| reflexivity].
    apply negb_false_iff. now apply list_str_eqb_eq.
Qed.

(** ** Tagged atoms *)

Lemma split_aux_nonempty (sep : str) (k : nat) (x : str) :
  split_aux sep k x <> [].
Proof.
  revert k. induction x as [|c x IH]; intros k; cbn [split_aux];
    [discriminate |].
  destruct k; [| apply IH].
  destruct (prefixb sep (c :: x)); [discriminate |].
  destruct (split_aux sep 0 x); discriminate.
Qed.

Lemma split_colon_second (x : str) :
  has_char ":" x = true -> exists p q rest, split (txt ":") x = p :: q :: rest.
Proof.
  induction x as [|c x IH]; [discriminate |].
  unfold has_char. cbn [existsb]. intros H.
  unfold split. cbn [split_aux]. change (txt ":") with [":"].
  rewrite prefixb_cons. cbn [prefixb]. rewrite andb_true_r.
  destruct (chr_eqb ":" c) eqn:Hc.
  - cbn [length Nat.sub].
    destruct (split_aux [":"] 0 x) as [|q rest] eqn:Hs.
    + exfalso. now apply (split_aux_nonempty [":"] 0 x).
    + now exists [], q, rest.
  - cbn [orb] in H. destruct (IH H) as (p & q & rest & Hs).
    unfold split in Hs. change (txt ":") with [":"] in Hs. rewrite Hs.
    now exists (c :: p), q, rest.
Qed.

Lemma smarts_tag_Ok (smarts : str) :
  has_char ":" smarts = true -> exists tag, smarts_tag smarts = Ok tag.
Proof.
  intros H. destruct (split_colon_second smarts H) as (p & q & rest & Hs).
  unfold smarts_tag. rewrite Hs. cbn. eauto.
Qed.

Lemma tagged_atoms_Ok (l : list atom) :
  exists atom_tags,
    tagged_atoms l = Ok (filter has_colon l, atom_tags)
    /\ Forall2 (fun a tag => smarts_tag (GetSmarts a) = Ok tag)
         (filter has_colon l) atom_tags.
Proof.
  induction l as [|a l (tags & Ht & Hall)].
  - exists []. split; [reflexivity | constructor].
  - cbn [tagged_atoms filter].
    change (has_char ":" (GetSmarts a)) with (has_colon a).
    destruct (has_colon a) eqn:Hc.
    + destruct (smarts_tag_Ok _ Hc) as [tag Htag].
      exists (tag :: tags). rewrite Htag, Ht. cbn [bind].
      split; [reflexivity | now constructor].
    + exists tags. now split.
Qed.

(** X3.  [get_tagged_atoms_from_mol] never raises: it returns the atoms of
    the molecule whose SMARTS holds a colon, in their order, and as many
    tags, each the tag read from the SMARTS of the atom beside it. *)
Theorem get_tagged_atoms_from_mol_total (m : mol) :
  exists atom_tags,
    get_tagged_atoms_from_mol m = Ok (filter has_colon (GetAtoms m), atom_tags)
    /\ Forall2 (fun a tag => smarts_tag (GetSmarts a) = Ok tag)
         (filter has_colon (GetAtoms m)) atom_tags.
Proof. apply tagged_atoms_Ok. Qed.

(** ** The changed atoms *)

Lemma In_enumerate_from (A : Type) (l : list A) (s j : nat) (x : A) :
  In (j, x) (combine (seq s (length l)) l) ->
  s <= j /\ nth_error l (j - s) = Some x.
Proof.
  revert s. induction l as [|y l IH]; intros s H; [contradiction |].
  cbn [length seq combine] in H. destruct H as [H | H].
  - inversion H; subst. rewrite Nat.sub_diag. split; [lia | reflexivity].
  - destruct (IH (S s) H) as [Hle Hn]. split; [lia |].
    replace (j - s) with (S (j - S s)) by lia. exact Hn.
Qed.

Lemma In_enumerate (A : Type) (l : list A) (j : nat) (x : A) :
  In (j, x) (enumerate l) -> nth_error l j = Some x.
Proof.
  intros H. apply In_enumerate_from in H. destruct H as [_ H].
  now rewrite Nat.sub_0_r in H.
Qed.

Lemma index_Ok (A : Type) (l : list A) (j : nat) :
  j < length l -> exists a, index l j = Ok a /\ In a l.
Proof.
  intros H. unfold index. destruct (nth_error l j) as [a|] eqn:Hn.
  - exists a. split; [reflexivity |]. eapply nth_error_In, Hn.
  - apply nth_error_None in Hn. lia.
Qed.

Lemma changed_ok_append (reac_atoms : list atom) (reac_atom_tags : list str)
    (c : changed) (a : atom) (tag : str) :
  changed_ok reac_atoms reac_atom_tags c ->
  mem tag (snd c) = false -> In tag reac_atom_tags -> In a reac_atoms ->
  changed_ok reac_atoms reac_atom_tags (append_changed c a tag).
Proof.
  intros (Hlen & Hnd & Htags & Hatoms) Hm Htag Ha.
  apply mem_not_In in Hm. unfold changed_ok, append_changed. cbn [fst snd].
  repeat split.
  - rewrite !length_app. simpl. lia.
  - apply NoDup_app; [exact Hnd | repeat constructor; intros [] |].
    intros x Hx [<- | []]. contradiction.
  - intros x Hx. apply in_app_iff in Hx.
    destruct Hx as [Hx | [<- | []]]; [now apply Htags | exact Htag].
  - intros x Hx. apply in_app_iff in Hx.
    destruct Hx as [Hx | [<- | []]]; [now apply Hatoms | exact Ha].
Qed.

Section ChangedAtoms.

Variables prod_atoms reac_atoms : list atom.
Variables prod_atom_tags reac_atom_tags : list str.

Let ok := changed_ok reac_atoms reac_atom_tags.

Let in_range (js : list (nat * str)) : Prop :=
  forall j tag, In (j, tag) js ->
                j < length reac_atoms /\ In tag reac_atom_tags.

Lemma compare_with_reactants_ok (i : nat) (prod_tag : str)
    (js : list (nat * str)) (c : changed) :
  i < length prod_atoms -> in_range js -> ok c ->
  exists c',
    compare_with_reactants prod_atoms reac_atoms prod_atom_tags i prod_tag js c
    = Ok c' /\ ok c'.
Proof.
  intros Hi. revert c. induction js as [|[j reac_tag] js IH]; intros c Hjs Hc.
  - exists c. now split.
  - assert (Hjs' : in_range js).
    { intros j' t' H'. apply Hjs. now right. }
    destruct (Hjs j reac_tag (or_introl eq_refl)) as [Hj Htag].
    cbn [compare_with_reactants].
    destruct (negb (str_eqb reac_tag prod_tag)); [now apply IH |].
    destruct (mem reac_tag (snd c)) eqn:Hm; cbn [negb]; [now apply IH |].
    destruct (index_Ok _ prod_atoms i Hi) as (pa & -> & _).
    destruct (index_Ok _ reac_atoms j Hj) as (ra & -> & Hra).
    cbn [bind].
    destruct (atoms_are_different pa ra 1).
    + eexists. split; [reflexivity |]. now apply changed_ok_append.
    + destruct (1 <? count reac_tag prod_atom_tags)%nat.
      * eexists. split; [reflexivity |]. now apply changed_ok_append.
      * now apply IH.
Qed.

Lemma compare_products_ok (ps : list (nat * str)) (c : changed) :
  (forall i tag, In (i, tag) ps -> i < length prod_atoms) ->
  in_range (enumerate reac_atom_tags) -> ok c ->
  exists c',
    compare_products prod_atoms reac_atoms prod_atom_tags reac_atom_tags ps c
    = Ok c' /\ ok c'.
Proof.
  intros Hps Hjs. revert c.
  induction ps as [|[i prod_tag] ps IH]; intros c Hc.
  - exists c. now split.
  - cbn [compare_products].
    destruct (compare_with_reactants_ok i prod_tag (enumerate reac_atom_tags) c)
      as (c1 & -> & Hc1); [eapply Hps; now left | exact Hjs | exact Hc |].
    cbn [bind]. apply IH; [| exact Hc1].
    intros i' t' H'. apply (Hps i' t'). now right.
Qed.

Lemma add_leaving_tags_ok (js : list (nat * str)) (c : changed) :
  in_range js -> ok c ->
  exists c',
    add_leaving_tags reac_atoms prod_atom_tags js c = Ok c' /\ ok c'.
Proof.
  revert c. induction js as [|[j reac_tag] js IH]; intros c Hjs Hc.
  - exists c. now split.
  - assert (Hjs' : in_range js).
    { intros j' t' H'. apply Hjs. now right. }
    destruct (Hjs j reac_tag (or_introl eq_refl)) as [Hj Htag].
    cbn [add_leaving_tags].
    destruct (mem reac_tag (snd c)) eqn:Hm; cbn [negb]; [now apply IH |].
    destruct (negb (mem reac_tag prod_atom_tags)); [| now apply IH].
    destruct (index_Ok _ reac_atoms j Hj) as (ra & -> & Hra). cbn [bind].
    apply IH; [exact Hjs' |]. now apply changed_ok_append.
Qed.

Lemma leaving_groups_ok (reactants : list mol) (c : changed) :
  (forall m atom_tags,
      In m reactants ->
      get_tagged_atoms_from_mol m
      = Ok (filter has_colon (GetAtoms m), atom_tags) ->
      in_range (enumerate atom_tags)) ->
  ok c ->
  exists c',
    leaving_groups reac_atoms prod_atom_tags reactants c = Ok c' /\ ok c'.
Proof.
  revert c. induction reactants as [|m reactants IH]; intros c Hms Hc.
  - exists c. now split.
  - cbn [leaving_groups].
    destruct (tagged_atoms_Ok (GetAtoms m)) as (tags & Ht & _).
    change (tagged_atoms (GetAtoms m)) with (get_tagged_atoms_from_mol m) in Ht.
    rewrite Ht. cbn [bind].
    assert (Hr : in_range (enumerate tags)).
    { apply (Hms m tags); [now left | exact Ht]. }
    destruct (existsb _ tags).
    + destruct (add_leaving_tags_ok (enumerate tags) c Hr Hc)
        as (c1 & -> & Hc1).
      cbn [bind]. apply IH; [| exact Hc1].
      intros m' t' Hm'. apply Hms. now right.
    + cbn [bind]. apply IH; [| exact Hc].
      intros m' t' Hm'. apply Hms. now right.
Qed.

End ChangedAtoms.

Lemma get_tagged_atoms_from_mols_total (mols : list mol) :
  exists atoms atom_tags,
    get_tagged_atoms_from_mols mols = Ok (atoms, atom_tags)
    /\ length atoms = length atom_tags
    /\ forall m tags,
         In m mols ->
         get_tagged_atoms_from_mol m = Ok (filter has_colon (GetAtoms m), tags) ->
         incl tags atom_tags /\ length tags <= length atoms.
Proof.
  induction mols as [|m mols (atoms & tags & Hs & Hlen & Hin)].
  - exists [], []. split; [reflexivity |]. split; [reflexivity |].
    intros m' tags' [].
  - cbn [get_tagged_atoms_from_mols].
    destruct (tagged_atoms_Ok (GetAtoms m)) as (tm & Ht & Hall).
    change (tagged_atoms (GetAtoms m)) with (get_tagged_atoms_from_mol m) in Ht.
    rewrite Ht, Hs. cbn [bind].
    pose proof (Forall2_length Hall) as Hlm.
    eexists _, _. split; [reflexivity |]. split.
    + rewrite !length_app. lia.
    + intros m' tags' [<- | Hm'] Ht'.
      * rewrite Ht in Ht'. inversion Ht'; subst tags'. split.
        -- apply incl_appl, incl_refl.
        -- rewrite length_app. lia.
      * destruct (Hin m' tags' Hm' Ht') as [Hi Hl]. split.
        -- now apply incl_appr.
        -- rewrite length_app. lia.
Qed.

Lemma enumerate_in_range (A : Type) (atoms : list A) (all tags : list str) :
  incl tags all -> length tags <= length atoms ->
  forall j tag, In (j, tag) (enumerate tags) ->
                j < length atoms /\ In tag all.
Proof.
  intros Hincl Hlen j tag H. apply In_enumerate in H.
  split.
  - assert (j < length tags) by (apply nth_error_Some; congruence). lia.
  - apply Hincl. eapply nth_error_In, H.
Qed.

(** X4.  [get_changed_atoms] never raises and its error flag is always 0.
    The two lists it returns have the same length, no tag is listed twice,
    and every tag and every atom listed is a tag, respectively an atom, of
    the reactants. *)
Theorem get_changed_atoms_total (reactants products : list mol) :
  exists reac_atoms reac_atom_tags changed_atoms changed_atom_tags,
    get_tagged_atoms_from_mols reactants = Ok (reac_atoms, reac_atom_tags)
    /\ get_changed_atoms reactants products
       = Ok (changed_atoms, changed_atom_tags, 0)
    /\ length changed_atoms = length changed_atom_tags
    /\ NoDup changed_atom_tags
    /\ incl changed_atom_tags reac_atom_tags
    /\ incl changed_atoms reac_atoms.
Proof.
  destruct (get_tagged_atoms_from_mols_total products)
    as (pa & pt & Hp & Hpl & _).
  destruct (get_tagged_atoms_from_mols_total reactants)
    as (ra & rt & Hr & Hrl & Hrin).
  assert (H0 : changed_ok ra rt ([], [])).
  { repeat split; [constructor | intros x [] | intros x []]. }
  destruct (compare_products_ok pa ra pt rt (enumerate pt) ([], []))
    as (c1 & Hc1 & Hok1).
  { intros i tag H. apply In_enumerate in H.
    rewrite Hpl. apply nth_error_Some. congruence. }
  { apply (enumerate_in_range _ ra rt rt); [apply incl_refl | lia]. }
  { exact H0. }
  destruct (leaving_groups_ok ra pt rt reactants c1) as (c2 & Hc2 & Hok2).
  { intros m tags Hm Ht. destruct (Hrin m tags Hm Ht) as [Hi Hl].
    now apply (enumerate_in_range _ ra rt tags). }
  { exact Hok1. }
  exists ra, rt, (fst c2), (snd c2). split; [exact Hr |]. split.
  - unfold get_changed_atoms. rewrite Hp, Hr. cbn [bind]. rewrite Hc1.
    cbn [bind]. rewrite Hc2. reflexivity.
  - exact Hok2.
Qed.

(** ** One hop of expansion *)

Lemma extends_refl (A : Type) (l : list A) : extends l l.
Proof. exists []. now rewrite app_nil_r. Qed.

Lemma extends_trans (A : Type) (l1 l2 l3 : list A) :
  extends l1 l2 -> extends l2 l3 -> extends l1 l3.
Proof.
  intros [m1 ->] [m2 ->]. exists (m1 ++ m2). now rewrite app_assoc.
Qed.

Lemma extends_In (A : Type) (l l' : list A) (x : A) :
  extends l l' -> In x l -> In x l'.
Proof. intros [more ->] H. apply in_app_iff. now left. Qed.

Lemma mem_nat_In (n : nat) (l : list nat) : mem_nat n l = true <-> In n l.
Proof.
  unfold mem_nat. rewrite existsb_exists. split.
  - intros [x [Hx He]]. apply Nat.eqb_eq in He. now subst.
  - intros H. exists n. split; [exact H | apply Nat.eqb_refl].
Qed.

Lemma In_concat_filter (idx x : nat) (groups : list (list nat)) :
  In x (concat (filter (mem_nat idx) groups))
  <-> exists g, In g groups /\ In idx g /\ In x g.
Proof.
  rewrite in_concat. split.
  - intros [g [Hg Hx]]. apply filter_In in Hg. destruct Hg as [Hg Hm].
    exists g. repeat split; [exact Hg | now apply mem_nat_In | exact Hx].
  - intros [g (Hg & Hi & Hx)]. exists g. split; [| exact Hx].
    apply filter_In. split; [exact Hg | now apply mem_nat_In].
Qed.

Section Expansion.

Variable sg : bool.
Variable m : mol.
Variable groups : list (list nat).

(** What one candidate adds. *)
Lemma expand_atoms_to_use_atom_step (atoms_to_use : list nat) (atom_idx : nat)
    (sr : replacements) (atoms' : list nat) (sr' : replacements) :
  expand_atoms_to_use_atom sg m atoms_to_use atom_idx groups sr
  = Ok (atoms', sr') ->
  extends atoms_to_use atoms' /\ extends sr sr'
  /\ In atom_idx atoms'
  /\ forall x, In x atoms' ->
       In x atoms_to_use \/ x = atom_idx
       \/ exists g, In g groups /\ In atom_idx g /\ In x g.
Proof.
  unfold expand_atoms_to_use_atom.
  destruct (mem_nat atom_idx atoms_to_use) eqn:Hm.
  - intros H. inversion H; subst. apply mem_nat_In in Hm.
    repeat split; try apply extends_refl; auto.
  - destruct (filter (mem_nat atom_idx) groups) as [|g hits] eqn:Hf.
    + intros H. bind_inv H. bind_inv H. inversion H; subst.
      repeat split.
      * now exists [atom_idx].
      * now eexists.
      * apply in_app_iff. right. now left.
      * intros x Hx. apply in_app_iff in Hx.
        destruct Hx as [Hx | [<- | []]]; auto.
    + intros H. inversion H; subst.
      assert (Hg : In atom_idx g).
      { apply mem_nat_In.
        assert (Hin : In g (filter (mem_nat atom_idx) groups))
          by (rewrite Hf; now left).
        apply filter_In in Hin. apply Hin. }
      repeat split.
      * now eexists.
      * apply extends_refl.
      * apply in_app_iff. right. cbn [concat].
        change (g ++ concat hits) with (concat (g :: hits)).
        rewrite <- Hf. apply In_concat_filter.
        exists g. repeat split; [| exact Hg | exact Hg].
        assert (Hin : In g (filter (mem_nat atom_idx) groups))
          by (rewrite Hf; now left).
        apply filter_In in Hin. apply Hin.
      * intros x Hx. apply in_app_iff in Hx. destruct Hx as [Hx | Hx]; auto.
        right. right. cbn [concat] in Hx.
        change (g ++ concat hits) with (concat (g :: hits)) in Hx.
        rewrite <- Hf in Hx. now apply In_concat_filter.
Qed.

Lemma expand_neighbors_step (neighbors : list nat)
    (acc acc' : list nat * replacements) :
  expand_neighbors sg m neighbors groups acc = Ok acc' ->
  extends (fst acc) (fst acc') /\ extends (snd acc) (snd acc')
  /\ (forall n, In n neighbors -> In n (fst acc'))
  /\ forall x, In x (fst acc') ->
       In x (fst acc)
       \/ exists n, In n neighbors
                    /\ (x = n \/ exists g, In g groups /\ In n g /\ In x g).
Proof.
  revert acc. induction neighbors as [|n neighbors IH]; intros acc H.
  - inversion H; subst. repeat split; try apply extends_refl; auto.
    intros n [].
  - cbn [expand_neighbors] in H. bind_inv H. destruct a as [atoms1 sr1].
    apply expand_atoms_to_use_atom_step in Ha.
    destruct Ha as (He1 & Hs1 & Hn1 & Hx1).
    destruct (IH _ H) as (He2 & Hs2 & Hn2 & Hx2). cbn [fst snd] in *.
    repeat split.
    + eapply extends_trans; eassumption.
    + eapply extends_trans; eassumption.
    + intros n' [<- | Hn']; [eapply extends_In; eassumption | now apply Hn2].
    + intros x Hx. destruct (Hx2 x Hx) as [Hx' | (n' & Hn' & Hc)].
      * destruct (Hx1 x Hx') as [Hin | [-> | Hg]]; [now left | |].
        -- right. exists n. split; [now left | now left].
        -- right. exists n. split; [now left | now right].
      * right. exists n'. split; [now right | exact Hc].
Qed.

Lemma expand_atoms_step (atoms : list atom) (atoms_to_use : list nat)
    (acc acc' : list nat * replacements) :
  expand_atoms sg m atoms atoms_to_use groups acc = Ok acc' ->
  extends (fst acc) (fst acc') /\ extends (snd acc) (snd acc')
  /\ (forall a n, In a atoms -> In (GetIdx a) atoms_to_use ->
                  In n (GetNeighbors a) -> In n (fst acc'))
  /\ forall x, In x (fst acc') ->
       In x (fst acc)
       \/ exists a n, In a atoms /\ In (GetIdx a) atoms_to_use
                      /\ In n (GetNeighbors a)
                      /\ (x = n \/ exists g, In g groups /\ In n g /\ In x g).
Proof.
  revert acc. induction atoms as [|a atoms IH]; intros acc H.
  - inversion H; subst. repeat split; try apply extends_refl; auto.
    intros a n [].
  - cbn [expand_atoms] in H.
    destruct (mem_nat (GetIdx a) atoms_to_use) eqn:Hm; cbn [negb] in H.
    + bind_inv H. apply expand_neighbors_step in Ha.
      destruct Ha as (He1 & Hs1 & Hn1 & Hx1).
      destruct (IH _ H) as (He2 & Hs2 & Hn2 & Hx2).
      apply mem_nat_In in Hm.
      repeat split.
      * eapply extends_trans; eassumption.
      * eapply extends_trans; eassumption.
      * intros a' n [<- | Ha'] Hidx Hn.
        -- eapply extends_In; [exact He2 | now apply Hn1].
        -- now apply (Hn2 a' n).
      * intros x Hx. destruct (Hx2 x Hx) as [Hx' | (a' & n & Ha' & Hr)].
        -- destruct (Hx1 x Hx') as [Hin | (n & Hn & Hc)]; [now left |].
           right. exists a, n. split; [now left | auto].
        -- right. exists a', n. split; [now right | exact Hr].
    + destruct (IH _ H) as (He2 & Hs2 & Hn2 & Hx2).
      repeat split; try assumption.
      * intros a' n [<- | Ha'] Hidx Hn.
        -- apply mem_nat_In in Hidx. congruence.
        -- now apply (Hn2 a' n).
      * intros x Hx. destruct (Hx2 x Hx) as [Hx' | (a' & n & Ha' & Hr)];
          [now left |].
        right. exists a', n. split; [now right | exact Hr].
Qed.

End Expansion.

(** X5.  When a candidate that is not yet included belongs to a group, the
    expansion step adds every group that holds it, keeps what was included,
    records no override and does not raise, whether or not the molecule has
    an atom at that index. *)
Theorem expand_atoms_to_use_atom_group (sg : bool) (m : mol)
    (atoms_to_use : list nat) (atom_idx : nat) (groups : list (list nat))
    (sr : replacements) (g : list nat) :
  mem_nat atom_idx atoms_to_use = false -> In g groups -> In atom_idx g ->
  exists atoms',
    expand_atoms_to_use_atom sg m atoms_to_use atom_idx groups sr
    = Ok (atoms', sr)
    /\ extends atoms_to_use atoms'
    /\ forall g', In g' groups -> In atom_idx g' -> incl g' atoms'.
Proof.
  intros Hm Hg Hidx. unfold expand_atoms_to_use_atom. rewrite Hm.
  destruct (filter (mem_nat atom_idx) groups) as [|h hits] eqn:Hf.
  - exfalso. assert (Hin : In g (filter (mem_nat atom_idx) groups)).
    { apply filter_In. split; [exact Hg | now apply mem_nat_In]. }
    now rewrite Hf in Hin.
  - eexists. split; [reflexivity |]. split; [now eexists |].
    intros g' Hg' Hidx' x Hx. apply in_app_iff. right.
    cbn [concat]. change (h ++ concat hits) with (concat (h :: hits)).
    rewrite <- Hf. apply In_concat_filter. now exists g'.
Qed.

Lemma expand_atoms_to_use_atom_group_witness :
  exists atoms',
    expand_atoms_to_use_atom false chloromethane [0] 1 [[1; 7]; [2]] []
    = Ok (atoms', [])
    /\ extends [0] atoms'
    /\ forall g', In g' [[1; 7]; [2]] -> In 1 g' -> incl g' atoms'.
Proof.
  apply (expand_atoms_to_use_atom_group false chloromethane [0] 1
           [[1; 7]; [2]] [] [1; 7]).
  - reflexivity.
  - simpl. left. reflexivity.
  - simpl. left. reflexivity.
Defined.

(** X6.  One hop of [expand_atoms_to_use], when it returns, keeps the atoms
    and the overrides it was given, includes every neighbour of every atom
    it was given, and includes nothing else than those neighbours and the
    groups that hold one of them: atoms added during the hop are not
    expanded in the same hop. *)
Theorem expand_atoms_to_use_one_hop (sg : bool) (m : mol)
    (atoms_to_use : list nat) (groups : list (list nat)) (sr : replacements)
    (atoms' : list nat) (sr' : replacements) :
  expand_atoms_to_use sg m atoms_to_use groups sr = Ok (atoms', sr') ->
  extends atoms_to_use atoms' /\ extends sr sr'
  /\ (forall a n, In a (GetAtoms m) -> In (GetIdx a) atoms_to_use ->
                  In n (GetNeighbors a) -> In n atoms')
  /\ forall x, In x atoms' ->
       In x atoms_to_use \/ reached_in_one_hop m atoms_to_use groups x.
Proof.
  unfold expand_atoms_to_use. intros H.
  apply expand_atoms_step in H. cbn [fst snd] in H.
  destruct H as (He & Hs & Hn & Hx).
  repeat split; assumption.
Qed.

Lemma expand_atoms_to_use_one_hop_witness :
  extends [0] [0; 1]
  /\ extends (@nil (nat * str)) [(1, txt "[*:3]")]
  /\ (forall a n, In a (GetAtoms chloromethane) -> In (GetIdx a) [0] ->
                  In n (GetNeighbors a) -> In n [0; 1])
  /\ forall x, In x [0; 1] ->
       In x [0] \/ reached_in_one_hop chloromethane [0] [] x.
Proof.
  apply (expand_atoms_to_use_one_hop true chloromethane [0] [] []
           [0; 1] [(1, txt "[*:3]")]).
  vm_compute. reflexivity.
Defined.

(** ** Wildcard symbols *)

Lemma first_label_labels_of (ts : list token) :
  first_label ts = match labels_of ts with
                   | [] => None
                   | l :: _ => Some (label_text l)
                   end.
Proof.
  induction ts as [|[c|ds] ts IH]; [reflexivity | exact IH | reflexivity].
Qed.

Lemma search_label_findall (x : str) :
  search_label x = match findall_labels x with
                   | [] => None
                   | l :: _ => Some (label_text l)
                   end.
Proof. apply first_label_labels_of. Qed.

Lemma last_char_app (x : str) (c : ascii) : last_char (x ++ [c]) = Ok c.
Proof. unfold last_char. now rewrite rev_app_distr. Qed.

Lemma bracket_pattern_Ok (sg : bool) (a : atom) :
  exists symbol, bracket_pattern sg a = Ok symbol.
Proof.
  unfold bracket_pattern.
  set (s1 := if negb (GetAtomicNum a =? 6)%nat
             then txt "[" ++ txt "#" ++ str_of_nat (GetAtomicNum a) ++ txt ";"
             else if GetIsAromatic a then txt "[" ++ txt "c;"
                  else txt "[" ++ txt "C;").
  assert (H1 : exists y, s1 = y ++ [";"]).
  { unfold s1. destruct (negb (GetAtomicNum a =? 6)%nat).
    - exists (txt "[" ++ txt "#" ++ str_of_nat (GetAtomicNum a)).
      now rewrite <- !app_assoc.
    - destruct (GetIsAromatic a); [now exists (txt "[c") | now exists (txt "[C")]. }
  set (s2 := if negb sg
             then if negb (GetFormalCharge a =? 0)%Z
                  then match search_charges (GetSmarts a) with
                       | Some charges => s1 ++ charges ++ txt ";"
                       | None => s1
                       end
                  else s1
             else s1).
  assert (H2 : exists y, s2 = y ++ [";"]).
  { unfold s2. destruct (negb sg); [| exact H1].
    destruct (negb (GetFormalCharge a =? 0)%Z); [| exact H1].
    destruct (search_charges _) as [charges|]; [| exact H1].
    exists (s1 ++ charges). now rewrite <- app_assoc. }
  destruct H2 as [y ->]. rewrite last_char_app. cbn [bind].
  destruct (search_label _); eauto.
Qed.

(** X7.  [convert_atom_to_wildcard] raises in one case only, and then an
    [AttributeError]: in super-general mode, for an atom whose SMARTS holds
    a colon but no label [:digits]].  In default mode it never raises. *)
Theorem convert_atom_to_wildcard_raises (sg : bool) (a : atom) (e : exn) :
  convert_atom_to_wildcard sg a = Raise e
  <-> sg = true /\ has_char ":" (GetSmarts a) = true
      /\ findall_labels (GetSmarts a) = [] /\ e = AttributeError.
Proof.
  unfold convert_atom_to_wildcard. rewrite search_label_findall.
  destruct sg; cbn [andb negb].
  - destruct (has_char ":" (GetSmarts a)).
    + destruct (findall_labels (GetSmarts a)) as [|l rest]; cbn [group bind].
      * split; [intros H; inversion H; auto | intros (_ & _ & _ & ->); reflexivity].
      * split; [discriminate | intros (_ & _ & H & _); discriminate].
    + destruct (bracket_pattern_Ok true a) as [symbol ->].
      split; [discriminate | intros (_ & H & _); discriminate].
  - split; [| intros (H & _); discriminate].
    destruct (GetDegree a =? 1)%nat; [discriminate |].
    destruct (bracket_pattern_Ok false a) as [symbol ->]. discriminate.
Qed.

Example colon_without_label_raises :
  convert_atom_to_wildcard true C_colon_without_label = Raise AttributeError.
Proof. reflexivity. Qed.

Lemma labels_have_colon (ts : list token) :
  labels_of ts <> [] -> has_char ":" (unscan ts) = true.
Proof.
  induction ts as [|[c|ds] ts IH]; intros H; [contradiction | |].
  - cbn [unscan flat_map token_text]. change ([c] ++ flat_map token_text ts)
      with ([c] ++ unscan ts).
    rewrite has_char_app, (IH H). apply orb_true_r.
  - reflexivity.
Qed.

(** X8.  In super-general mode an atom whose SMARTS holds a label becomes
    the unconstrained wildcard that carries the first label of the SMARTS,
    and nothing else of the atom. *)
Theorem convert_atom_to_wildcard_super_general (a : atom) (l : str)
    (rest : list str) :
  findall_labels (GetSmarts a) = l :: rest ->
  convert_atom_to_wildcard true a = Ok (txt "[*" ++ label_text l)
  /\ findall_labels (txt "[*" ++ label_text l) = [l].
Proof.
  intros Hl. split.
  - unfold convert_atom_to_wildcard. cbn [andb].
    assert (Hc : has_char ":" (GetSmarts a) = true).
    { rewrite <- (unscan_scan (GetSmarts a)). apply labels_have_colon.
      unfold findall_labels in Hl. now rewrite Hl. }
    rewrite Hc, search_label_findall, Hl. reflexivity.
  - assert (Hlab : is_label l).
    { apply (findall_labels_is_label (GetSmarts a)). rewrite Hl. now left. }
    unfold findall_labels.
    change (txt "[*" ++ label_text l) with ("[" :: "*" :: ":" :: l ++ "]" :: []).
    rewrite scan_none by reflexivity. rewrite scan_none by reflexivity.
    rewrite (scan_label l [] Hlab). reflexivity.
Qed.

Lemma convert_atom_to_wildcard_super_general_witness :
  convert_atom_to_wildcard true Cl_chloromethane
  = Ok (txt "[*" ++ label_text (txt "3"))
  /\ findall_labels (txt "[*" ++ label_text (txt "3")) = [txt "3"].
Proof.
  apply (convert_atom_to_wildcard_super_general Cl_chloromethane (txt "3") []).
  reflexivity.
Defined.

(** ** The atoms of a fragment *)

Lemma set_index_length (A : Type) (l : list A) (i : nat) (v : A) (l' : list A) :
  set_index l i v = Ok l' -> length l' = length l.
Proof.
  revert i l'. induction l as [|x l IH]; intros i l' H; [discriminate |].
  destruct i as [|i]; cbn [set_index] in H.
  - now inversion H.
  - bind_inv H. inversion H; subst. cbn [length]. f_equal. eapply IH, Ha.
Qed.

Lemma apply_replacements_length (symbols : list str) (rs : replacements)
    (symbols' : list str) :
  apply_replacements symbols rs = Ok symbols' ->
  length symbols' = length symbols.
Proof.
  revert symbols. induction rs as [|[i s] rs IH]; intros symbols H.
  - now inversion H.
  - cbn [apply_replacements] in H. bind_inv H.
    rewrite (IH _ H). eapply set_index_length, Ha.
Qed.

Lemma seed_atoms_step (atoms : list atom) (changed_atom_tags : list str)
    (acc acc' : list nat * replacements) :
  seed_atoms atoms changed_atom_tags acc = Ok acc' ->
  extends (fst acc) (fst acc')
  /\ forall a tag, In a atoms -> has_char ":" (GetSmarts a) = true ->
       smarts_tag (GetSmarts a) = Ok tag -> mem tag changed_atom_tags = true ->
       In (GetIdx a) (fst acc').
Proof.
  revert acc. induction atoms as [|a atoms IH]; intros acc H.
  - inversion H; subst. split; [apply extends_refl | intros a tag []].
  - cbn [seed_atoms] in H.
    destruct (has_char ":" (GetSmarts a)) eqn:Hc.
    + bind_inv H. destruct (mem a0 changed_atom_tags) eqn:Hm.
      * destruct (IH _ H) as [He Hin]. cbn [fst] in He. split.
        -- eapply extends_trans; [| exact He]. now eexists.
        -- intros a' tag [<- | Ha'] Hc' Ht Hm'; [| now apply (Hin a' tag)].
           eapply extends_In; [exact He |]. apply in_app_iff. right. now left.
      * destruct (IH _ H) as [He Hin]. split; [exact He |].
        intros a' tag [<- | Ha'] Hc' Ht Hm'; [| now apply (Hin a' tag)].
        rewrite Ha in Ht. inversion Ht; subst. congruence.
    + destruct (IH _ H) as [He Hin]. split; [exact He |].
      intros a' tag [<- | Ha'] Hc' Ht Hm'; [congruence | now apply (Hin a' tag)].
Qed.

Lemma expand_radius_extends (sg : bool) (m : mol) (radius : nat)
    (groups : list (list nat)) (acc acc' : list nat * replacements) :
  expand_radius sg m radius groups acc = Ok acc' ->
  extends (fst acc) (fst acc').
Proof.
  revert acc. induction radius as [|radius IH]; intros acc H.
  - inversion H. apply extends_refl.
  - cbn [expand_radius] in H. bind_inv H. destruct a as [atoms1 sr1].
    unfold expand_atoms_to_use in Ha. apply expand_atoms_step in Ha.
    cbn [fst snd] in Ha. destruct Ha as [He _].
    eapply extends_trans; [exact He |]. exact (IH _ H).
Qed.

Lemma add_expansion_step (sg : bool) (atoms : list atom)
    (changed_atom_tags expansion : list str)
    (acc acc' : list nat * replacements) :
  add_expansion sg atoms changed_atom_tags expansion acc = Ok acc' ->
  extends (fst acc) (fst acc')
  /\ forall a label, In a atoms -> has_char ":" (GetSmarts a) = true ->
       smarts_tag (GetSmarts a) = Ok label -> mem label expansion = true ->
       mem label changed_atom_tags = false -> In (GetIdx a) (fst acc').
Proof.
  revert acc. induction atoms as [|a atoms IH]; intros acc H.
  - inversion H; subst. split; [apply extends_refl | intros a label []].
  - cbn [add_expansion] in H.
    destruct (has_char ":" (GetSmarts a)) eqn:Hc; cbn [negb] in H.
    + bind_inv H.
      destruct (mem a0 expansion && negb (mem a0 changed_atom_tags)) eqn:Hm.
      * bind_inv H. destruct (IH _ H) as [He Hin]. cbn [fst] in He. split.
        -- eapply extends_trans; [| exact He]. now eexists.
        -- intros a' label [<- | Ha'] Hc' Ht H1 H2; [| now apply (Hin a' label)].
           eapply extends_In; [exact He |]. apply in_app_iff. right. now left.
      * destruct (IH _ H) as [He Hin]. split; [exact He |].
        intros a' label [<- | Ha'] Hc' Ht H1 H2; [| now apply (Hin a' label)].
        rewrite Ha in Ht. inversion Ht; subst.
        rewrite H1, H2 in Hm. discriminate.
    + destruct (IH _ H) as [He Hin]. split; [exact He |].
      intros a' label [<- | Ha'] Hc' Ht H1 H2;
        [congruence | now apply (Hin a' label)].
Qed.

(** X9.  When [fragment_spec] returns the atoms and symbols of a molecule's
    fragment, there is one symbol per atom of the molecule and every atom
    whose tag is a changed tag is among the atoms, whatever the radius.
    For a product molecule the atoms also hold every atom without a map
    number and every atom whose tag is one of the extra labels. *)
Theorem fragment_spec_includes (TK : Toolkit) (sg : bool) (m : mol)
    (changed_atom_tags : list str) (radius : nat) (cat : category)
    (expansion : list str) (atoms_to_use : list nat) (symbols : list str) :
  fragment_spec sg m changed_atom_tags radius cat expansion
  = Ok (atoms_to_use, symbols) ->
  length symbols = length (GetAtoms m)
  /\ (forall a tag, In a (GetAtoms m) -> has_char ":" (GetSmarts a) = true ->
        smarts_tag (GetSmarts a) = Ok tag -> mem tag changed_atom_tags = true ->
        In (GetIdx a) atoms_to_use)
  /\ (cat = products ->
      (forall a, In a (GetAtoms m) -> molAtomMapNumber a = None ->
                 In (GetIdx a) atoms_to_use)
      /\ (forall a label, In a (GetAtoms m) ->
            has_char ":" (GetSmarts a) = true ->
            smarts_tag (GetSmarts a) = Ok label -> mem label expansion = true ->
            In (GetIdx a) atoms_to_use)).
Proof.
  unfold fragment_spec. intros H.
  bind_inv H. rename a into acc1, Ha into Hseed.
  bind_inv H. rename a into acc2, Ha into Hrad.
  bind_inv H. rename a into acc3, Ha into Hcat.
  bind_inv H. rename a into syms, Ha into Hsyms.
  inversion H; subst. clear H.
  apply seed_atoms_step in Hseed. destruct Hseed as [_ Hseed].
  apply expand_radius_extends in Hrad.
  split; [| split].
  - rewrite (apply_replacements_length _ _ _ Hsyms). apply length_map.
  - intros a tag Hin Hc Ht Hm.
    assert (H2 : In (GetIdx a) (fst acc2)).
    { eapply extends_In; [exact Hrad | now apply (Hseed a tag)]. }
    destruct cat.
    + now inversion Hcat; subst.
    + apply bind_Ok_inv in Hcat. destruct Hcat as [acc4 [Hexp Hcat]].
      inversion Hcat; subst. cbn [fst].
      unfold add_unmapped. apply in_app_iff. left.
      destruct expansion.
      * now inversion Hexp; subst.
      * apply add_expansion_step in Hexp. destruct Hexp as [He _].
        eapply extends_In; [exact He | exact H2].
  - intros ->. apply bind_Ok_inv in Hcat. destruct Hcat as [acc4 [Hexp Hcat]].
    inversion Hcat; subst. cbn [fst].
    unfold add_unmapped. split.
    + intros a Hin Hmap. apply in_app_iff. right. apply in_map.
      apply filter_In. split; [exact Hin |].
      unfold HasProp_molAtomMapNumber. now rewrite Hmap.
    + intros a label Hin Hc Ht Hm. apply in_app_iff. left.
      destruct (mem label changed_atom_tags) eqn:Hch.
      * assert (H2 : In (GetIdx a) (fst acc2)).
        { eapply extends_In; [exact Hrad | now apply (Hseed a label)]. }
        destruct expansion.
        -- now inversion Hexp; subst.
        -- apply add_expansion_step in Hexp. destruct Hexp as [He _].
           eapply extends_In; [exact He | exact H2].
      * destruct expansion as [|e0 expansion]; [discriminate |].
        apply add_expansion_step in Hexp. destruct Hexp as [_ Hexp].
        now apply (Hexp a label).
Qed.

Lemma fragment_spec_includes_witness :
  length [txt "[*:1]"; txt "[CH3;+0:2]"] = length (GetAtoms methanol)
  /\ (forall a tag, In a (GetAtoms methanol) ->
        has_char ":" (GetSmarts a) = true ->
        smarts_tag (GetSmarts a) = Ok tag -> mem tag [txt "2"] = true ->
        In (GetIdx a) [1; 0])
  /\ (products = products ->
      (forall a, In a (GetAtoms methanol) -> molAtomMapNumber a = None ->
                 In (GetIdx a) [1; 0])
      /\ (forall a label, In a (GetAtoms methanol) ->
            has_char ":" (GetSmarts a) = true ->
            smarts_tag (GetSmarts a) = Ok label -> mem label [txt "1"] = true ->
            In (GetIdx a) [1; 0])).
Proof.
  apply (fragment_spec_includes standin_toolkit true methanol [txt "2"] 0
           products [txt "1"] [1; 0] [txt "[*:1]"; txt "[CH3;+0:2]"]).
  vm_compute. reflexivity.
Defined.

(** ** The extra labels of the products *)

Lemma scan_no_colon (a b : str) :
  has_char ":" a = false -> scan (a ++ b) = map Chr a ++ scan b.
Proof.
  induction a as [|c a IH]; intros H; [reflexivity |].
  unfold has_char in H. cbn [existsb] in H.
  apply orb_false_iff in H. destruct H as [Hc H].
  change ((c :: a) ++ b) with (c :: (a ++ b)).
  rewrite scan_none.
  - cbn [map app]. f_equal. now apply IH.
  - apply match_label_other. intros ->. now rewrite chr_eqb_refl in Hc.
Qed.

Lemma class_no_char (cls : ascii -> bool) (c : ascii) (ds : str) :
  cls c = false -> forallb cls ds = true -> has_char c ds = false.
Proof.
  intros Hc. induction ds as [|d ds IH]; [reflexivity |].
  cbn [forallb]. intros H. apply andb_true_iff in H. destruct H as [Hd Hds].
  unfold has_char. cbn [existsb]. apply orb_false_iff. split; [| now apply IH].
  apply chr_eqb_neq. intros ->. congruence.
Qed.

Lemma app_close_unique (ds ds' rest rest' : str) :
  has_char "]" ds = false -> has_char "]" ds' = false ->
  ds ++ "]" :: rest = ds' ++ "]" :: rest' -> ds = ds' /\ rest = rest'.
Proof.
  revert ds'. induction ds as [|d ds IH]; intros [|d' ds'] H1 H2 H;
    unfold has_char in H1, H2; cbn [existsb] in H1, H2.
  - inversion H. auto.
  - inversion H; subst. now rewrite chr_eqb_refl in H2.
  - inversion H; subst. now rewrite chr_eqb_refl in H1.
  - apply orb_false_iff in H1, H2. injection H as Hd Ht. subst d'.
    destruct (IH ds' (proj2 H1) (proj2 H2) Ht) as [-> ->]. auto.
Qed.

Lemma is_digit_or_bracket_colon : is_digit_or_bracket ":" = false.
Proof. reflexivity. Qed.

Lemma is_digit_or_bracket_close : is_digit_or_bracket "]" = false.
Proof. reflexivity. Qed.

(** The pattern of [expand_changed_atom_tags], whose class also admits an
    opening bracket, finds every label that the pattern with digits only
    finds. *)
Lemma findall_labels_bracket_incl (x l : str) :
  In l (findall_labels x) -> In l (findall_labels_bracket x).
Proof.
  unfold findall_labels, findall_labels_bracket.
  induction x as [| c x Hm IH | ds rest Hne Hd IH]
    using (scan_induction is_digit_or_bracket).
  - intros [].
  - rewrite (scan_aux_none is_digit_or_bracket c x Hm).
    assert (Hm' : match_label is_digit (c :: x) = None).
    { destruct (match_label is_digit (c :: x)) as [[ds rest]|] eqn:E;
        [| reflexivity].
      destruct (match_label_Some is_digit _ _ _ E) as (Heq & Hne & Hd).
      rewrite Heq in Hm.
      rewrite (match_label_label is_digit_or_bracket
                 is_digit_or_bracket_close ds rest Hne) in Hm;
        [discriminate |].
      apply forallb_forall. intros d Hin. unfold is_digit_or_bracket.
      rewrite forallb_forall in Hd. now rewrite (Hd d Hin). }
    rewrite (scan_none c x Hm'). exact IH.
  - rewrite (scan_aux_label is_digit_or_bracket is_digit_or_bracket_close
               ds rest Hne Hd).
    cbn [labels_of].
    destruct (match_label is_digit (":" :: ds ++ "]" :: rest))
      as [[ds' rest']|] eqn:E.
    + destruct (match_label_Some is_digit _ _ _ E) as (Heq & Hne' & Hd').
      injection Heq as Heq.
      apply app_close_unique in Heq.
      * destruct Heq as [<- <-].
        rewrite (scan_label ds rest (conj Hne' Hd')). cbn [labels_of].
        intros [<- | H]; [now left | right; now apply IH].
      * now apply (class_no_char is_digit_or_bracket).
      * now apply (class_no_char is_digit).
    + rewrite (scan_none ":" _ E). cbn [labels_of].
      change (ds ++ "]" :: rest) with (ds ++ ["]"] ++ rest).
      rewrite app_assoc, scan_no_colon.
      * rewrite labels_of_app.
        replace (labels_of (map Chr (ds ++ ["]"]))) with (@nil str).
        -- intros H. right. now apply IH.
        -- induction (ds ++ ["]"]) as [|d l' IHl]; [reflexivity | exact IHl].
      * rewrite has_char_app.
        rewrite (class_no_char is_digit_or_bracket ":" ds
                   is_digit_or_bracket_colon Hd).
        reflexivity.
Qed.

(** X10.  [expand_changed_atom_tags] never returns a changed tag, and it
    returns every label [:digits]] of the reactant fragments that is not a
    changed tag: the opening bracket that its pattern also admits among
    the digits loses no label. *)
Theorem expand_changed_atom_tags_complete (changed_atom_tags : list str)
    (reactant_fragments l : str) :
  (In l (expand_changed_atom_tags changed_atom_tags reactant_fragments) ->
   ~ In l changed_atom_tags)
  /\ (In l (findall_labels reactant_fragments) -> ~ In l changed_atom_tags ->
      In l (expand_changed_atom_tags changed_atom_tags reactant_fragments)).
Proof.
  unfold expand_changed_atom_tags. split.
  - intros H. apply filter_In in H. destruct H as [_ H].
    apply negb_true_iff in H. now apply mem_not_In.
  - intros H Hn. apply filter_In. split.
    + now apply findall_labels_bracket_incl.
    + apply negb_true_iff. now apply mem_not_In.
Qed.

(** ** The retro form *)

Lemma join_app (A : Type) (sep : list A) (a b : list (list A)) :
  a <> [] -> b <> [] -> join sep (a ++ b) = join sep a ++ sep ++ join sep b.
Proof.
  intros Ha Hb. induction a as [|x a IH]; [contradiction |].
  destruct a as [|y a].
  - destruct b as [|z b]; [contradiction | reflexivity].
  - change (join sep ((x :: y :: a) ++ b))
      with (x ++ sep ++ join sep ((y :: a) ++ b)).
    rewrite IH by discriminate.
    change (join sep (x :: y :: a)) with (x ++ sep ++ join sep (y :: a)).
    now rewrite <- !app_assoc.
Qed.

Lemma join_concat (A : Type) (sep : list A) (l : list (list (list A))) :
  Forall (fun m => m <> []) l ->
  join sep (map (join sep) l) = join sep (concat l).
Proof.
  induction 1 as [|m l Hm Hl IH]; [reflexivity |].
  destruct l as [|m' l].
  - cbn [map concat join]. now rewrite app_nil_r.
  - change (join sep (map (join sep) (m :: m' :: l)))
      with (join sep m ++ sep ++ join sep (map (join sep) (m' :: l))).
    rewrite IH.
    change (concat (m :: m' :: l)) with (m ++ concat (m' :: l)).
    rewrite join_app; [reflexivity | exact Hm |].
    inversion Hl; subst. cbn [concat].
    destruct m'; [contradiction | discriminate].
Qed.

Lemma flatten_half (h : list (list str)) :
  half_ok h ->
  replace (txt ").(") (txt ".") (strip_ends (render_half h))
  = render_mol (concat h).
Proof.
  intros Hh. unfold replace.
  rewrite strip_ends_render_half, (split_mols h Hh).
  unfold render_mol. apply join_concat.
  destruct Hh as [_ Hh]. eapply Forall_impl; [| exact Hh].
  now intros m [Hne _].
Qed.

(** X11.  On a transform with two well-formed sides, [convert_to_retro]
    returns the fragments of the products, all molecules merged into one
    dot-separated list without parentheses, then the arrow, then the
    fragments of the reactants written the same way. *)
Theorem convert_to_retro_swaps_and_flattens (R P : list (list str)) :
  half_ok R -> half_ok P ->
  convert_to_retro (render_transform [R; P])
  = Ok (render_mol (concat P) ++ txt ">>" ++ render_mol (concat R)).
Proof.
  intros HR HP. unfold convert_to_retro.
  rewrite (split_render_transform [R; P]);
    [| discriminate | constructor; [exact HR | constructor; [exact HP | constructor]]].
  cbn [map index nth_error bind].
  now rewrite (flatten_half R HR), (flatten_half P HP).
Qed.

Lemma convert_to_retro_swaps_and_flattens_witness :
  convert_to_retro (render_transform [sample_half; sample_product])
  = Ok (render_mol (concat sample_product) ++ txt ">>"
        ++ render_mol (concat sample_half)).
Proof.
  apply (convert_to_retro_swaps_and_flattens sample_half sample_product).
  - split; [discriminate |].
    repeat constructor; try discriminate; reflexivity.
  - split; [discriminate |].
    repeat constructor; try discriminate; reflexivity.
Defined.

Lemma has_sub_unbroken (sep x : str) :
  has_sub sep x = false -> unbroken sep x [].
Proof.
  induction x as [|c x IH]; intros H; [exact I |].
  rewrite has_sub_cons in H. apply orb_false_iff in H. destruct H as [Hp H].
  split; [now rewrite app_nil_r | now apply IH].
Qed.

(** X12.  [convert_to_retro] raises [IndexError] on a text that holds no
    arrow [>>]: the text has no second side to read. *)
Theorem convert_to_retro_needs_arrow (transform : str) :
  has_sub (txt ">>") transform = false ->
  convert_to_retro transform = Raise IndexError.
Proof.
  intros H. unfold convert_to_retro.
  rewrite (split_whole (txt ">>") transform (has_sub_unbroken _ _ H)).
  reflexivity.
Qed.

Lemma convert_to_retro_needs_arrow_witness :
  has_sub (txt ">>") one_sided = false
  /\ convert_to_retro one_sided = Raise IndexError.
Proof.
  split; [reflexivity |].
  apply (convert_to_retro_needs_arrow one_sided). reflexivity.
Defined.

(** ** The order that [canonicalize_template] gives *)

Lemma reordered_canonical_half (h : list (list str)) :
  reordered h (canonical_half h).
Proof.
  exists (map canonical_mol h). split.
  - induction h as [|m h IH]; [constructor |].
    cbn [map]. constructor; [apply sorted_by_perm | exact IH].
  - apply sorted_by_perm.
Qed.

(** X13.  On a well-formed half, [canonicalize_template] returns the same
    molecules with the same fragments, reordered: the molecules ascend by
    label-stripped text, and so do the fragments inside every molecule. *)
Theorem canonicalize_template_sorts (h : list (list str)) :
  half_ok h ->
  exists h',
    canonicalize_template (render_half h) = Ok (render_half h')
    /\ reordered h h'
    /\ ascending (map bare_mol h')
    /\ Forall (fun m => ascending (map strip_labels m)) h'.
Proof.
  intros Hh. exists (canonical_half h). split; [| split; [| split]].
  - now apply canonicalize_template_render.
  - apply reordered_canonical_half.
  - apply sorted_by_is_ascending.
  - apply Forall_forall. intros m Hm. unfold canonical_half in Hm.
    apply (proj1 (sorted_by_In _ bare_mol m (map canonical_mol h))) in Hm.
    apply in_map_iff in Hm. destruct Hm as [m' [<- _]].
    apply sorted_by_is_ascending.
Qed.

Lemma canonicalize_template_sorts_witness :
  exists h',
    canonicalize_template (render_half sample_half) = Ok (render_half h')
    /\ reordered sample_half h'
    /\ ascending (map bare_mol h')
    /\ Forall (fun m => ascending (map strip_labels m)) h'.
Proof.
  apply (canonicalize_template_sorts sample_half).
  split; [discriminate |].
  repeat constructor; try discriminate; reflexivity.
Defined.

(** ** Renumbering any text *)

(** X14.  On every text, [reassign_atom_mapping] changes nothing but the
    digits of the labels: the label-stripped text is the same, there are as
    many labels, and two labels get the same number only if they were the
    same label. *)
Theorem reassign_atom_mapping_keeps_text (x : str) :
  exists out f,
    reassign_atom_mapping x = Ok out
    /\ strip_labels out = strip_labels x
    /\ findall_labels out = map f (findall_labels x)
    /\ forall a b, In a (findall_labels x) -> In b (findall_labels x) ->
                   f a = f b -> a = b.
Proof.
  exists (renumbered x), (new_label x).
  assert (Hlab : forall ds, In ds (findall_labels x) -> is_label (new_label x ds))
    by (intros ds _; apply new_label_is_label).
  split; [apply reassign_atom_mapping_renumbered |]. split; [| split].
  - now apply strip_labels_relabel.
  - now apply findall_labels_relabel.
  - intros a b Ha Hb H. apply str_of_nat_inj in H.
    now apply (dense_number_inj (findall_labels x)).
Qed.

(** X15.  On every text, well-formed template or not, renumbering the
    result of [reassign_atom_mapping] again changes nothing. *)
Theorem reassign_atom_mapping_idempotent (x : str) :
  exists out,
    reassign_atom_mapping x = Ok out /\ reassign_atom_mapping out = Ok out.
Proof.
  exists (renumbered x). split; [apply reassign_atom_mapping_renumbered |].
  rewrite reassign_atom_mapping_renumbered. f_equal.
  apply renumbered_idempotent.
Qed.

(** X16.  On every text, renaming the labels first, different labels to
    different labels, does not change what [reassign_atom_mapping]
    returns. *)
Theorem reassign_atom_mapping_forgets_names (f : str -> str) (x : str) :
  relabeling f ->
  reassign_atom_mapping (relabel f x) = reassign_atom_mapping x.
Proof.
  intros [Hlab Hinj]. rewrite !reassign_atom_mapping_renumbered. f_equal.
  apply renumbered_relabel.
  - intros l Hl. apply Hlab. now apply (findall_labels_is_label x).
  - intros a b Ha Hb. apply Hinj; now apply (findall_labels_is_label x).
Qed.

Lemma reassign_atom_mapping_forgets_names_witness :
  reassign_atom_mapping (relabel prefix_nine ill_formed_transform)
  = reassign_atom_mapping ill_formed_transform.
Proof.
  apply (reassign_atom_mapping_forgets_names prefix_nine ill_formed_transform).
  split.
  - intros l [Hne Hd]. split; [discriminate |].
    unfold prefix_nine. cbn [forallb]. now rewrite Hd.
  - intros l l' _ _ H. now inversion H.
Defined.

(** ** The table of templates *)

Lemma count_of_increment (k : str) (d : table) :
  count_of k (increment k d) = S (count_of k d).
Proof.
  induction d as [|[k' n] d IH]; cbn [increment count_of].
  - now rewrite str_eqb_refl.
  - destruct (str_eqb k' k) eqn:Hk; cbn [count_of]; rewrite Hk;
      [reflexivity | exact IH].
Qed.

Lemma count_of_increment_other (k k' : str) (d : table) :
  k' <> k -> count_of k' (increment k d) = count_of k' d.
Proof.
  intros Hne. induction d as [|[k0 n] d IH]; cbn [increment count_of].
  - destruct (str_eqb k k') eqn:Hk; [| reflexivity].
    apply str_eqb_eq in Hk. congruence.
  - destruct (str_eqb k0 k) eqn:Hk; cbn [count_of].
    + apply str_eqb_eq in Hk. subst k0.
      destruct (str_eqb k k') eqn:Hk'; [| reflexivity].
      apply str_eqb_eq in Hk'. congruence.
    + destruct (str_eqb k0 k'); [reflexivity | exact IH].
Qed.

Lemma table_total_increment (k : str) (d : table) :
  table_total (increment k d) = S (table_total d).
Proof.
  induction d as [|[k' n] d IH]; cbn [increment table_total]; [reflexivity |].
  destruct (str_eqb k' k); cbn [table_total]; [reflexivity |].
  rewrite IH. lia.
Qed.

(** ** What one record does to the state *)

Section Scan.

Context {TK : Toolkit}.
Variable sg : bool.

Lemma extract_template_cases (r : record) (st : scan_state) (f : flow) :
  extract_template sg r st = Ok f ->
  f = Continue st \/ f = Continue (count_partialmapped st)
  \/ exists k, f = Through (record_template k st).
Proof.
  unfold extract_template.
  destruct r as [[[reaction_smiles rs] ags] ps]. intros H.
  apply bind_Ok_inv in H. destruct H as [flags [_ H]].
  destruct (existsb _ flags); [inversion H; auto |].
  destruct (existsb is_None _); [inversion H; auto |].
  apply bind_Ok_inv in H. destruct H as [[[ca cat] err] [_ H]].
  destruct (negb _); [inversion H; auto |].
  destruct cat; [inversion H; auto |].
  apply bind_Ok_inv in H. destruct H as [rf [_ H]].
  apply bind_Ok_inv in H. destruct H as [pf [_ H]].
  apply bind_Ok_inv in H. destruct H as [validity [_ H]].
  destruct (negb _); [inversion H; auto |].
  apply bind_Ok_inv in H. destruct H as [rxn [_ H]].
  apply bind_Ok_inv in H. destruct H as [retro [_ H]].
  inversion H. right. right. now exists retro.
Qed.

(** The four ways an iteration can end without an exception. *)
Lemma iteration_cases (st : scan_state) (line : str) (pos : Z)
    (st' : scan_state) :
  iteration sg st line pos = Ok st' ->
  st' = next_record st
  \/ st' = count_partialmapped (next_record st)
  \/ exists k,
       (st' = record_template k (next_record st)
        /\ ((i st + 1) mod 10000 <> 0)%Z)
       \/ (st' = log_progress pos (record_template k (next_record st))
           /\ ((i st + 1) mod 10000 = 0)%Z).
Proof.
  unfold iteration. intros H.
  apply bind_Ok_inv in H. destruct H as [r [Hr H]].
  apply bind_Ok_inv in H. destruct H as [f [Hf H]].
  destruct (extract_template sg r (next_record st)) as [f'|e] eqn:He;
    cbn in Hf; [| discriminate].
  injection Hf as ->.
  destruct (extract_template_cases _ _ _ He) as [-> | [-> | [k ->]]].
  - injection H as <-. now left.
  - injection H as <-. right. now left.
  - right. right. exists k. cbn [i record_template next_record] in H.
    destruct (Z.eqb_spec ((i st + 1) mod 10000) 0) as [Hz | Hz];
      injection H as <-; [right | left]; now split.
Qed.

Variable Inv : scan_state -> Prop.
Hypothesis Inv_next_record : forall st, Inv st -> Inv (next_record st).
Hypothesis Inv_count_partialmapped :
  forall st, Inv st -> Inv (count_partialmapped st).
Hypothesis Inv_record_template :
  forall k st, Inv st -> Inv (record_template k st).
Hypothesis Inv_log_progress : forall pos st, Inv st -> Inv (log_progress pos st).

(** What every assignment of the loop keeps true is true at the end of the
    scan, however it ends. *)
Lemma scan_lines_invariant (reaction_fid : list (str * Z)) (st : scan_state) :
  Inv st -> Inv (final_state (scan_lines sg reaction_fid st)).
Proof.
  revert st. induction reaction_fid as [|[line pos] rest IH]; intros st Hst;
    [exact Hst |].
  cbn [scan_lines].
  destruct (iteration sg st line pos) as [st'|e] eqn:Hi;
    [| cbn [final_state]; now apply Inv_next_record].
  apply IH.
  destruct (iteration_cases _ _ _ _ Hi)
    as [-> | [-> | [k [[-> _] | [-> _]]]]]; auto.
Qed.

End Scan.

(** X17.  At the end of the scan, however it ends, the counts of the table
    add up to what they added up to in the table the scan started from,
    plus the number of records counted as attempted: every attempted record
    added exactly one to exactly one count. *)
Theorem table_total_counts_attempted (TK : Toolkit) (sg : bool)
    (reaction_fid : list (str * Z)) (d : table) :
  table_total (template_dict (final_state (main sg reaction_fid d)))
  = table_total d + total_attempted (final_state (main sg reaction_fid d)).
Proof.
  rewrite !final_state_main.
  apply (scan_lines_invariant sg
           (fun st => table_total (template_dict st)
                      = table_total d + total_attempted st)).
  - intros st H. exact H.
  - intros st H. exact H.
  - intros k st H. cbn [record_template template_dict total_attempted].
    rewrite table_total_increment, H. lia.
  - intros pos st H. exact H.
  - cbn. lia.
Qed.

(** X18.  The scan never lowers a count and never drops a template: at the
    end, however the scan ends, the count of every template is at least
    what it was in the table the scan started from, and exceeds it by no
    more than the number of attempted records. *)
Theorem counts_only_grow (TK : Toolkit) (sg : bool)
    (reaction_fid : list (str * Z)) (d : table) (k : str) :
  count_of k d
  <= count_of k (template_dict (final_state (main sg reaction_fid d)))
  <= count_of k d + total_attempted (final_state (main sg reaction_fid d)).
Proof.
  rewrite !final_state_main.
  apply (scan_lines_invariant sg
           (fun st => count_of k d <= count_of k (template_dict st)
                      <= count_of k d + total_attempted st)).
  - intros st H. exact H.
  - intros st H. exact H.
  - intros k' st H. cbn [record_template template_dict total_attempted].
    destruct (list_eq_dec Ascii.ascii_dec k k') as [<- | Hne].
    + rewrite count_of_increment. lia.
    + rewrite (count_of_increment_other _ _ _ Hne). lia.
  - intros pos st H. exact H.
  - cbn. lia.
Qed.

(** X19.  Four of the counters of the final report are never assigned by
    the loop: the numbers of unmapped reactions, of non-reactions, of
    correct and of precise predictions are 0 at the end of every scan. *)
Theorem four_counters_stay_zero (TK : Toolkit) (sg : bool)
    (reaction_fid : list (str * Z)) (d : table) :
  total_unmapped (final_state (main sg reaction_fid d)) = 0
  /\ total_nonreaction (final_state (main sg reaction_fid d)) = 0
  /\ total_correct (final_state (main sg reaction_fid d)) = 0
  /\ total_precise (final_state (main sg reaction_fid d)) = 0.
Proof.
  rewrite !final_state_main.
  apply (scan_lines_invariant sg
           (fun st => total_unmapped st = 0 /\ total_nonreaction st = 0
                      /\ total_correct st = 0 /\ total_precise st = 0));
    try (intros; assumption).
  cbn. repeat split.
Qed.

(** ** Counting the records *)

Section Counting.

Context {TK : Toolkit}.
Variable sg : bool.

Lemma scan_lines_counts (reaction_fid : list (str * Z)) (st : scan_state) :
  (Z.of_nat (total_attempted st + total_partialmapped st) <= i st + 1)%Z ->
  match scan_lines sg reaction_fid st with
  | Finished st' =>
      (i st' = i st + Z.of_nat (length reaction_fid))%Z
      /\ (Z.of_nat (total_attempted st' + total_partialmapped st')
          <= i st' + 1)%Z
  | Uncaught _ st' =>
      (i st < i st' <= i st + Z.of_nat (length reaction_fid))%Z
      /\ (Z.of_nat (total_attempted st' + total_partialmapped st') <= i st')%Z
  end.
Proof.
  revert st. induction reaction_fid as [|[line pos] rest IH]; intros st Hst.
  - cbn [scan_lines length]. split; [lia | exact Hst].
  - cbn [scan_lines].
    destruct (iteration sg st line pos) as [st'|e] eqn:Hi.
    + assert (H' : (i st' = i st + 1)%Z
                   /\ (Z.of_nat (total_attempted st' + total_partialmapped st')
                       <= i st' + 1)%Z).
      { destruct (iteration_cases _ _ _ _ _ Hi)
          as [-> | [-> | [k [[-> _] | [-> _]]]]]; cbn; lia. }
      destruct H' as [Hi' Hc]. specialize (IH st' Hc).
      destruct (scan_lines sg rest st') as [st2 | e st2];
        cbn [length]; lia.
    + cbn [next_record i total_attempted total_partialmapped length]. lia.
Qed.

Lemma scan_lines_cursors (reaction_fid : list (str * Z)) (st : scan_state)
    (pos : Z) :
  In (WriteCursor pos) (written (final_state (scan_lines sg reaction_fid st))) ->
  In (WriteCursor pos) (written st)
  \/ exists j line,
       nth_error reaction_fid j = Some (line, pos)
       /\ ((i st + 1 + Z.of_nat j) mod 10000 = 0)%Z.
Proof.
  revert st. induction reaction_fid as [|[line p] rest IH]; intros st H.
  - now left.
  - cbn [scan_lines] in H.
    destruct (iteration sg st line p) as [st'|e] eqn:Hi;
      [| now left].
    destruct (IH st' H) as [Hin | [j [l [Hj Hm]]]].
    + destruct (iteration_cases _ _ _ _ _ Hi)
        as [-> | [-> | [k [[-> _] | [-> Hz]]]]];
        try (now left).
      cbn [log_progress written record_template next_record] in Hin.
      apply in_app_or in Hin. destruct Hin as [Hin | Hin]; [now left |].
      destruct Hin as [Heq | [Heq | []]]; [discriminate |].
      injection Heq as <-. right. exists 0%nat, line. split; [reflexivity |].
      now rewrite Z.add_0_r.
    + right. exists (S j), l. split; [exact Hj |].
      assert (Hi' : (i st' = i st + 1)%Z).
      { destruct (iteration_cases _ _ _ _ _ Hi)
          as [-> | [-> | [k [[-> _] | [-> _]]]]]; reflexivity. }
      rewrite Hi' in Hm. rewrite <- Hm. f_equal. lia.
Qed.

End Counting.

(** X20.  The record counter and the two counters that the loop of [main]
    assigns.  When the loop reads every line, [i + 1], which the summary
    takes as the number of examples, is the number of lines.  When an
    exception ends the loop, [i] is the index of a line of the input, the
    one being processed.  In both cases the attempted and the partly
    mapped records together are no more than the records processed
    without an exception. *)
Theorem records_are_counted (TK : Toolkit) (sg : bool)
    (reaction_fid : list (str * Z)) (d : table) :
  match scan_lines sg reaction_fid (initial_state d) with
  | Finished st =>
      (i st + 1 = Z.of_nat (length reaction_fid))%Z
      /\ (Z.of_nat (total_attempted st + total_partialmapped st)
          <= i st + 1)%Z
  | Uncaught _ st =>
      (0 <= i st < Z.of_nat (length reaction_fid))%Z
      /\ (Z.of_nat (total_attempted st + total_partialmapped st) <= i st)%Z
  end.
Proof.
  assert (H0 : (Z.of_nat (total_attempted (initial_state d)
                          + total_partialmapped (initial_state d))
                <= i (initial_state d) + 1)%Z) by (cbn; lia).
  pose proof (scan_lines_counts sg reaction_fid (initial_state d) H0) as H.
  destruct (scan_lines sg reaction_fid (initial_state d)) as [st | e st];
    cbn [initial_state i] in H; lia.
Qed.

(** X21.  Every cursor that [main] writes is the value that [tell()]
    returned while a line whose index in the input is a multiple of 10000
    was processed: no other record is ever checkpointed. *)
Theorem cursors_are_written_every_10000 (TK : Toolkit) (sg : bool)
    (reaction_fid : list (str * Z)) (d : table) (pos : Z) :
  In (WriteCursor pos) (written (final_state (main sg reaction_fid d))) ->
  exists j line,
    nth_error reaction_fid j = Some (line, pos)
    /\ (Z.of_nat j mod 10000 = 0)%Z.
Proof.
  rewrite final_state_main. intros H.
  destruct (scan_lines_cursors sg reaction_fid (initial_state d) pos H)
    as [[] | [j [line [Hj Hm]]]].
  exists j, line. split; [exact Hj |].
  cbn [initial_state i] in Hm. rewrite <- Hm. f_equal; lia.
Qed.

Lemma cursors_are_written_every_10000_witness :
  exists j line,
    nth_error [(sn2_line, 40%Z)] j = Some (line, 40%Z)
    /\ (Z.of_nat j mod 10000 = 0)%Z.
Proof.
  apply (cursors_are_written_every_10000 standin_toolkit true
           [(sn2_line, 40%Z)] [] 40%Z).
  vm_compute. right. left. reflexivity.
Defined.

(** ** Records that do not unpack *)

(** X22.  A record whose reaction SMILES, the first word of the line, does
    not split into exactly three parts at [>] raises [ValueError] when it
    is unpacked, and that ends the scan: the records after it are not
    read. *)
Theorem unpack_needs_three_parts (TK : Toolkit) (sg : bool) (line : str)
    (pos : Z) (rest : list (str * Z)) (d : table) (reaction_smiles : str) :
  index (words line) 0 = Ok reaction_smiles ->
  length (split (txt ">") reaction_smiles) <> 3 ->
  unpack line = Raise ValueError
  /\ main sg ((line, pos) :: rest) d
     = Uncaught ValueError (next_record (initial_state d)).
Proof.
  intros Hw Hlen.
  assert (Hu : unpack line = Raise ValueError).
  { unfold unpack. rewrite Hw. cbn [bind].
    rewrite <- (length_map
                  (fun mols => mols_from_smiles_list (split (txt ".") mols)))
      in Hlen.
    destruct (map _ (split (txt ">") reaction_smiles))
      as [|x1 [|x2 [|x3 [|x4 l]]]]; try reflexivity.
    now contradiction Hlen. }
  split; [exact Hu |].
  apply main_loop_raises, scan_lines_raises.
  now apply iteration_unpack_raises.
Qed.

Lemma unpack_needs_three_parts_witness :
  unpack (H := standin_toolkit) two_part_line = Raise ValueError
  /\ main (H := standin_toolkit) true [(two_part_line, 0%Z); (sn2_line, 17%Z)] []
     = Uncaught ValueError (next_record (initial_state [])).
Proof.
  apply (unpack_needs_three_parts standin_toolkit true two_part_line 0%Z
           [(sn2_line, 17%Z)] [] (txt "[OH-:1]>[OH:1]")).
  - reflexivity.
  - vm_compute. discriminate.
Defined.

Lemma Forall_Some_no_None (l : list (option mol)) :
  Forall (fun m => exists p, m = Some p) l -> existsb is_None l = false.
Proof.
  induction 1 as [|m l [p ->] _ IH]; [reflexivity | exact IH].
Qed.

(** X23.  A record that unpacks holds no molecule that failed to parse:
    sanitizing raises on such a molecule, so the later check for [None]
    among the reactants and the products never finds one. *)
Theorem unpacked_record_has_no_None (TK : Toolkit) (line reaction_smiles : str)
    (rs ags ps : list (option mol)) :
  unpack line = Ok (reaction_smiles, rs, ags, ps) ->
  existsb is_None (rs ++ ps) = false.
Proof.
  unfold unpack. intros H.
  apply bind_Ok_inv in H. destruct H as [s [_ H]].
  destruct (map _ _) as [|x1 [|x2 [|x3 [|x4 l]]]]; try discriminate.
  apply bind_Ok_inv in H. destruct H as [rs' [Hrs H]].
  apply bind_Ok_inv in H. destruct H as [ags' [_ H]].
  apply bind_Ok_inv in H. destruct H as [ps' [Hps H]].
  injection H as _ <- _ <-.
  apply Forall_Some_no_None, Forall_app. split.
  - exact (mapM_sanitize_Some _ _ Hrs).
  - exact (mapM_sanitize_Some _ _ Hps).
Qed.

Lemma unpacked_record_has_no_None_witness :
  existsb is_None ([Some hydroxide; Some chloromethane] ++ [Some methanol])
  = false.
Proof.
  apply (unpacked_record_has_no_None standin_toolkit sn2_line
           (txt "[OH-:1].[CH3:2][Cl:3]>>[OH:1][CH3:2]")
           [Some hydroxide; Some chloromethane] [] [Some methanol]).
  vm_compute. reflexivity.
Defined.

(** ** The InChI of a list of molecules *)

Lemma sorted_permutation (l1 l2 : list str) :
  Permutation l1 l2 -> sorted l1 = sorted l2.
Proof.
  unfold sorted.
  induction 1 as [| x l1 l2 Hp IH | x y l | l1 l2 l3 Hp1 IH1 Hp2 IH2].
  - reflexivity.
  - rewrite !sorted_by_cons. now rewrite IH.
  - rewrite !sorted_by_cons.
    destruct (list_eq_dec Ascii.ascii_dec y x) as [-> | Hne];
      [reflexivity |].
    now apply insert_by_comm.
  - now rewrite IH1.
Qed.

(** X24.  [mol_list_to_inchi] does not depend on the order of the
    molecules: two lists with the same molecules, each as often in the one
    as in the other, give the same text. *)
Theorem mol_list_to_inchi_order (MolToInchi : mol -> str)
    (mols mols' : list mol) :
  Permutation mols mols' ->
  mol_list_to_inchi MolToInchi mols = mol_list_to_inchi MolToInchi mols'.
Proof.
  intros Hp. unfold mol_list_to_inchi. f_equal.
  apply sorted_permutation. now apply Permutation_map.
Qed.

Lemma mol_list_to_inchi_order_witness :
  mol_list_to_inchi inchi_of_smarts [methanol; hydroxide; chloromethane]
  = mol_list_to_inchi inchi_of_smarts [chloromethane; methanol; hydroxide].
Proof.
  apply (mol_list_to_inchi_order inchi_of_smarts
           [methanol; hydroxide; chloromethane]
           [chloromethane; methanol; hydroxide]).
  apply Permutation_sym.
  apply (Permutation_cons_app [methanol; hydroxide] [] chloromethane).
  apply Permutation_refl.
Defined.

(** ** The text of the fragments *)

Lemma drop_last_fragments (texts : list str) :
  drop_last (concat (map (fun t => txt "(" ++ t ++ txt ").") texts))
  = match texts with
    | [] => []
    | _ :: _ => txt "(" ++ join (txt ").(") texts ++ txt ")"
    end.
Proof.
  unfold drop_last.
  induction texts as [|t texts IH]; [reflexivity |].
  cbn [map concat].
  destruct texts as [|t' texts].
  - cbn [map concat join]. rewrite app_nil_r.
    change (txt "(" ++ t ++ txt ").") with (txt "(" ++ t ++ txt ")" ++ txt ".").
    rewrite !app_assoc. apply removelast_last.
  - rewrite removelast_app by (cbn [map concat]; discriminate).
    rewrite IH.
    change (join (txt ").(") (t :: t' :: texts))
      with (t ++ txt ").(" ++ join (txt ").(") (t' :: texts)).
    rewrite <- !app_assoc. reflexivity.
Qed.

Section Fragments.

Context {TK : Toolkit}.
Variable sg : bool.
Variable changed_atom_tags : list str.
Variable radius : nat.
Variable cat : category.
Variable expansion : list str.

Lemma fragments_of_mols_shape (mols : list mol) (fragments out : str) :
  fragments_of_mols sg mols changed_atom_tags radius cat expansion fragments
  = Ok out ->
  exists texts,
    out = fragments ++ concat (map (fun t => txt "(" ++ t ++ txt ").") texts)
    /\ length texts <= length mols
    /\ Forall (fun t => exists m atoms_to_use symbols,
                 In m mols
                 /\ fragment_spec sg m changed_atom_tags radius cat expansion
                    = Ok (atoms_to_use, symbols)
                 /\ atoms_to_use <> []
                 /\ MolFragmentToSmiles (ClearProp_all m) atoms_to_use symbols
                    = Ok t) texts.
Proof.
  revert fragments. induction mols as [|m mols IH]; intros fragments H.
  - injection H as <-. exists []. cbn. rewrite app_nil_r.
    repeat split; [lia | constructor].
  - cbn [fragments_of_mols] in H.
    apply bind_Ok_inv in H. destruct H as [[atoms_to_use symbols] [Hspec H]].
    assert (Hlift : forall texts,
      Forall (fun t => exists m0 atoms_to_use symbols,
                 In m0 mols
                 /\ fragment_spec sg m0 changed_atom_tags radius cat expansion
                    = Ok (atoms_to_use, symbols)
                 /\ atoms_to_use <> []
                 /\ MolFragmentToSmiles (ClearProp_all m0) atoms_to_use symbols
                    = Ok t) texts ->
      Forall (fun t => exists m0 atoms_to_use symbols,
                 In m0 (m :: mols)
                 /\ fragment_spec sg m0 changed_atom_tags radius cat expansion
                    = Ok (atoms_to_use, symbols)
                 /\ atoms_to_use <> []
                 /\ MolFragmentToSmiles (ClearProp_all m0) atoms_to_use symbols
                    = Ok t) texts).
    { intros texts Ht. eapply Forall_impl; [| exact Ht].
      intros t (m0 & a0 & s0 & Hin & Hrest).
      exists m0, a0, s0. split; [now right | exact Hrest]. }
    destruct atoms_to_use as [|idx atoms_to_use].
    + destruct (IH _ H) as [texts [Hout [Hlen Hall]]].
      exists texts. split; [exact Hout |]. split; [cbn [length]; lia |].
      now apply Hlift.
    + apply bind_Ok_inv in H. destruct H as [smiles [Hsmiles H]].
      destruct (IH _ H) as [texts [Hout [Hlen Hall]]].
      exists (smiles :: texts). split; [| split].
      * rewrite Hout. cbn [map concat]. now rewrite <- !app_assoc.
      * cbn [length]. lia.
      * constructor; [| now apply Hlift].
        exists m, (idx :: atoms_to_use), symbols.
        split; [now left |]. split; [exact Hspec |].
        split; [discriminate | exact Hsmiles].
Qed.

End Fragments.

(** X25.  What [get_fragments_for_changed_atoms] returns is empty, or the
    fragment texts of the toolkit, each in parentheses, with dots between
    them: one text for every molecule that has atoms to use, in the order
    of the molecules, each written by the toolkit from the atoms and
    symbols that [fragment_spec] chose for the molecule. *)
Theorem fragments_are_parenthesised (TK : Toolkit) (sg : bool)
    (mols : list mol) (changed_atom_tags : list str) (radius : nat)
    (cat : category) (expansion : list str) (out : str) :
  get_fragments_for_changed_atoms sg mols changed_atom_tags radius cat
    expansion = Ok out ->
  exists texts,
    out = match texts with
          | [] => []
          | _ :: _ => txt "(" ++ join (txt ").(") texts ++ txt ")"
          end
    /\ length texts <= length mols
    /\ Forall (fun t => exists m atoms_to_use symbols,
                 In m mols
                 /\ fragment_spec sg m changed_atom_tags radius cat expansion
                    = Ok (atoms_to_use, symbols)
                 /\ atoms_to_use <> []
                 /\ MolFragmentToSmiles (ClearProp_all m) atoms_to_use symbols
                    = Ok t) texts.
Proof.
  unfold get_fragments_for_changed_atoms. intros H.
  apply bind_Ok_inv in H. destruct H as [fragments [Hf H]].
  injection H as <-.
  destruct (fragments_of_mols_shape sg changed_atom_tags radius cat expansion
              mols [] fragments Hf) as [texts [Hout [Hlen Hall]]].
  exists texts. split; [| split; [exact Hlen | exact Hall]].
  rewrite Hout. cbn [app]. apply drop_last_fragments.
Qed.

Lemma fragments_are_parenthesised_witness :
  exists texts,
    sn2_reactant_fragments
    = match texts with
      | [] => []
      | _ :: _ => txt "(" ++ join (txt ").(") texts ++ txt ")"
      end
    /\ length texts <= length [hydroxide; chloromethane]
    /\ Forall (fun t => exists m atoms_to_use symbols,
                 In m [hydroxide; chloromethane]
                 /\ fragment_spec (H := standin_toolkit) true m
                      [txt "1"; txt "2"; txt "3"] 1 reactants []
                    = Ok (atoms_to_use, symbols)
                 /\ atoms_to_use <> []
                 /\ MolFragmentToSmiles (Toolkit := standin_toolkit)
                      (ClearProp_all m) atoms_to_use symbols
                    = Ok t) texts.
Proof.
  apply (fragments_are_parenthesised standin_toolkit true
           [hydroxide; chloromethane] [txt "1"; txt "2"; txt "3"] 1
           reactants [] sn2_reactant_fragments).
  vm_compute. reflexivity.
Defined.

(** ** A scan in two runs *)

Section TwoRuns.

Context {TK : Toolkit}.
Variable sg : bool.

(** What the second [try] block does with a record does not depend on the
    counters, the table or the log it starts from. *)
Lemma extract_template_any_state (r : record) (st1 st2 : scan_state) :
  match extract_template sg r st1, extract_template sg r st2 with
  | Ok (Continue a), Ok (Continue b) =>
      (a = st1 /\ b = st2)
      \/ (a = count_partialmapped st1 /\ b = count_partialmapped st2)
  | Ok (Through a), Ok (Through b) =>
      exists k, a = record_template k st1 /\ b = record_template k st2
  | Raise e1, Raise e2 => e1 = e2
  | _, _ => False
  end.
Proof.
  unfold extract_template.
  destruct r as [[[reaction_smiles rs] ags] ps].
  destruct (mapM partly_mapped ps) as [flags|e]; cbn [bind]; [| reflexivity].
  destruct (existsb _ flags); [right; now split |].
  destruct (existsb is_None _); [left; now split |].
  destruct (get_changed_atoms (somes rs) (somes ps)) as [[[ca tags] err]|e];
    cbn [bind]; [| reflexivity].
  destruct (negb _); [left; now split |].
  destruct tags as [|tag tags]; [left; now split |].
  destruct (get_fragments_for_changed_atoms sg (somes rs) (tag :: tags) 1
              reactants []) as [rf|e]; cbn [bind]; [| reflexivity].
  destruct (get_fragments_for_changed_atoms sg (somes ps) (tag :: tags) 0
              products _) as [pf|e]; cbn [bind]; [| reflexivity].
  destruct (ReactionValidate _) as [validity|e]; cbn [bind]; [| reflexivity].
  destruct (negb _); [left; now split |].
  destruct (canonicalize_transform _) as [rxn|e]; cbn [bind]; [| reflexivity].
  destruct (convert_to_retro rxn) as [retro|e]; cbn [bind]; [| reflexivity].
  now exists retro.
Qed.

Lemma iteration_any_state (st1 st2 : scan_state) (line : str) (pos1 pos2 : Z) :
  template_dict st1 = template_dict st2 ->
  match iteration sg st1 line pos1, iteration sg st2 line pos2 with
  | Ok a, Ok b => template_dict a = template_dict b
  | Raise e1, Raise e2 => e1 = e2
  | _, _ => False
  end.
Proof.
  intros Hd. unfold iteration.
  destruct (unpack line) as [r|e]; cbn [try_except bind]; [| reflexivity].
  pose proof (extract_template_any_state r (next_record st1) (next_record st2))
    as H.
  destruct (extract_template sg r (next_record st1)) as [[a|a]|e1];
    destruct (extract_template sg r (next_record st2)) as [[b|b]|e2];
    cbn [try_except bind]; try contradiction; try exact H.
  - destruct H as [[-> ->] | [-> ->]]; exact Hd.
  - destruct H as [k [-> ->]].
    destruct (_ =? _)%Z; destruct (_ =? _)%Z;
      cbn [log_progress record_template next_record template_dict];
      now rewrite Hd.
Qed.

Lemma scan_lines_any_state (reaction_fid : list (str * Z))
    (st1 st2 : scan_state) :
  template_dict st1 = template_dict st2 ->
  match scan_lines sg reaction_fid st1, scan_lines sg reaction_fid st2 with
  | Finished a, Finished b => template_dict a = template_dict b
  | Uncaught e1 a, Uncaught e2 b =>
      e1 = e2 /\ template_dict a = template_dict b
  | _, _ => False
  end.
Proof.
  revert st1 st2.
  induction reaction_fid as [|[line pos] rest IH]; intros st1 st2 Hd;
    [exact Hd |].
  cbn [scan_lines].
  pose proof (iteration_any_state st1 st2 line pos pos Hd) as H.
  destruct (iteration sg st1 line pos) as [a|e1];
    destruct (iteration sg st2 line pos) as [b|e2]; try contradiction.
  - now apply IH.
  - split; [exact H | exact Hd].
Qed.

Lemma scan_lines_app (pre post : list (str * Z)) (st : scan_state) :
  scan_lines sg (pre ++ post) st
  = match scan_lines sg pre st with
    | Finished st' => scan_lines sg post st'
    | Uncaught e st' => Uncaught e st'
    end.
Proof.
  revert st. induction pre as [|[line pos] pre IH]; intros st; [reflexivity |].
  cbn [app scan_lines].
  destruct (iteration sg st line pos) as [st'|e]; [apply IH | reflexivity].
Qed.

End TwoRuns.

Lemma main_cases (TK : Toolkit) (sg : bool) (reaction_fid : list (str * Z))
    (d : table) :
  match scan_lines sg reaction_fid (initial_state d) with
  | Finished st =>
      match reaction_fid with
      | [] => main sg reaction_fid d = Uncaught ZeroDivisionError st
      | _ :: _ => main sg reaction_fid d = Finished st
      end
  | Uncaught e st => main sg reaction_fid d = Uncaught e st
  end.
Proof.
  pose proof (scan_lines_counts sg reaction_fid (initial_state d)) as H.
  unfold main.
  destruct (scan_lines sg reaction_fid (initial_state d)) as [st | e st];
    [| reflexivity].
  assert (Hi : (i st + 1 = Z.of_nat (length reaction_fid))%Z).
  { cbn [initial_state i total_attempted total_partialmapped] in H.
    destruct H as [H _]; [cbn; lia | lia]. }
  unfold summary. rewrite Hi.
  destruct reaction_fid as [|l rest]; [reflexivity |].
  destruct (Z.eqb_spec (Z.of_nat (length (l :: rest))) 0) as [Hz | Hz];
    [cbn [length] in Hz; lia | reflexivity].
Qed.

(** X28.  How [main] ends.  It returns when its loop has read every line
    of a file that has lines.  On a file without a line the summary
    divides by zero: [main] raises [ZeroDivisionError], the state being
    the initial one.  An exception that ends the loop leaves [main] as it
    is, in the state the loop was in. *)
Theorem main_returns_unless_empty (TK : Toolkit) (sg : bool)
    (reaction_fid : list (str * Z)) (d : table) :
  match scan_lines sg reaction_fid (initial_state d) with
  | Finished st =>
      match reaction_fid with
      | [] => main sg reaction_fid d
              = Uncaught ZeroDivisionError (initial_state d)
      | _ :: _ => main sg reaction_fid d = Finished st
      end
  | Uncaught e st => main sg reaction_fid d = Uncaught e st
  end.
Proof.
  pose proof (main_cases TK sg reaction_fid d) as H.
  destruct (scan_lines sg reaction_fid (initial_state d)) as [st | e st] eqn:Hl;
    [| exact H].
  destruct reaction_fid as [|l rest]; [| exact H].
  cbn [scan_lines] in Hl. injection Hl as <-. exact H.
Qed.

(** X26.  A scan in two runs.  When a first run of [main] over the first
    lines returns, a second run over the remaining lines, started with the
    table the first run ended with, ends with the same table as one run
    over all the lines.  The two end the same way, by returning or by the
    same exception, unless no line remains: the second run then raises
    [ZeroDivisionError] in its summary, where the single run returns.
    When the first run ends by an exception, either there was no line at
    all and the exception is the [ZeroDivisionError] of the summary, or
    the run over all the lines ends by that exception in the same state. *)
Theorem two_runs_give_the_same_table (TK : Toolkit) (sg : bool)
    (pre post : list (str * Z)) (d : table) :
  match main sg pre d with
  | Finished st1 =>
      template_dict (final_state (main sg (pre ++ post) d))
      = template_dict (final_state (main sg post (template_dict st1)))
      /\ match main sg (pre ++ post) d, main sg post (template_dict st1) with
         | Finished _, Finished _ => post <> []
         | Finished _, Uncaught e2 _ => e2 = ZeroDivisionError /\ post = []
         | Uncaught e1 _, Uncaught e2 _ => e1 = e2
         | Uncaught _ _, Finished _ => False
         end
  | Uncaught e st =>
      (pre = [] /\ e = ZeroDivisionError /\ st = initial_state d)
      \/ main sg (pre ++ post) d = Uncaught e st
  end.
Proof.
  pose proof (main_cases TK sg pre d) as Hpre.
  pose proof (main_cases TK sg (pre ++ post) d) as Hall.
  rewrite (scan_lines_app sg pre post (initial_state d)) in Hall.
  destruct (scan_lines sg pre (initial_state d)) as [st1 | e st] eqn:Hl.
  - destruct pre as [|l pre]; rewrite Hpre.
    + left. cbn [scan_lines] in Hl. injection Hl as <-. now repeat split.
    + pose proof (main_cases TK sg post (template_dict st1)) as Hpost.
      pose proof (scan_lines_any_state sg post st1
                    (initial_state (template_dict st1)) eq_refl) as Hsame.
      destruct (scan_lines sg post st1) as [a | e1 a];
        destruct (scan_lines sg post (initial_state (template_dict st1)))
          as [b | e2 b]; try contradiction.
      * cbn [app] in Hall |- *. rewrite Hall.
        destruct post as [|l' post]; rewrite Hpost; cbn [final_state].
        -- split; [exact Hsame | now split].
        -- split; [exact Hsame | discriminate].
      * rewrite Hall, Hpost. cbn [final_state]. destruct Hsame as [He Ht].
        split; [exact Ht | exact He].
  - rewrite Hpre. right. exact Hall.
Qed.

(** ** The label of a wildcard *)

Lemma labels_of_map_Chr (x : str) : labels_of (map Chr x) = [].
Proof. induction x as [|c x IH]; [reflexivity | exact IH]. Qed.

Lemma findall_labels_no_colon (symbol rest : str) :
  has_char ":" symbol = false ->
  findall_labels (symbol ++ rest) = findall_labels rest.
Proof.
  intros H. unfold findall_labels.
  now rewrite (scan_no_colon symbol rest H), labels_of_app, labels_of_map_Chr.
Qed.

Lemma findall_labels_label_text (l : str) :
  is_label l -> findall_labels (label_text l) = [l].
Proof.
  intros Hl. unfold findall_labels, label_text.
  now rewrite (scan_label l [] Hl).
Qed.

Lemma search_charges_no_colon (x charges : str) :
  search_charges x = Some charges -> has_char ":" charges = false.
Proof.
  induction x as [|c x IH]; [discriminate |].
  cbn [search_charges].
  destruct (is_sign c); [| exact IH].
  destruct (span is_sign (c :: x)) as [signs rest] eqn:Hs.
  intros H. injection H as <-.
  destruct (span_spec is_sign _ _ _ Hs) as (_ & Hsigns & _).
  rewrite has_char_app.
  rewrite (class_no_char is_sign ":" signs eq_refl Hsigns).
  destruct rest as [|d rest]; [reflexivity |].
  destruct (is_digit19 d) eqn:Hd; [| reflexivity].
  unfold has_char. cbn [existsb orb]. rewrite orb_false_r.
  apply chr_eqb_neq. intros <-. discriminate.
Qed.

Lemma bracket_pattern_shape (sg : bool) (a : atom) (out : str) :
  bracket_pattern sg a = Ok out ->
  exists symbol,
    has_char ":" symbol = false
    /\ out = symbol ++ match findall_labels (GetSmarts a) with
                       | [] => txt "]"
                       | l :: _ => label_text l
                       end.
Proof.
  unfold bracket_pattern.
  set (s1 := if negb (GetAtomicNum a =? 6)%nat
             then txt "[" ++ txt "#" ++ str_of_nat (GetAtomicNum a) ++ txt ";"
             else if GetIsAromatic a then txt "[" ++ txt "c;"
                  else txt "[" ++ txt "C;").
  assert (H1 : exists y, s1 = y ++ [";"] /\ has_char ":" y = false).
  { unfold s1. destruct (negb (GetAtomicNum a =? 6)%nat).
    - exists (txt "[" ++ txt "#" ++ str_of_nat (GetAtomicNum a)).
      split; [now rewrite <- !app_assoc |].
      rewrite !has_char_app. cbn [has_char existsb txt orb].
      apply (digits_no_char ":" _ eq_refl).
      apply (str_of_nat_is_label (GetAtomicNum a)).
    - destruct (GetIsAromatic a);
        [exists (txt "[c") | exists (txt "[C")]; now split. }
  set (s2 := if negb sg
             then if negb (GetFormalCharge a =? 0)%Z
                  then match search_charges (GetSmarts a) with
                       | Some charges => s1 ++ charges ++ txt ";"
                       | None => s1
                       end
                  else s1
             else s1).
  assert (H2 : exists y, s2 = y ++ [";"] /\ has_char ":" y = false).
  { unfold s2. destruct (negb sg); [| exact H1].
    destruct (negb (GetFormalCharge a =? 0)%Z); [| exact H1].
    destruct (search_charges _) as [charges|] eqn:Hc; [| exact H1].
    destruct H1 as [y [-> Hy]].
    exists ((y ++ [";"]) ++ charges). split; [now rewrite <- !app_assoc |].
    rewrite !has_char_app, Hy, (search_charges_no_colon _ _ Hc). reflexivity. }
  destruct H2 as [y [-> Hy]]. rewrite last_char_app. cbn [bind].
  rewrite chr_eqb_refl. unfold drop_last. rewrite removelast_last.
  rewrite search_label_findall. intros H. exists y. split; [exact Hy |].
  destruct (findall_labels (GetSmarts a)); now injection H as <-.
Qed.

(** X27.  A wildcard keeps the label of its atom.  What
    [convert_atom_to_wildcard] returns is the SMARTS of the atom as it is,
    or a pattern whose labels are the first label of the SMARTS and no
    other: one label when the SMARTS has a label, none when it has none. *)
Theorem convert_atom_to_wildcard_keeps_label (sg : bool) (a : atom)
    (out : str) :
  convert_atom_to_wildcard sg a = Ok out ->
  out = GetSmarts a
  \/ findall_labels out = firstn 1 (findall_labels (GetSmarts a)).
Proof.
  unfold convert_atom_to_wildcard. intros H.
  assert (Hb : bracket_pattern sg a = Ok out ->
               findall_labels out = firstn 1 (findall_labels (GetSmarts a))).
  { intros Hb. destruct (bracket_pattern_shape _ _ _ Hb) as [symbol [Hs ->]].
    rewrite (findall_labels_no_colon _ _ Hs).
    destruct (findall_labels (GetSmarts a)) as [|l rest] eqn:Hl;
      [reflexivity |].
    apply findall_labels_label_text.
    apply (findall_labels_is_label (GetSmarts a)). rewrite Hl. now left. }
  destruct (sg && has_char ":" (GetSmarts a)) eqn:Hsg.
  - right. rewrite search_label_findall in H.
    destruct (findall_labels (GetSmarts a)) as [|l rest] eqn:Hl;
      [discriminate |].
    cbn [group bind] in H. injection H as <-.
    change (findall_labels (txt "[*" ++ label_text l) = [l]).
    rewrite (findall_labels_no_colon (txt "[*") _ eq_refl).
    apply findall_labels_label_text.
    apply (findall_labels_is_label (GetSmarts a)). rewrite Hl. now left.
  - destruct (negb sg && (GetDegree a =? 1)%nat).
    + left. now injection H as <-.
    + right. now apply Hb.
Qed.

Lemma convert_atom_to_wildcard_keeps_label_witness :
  txt "[#8;-:1]" = GetSmarts O_hydroxide
  \/ findall_labels (txt "[#8;-:1]")
     = firstn 1 (findall_labels (GetSmarts O_hydroxide)).
Proof.
  apply (convert_atom_to_wildcard_keeps_label false O_hydroxide
           (txt "[#8;-:1]")).
  reflexivity.
Defined.

(** ** The cursor and the read-ahead buffer *)

Example iterate_file_ex :
  iterate_file (open_at (txt "a" ++ ["010"] ++ txt "bc") 0)
  = [(txt "a" ++ ["010"], 4%Z); (txt "bc", 4%Z)]
  /\ iterate_file (open_at (txt "a" ++ ["010"] ++ txt "bc") 2)
     = [(txt "bc", 4%Z)]
  /\ iterate_file (open_at [] 0) = [].
Proof. repeat split; vm_compute; reflexivity. Qed.

(** Once the stream is at the end of the file, [tell()] does not move. *)
Lemma get_line_drained (fuel bufsize : nat) (f : file) :
  f_rest f = [] ->
  f_rest (snd (get_line fuel bufsize f)) = []
  /\ f_pos (snd (get_line fuel bufsize f)) = f_pos f.
Proof.
  revert bufsize f. induction fuel as [|fuel IH]; intros bufsize f Hr;
    [now split |].
  cbn [get_line].
  set (f1 := match f_buf f with [] => readahead bufsize f | _ :: _ => f end).
  assert (H1 : f_rest f1 = [] /\ f_pos f1 = f_pos f).
  { unfold f1. destruct (f_buf f); [| now split].
    unfold readahead. cbn [f_rest f_pos]. rewrite Hr.
    rewrite firstn_nil, skipn_nil. cbn [length]. split; [reflexivity | lia]. }
  destruct H1 as [Hr1 Hp1].
  destruct (f_buf f1) as [|c buf]; [now split |].
  destruct (cut_line (c :: buf)) as [[l r]|].
  - cbn [snd f_rest f_pos]. now split.
  - specialize (IH (bufsize + Nat.shiftr bufsize 2)
                  {| f_buf := []; f_rest := f_rest f1; f_pos := f_pos f1 |} Hr1).
    destruct (get_line fuel _ _) as [l f']. cbn [snd f_pos] in IH |- *.
    destruct IH as [IH1 IH2]. split; [exact IH1 | congruence].
Qed.

Lemma lines_and_tells_drained (fuel : nat) (f : file) :
  f_rest f = [] ->
  Forall (fun lp => snd lp = f_pos f) (lines_and_tells fuel f).
Proof.
  revert f. induction fuel as [|fuel IH]; intros f Hr; [constructor |].
  cbn [lines_and_tells]. unfold file_next.
  destruct (get_line_drained (length (f_rest f) + 2) READAHEAD_BUFSIZE f Hr)
    as [Hr' Hp'].
  destruct (get_line _ _ f) as [line f']. cbn [snd] in Hr', Hp'.
  destruct line as [|c line]; [constructor |].
  constructor; [exact Hp' |]. rewrite <- Hp'. now apply IH.
Qed.

(** A file that fits the buffer is read whole by the first [next]. *)
Lemma file_next_short (f : file) :
  f_buf f = [] -> length (f_rest f) <= READAHEAD_BUFSIZE ->
  f_rest (snd (file_next f)) = []
  /\ f_pos (snd (file_next f)) = (f_pos f + Z.of_nat (length (f_rest f)))%Z.
Proof.
  intros Hb Hlen. unfold file_next.
  replace (length (f_rest f) + 2) with (S (length (f_rest f) + 1)) by lia.
  cbn [get_line]. rewrite Hb.
  assert (H1 : f_rest (readahead READAHEAD_BUFSIZE f) = []
               /\ f_pos (readahead READAHEAD_BUFSIZE f)
                  = (f_pos f + Z.of_nat (length (f_rest f)))%Z).
  { unfold readahead. cbn [f_rest f_pos].
    rewrite (firstn_all2 (f_rest f) Hlen), (skipn_all2 (f_rest f) Hlen).
    now split. }
  destruct H1 as [Hr1 Hp1].
  destruct (f_buf (readahead READAHEAD_BUFSIZE f)) as [|c buf]; [now split |].
  destruct (cut_line (c :: buf)) as [[l r]|].
  - cbn [snd f_rest f_pos]. now split.
  - pose proof (get_line_drained (length (f_rest f) + 1)
                  (READAHEAD_BUFSIZE + Nat.shiftr READAHEAD_BUFSIZE 2)
                  {| f_buf := [];
                     f_rest := f_rest (readahead READAHEAD_BUFSIZE f);
                     f_pos := f_pos (readahead READAHEAD_BUFSIZE f) |} Hr1)
      as H.
    destruct (get_line _ _ _) as [l f']. cbn [snd f_pos] in H |- *.
    destruct H as [H1 H2]. split; [exact H1 | congruence].
Qed.

Lemma iterate_short_file (content : str) :
  length content <= READAHEAD_BUFSIZE ->
  Forall (fun lp => snd lp = Z.of_nat (length content))
    (iterate_file (open_at content 0)).
Proof.
  intros Hlen. unfold iterate_file, open_at.
  cbn [f_buf f_rest f_pos skipn length Nat.add lines_and_tells].
  pose proof (file_next_short
                {| f_buf := []; f_rest := content; f_pos := Z.of_nat 0 |}
                eq_refl Hlen) as H.
  destruct (file_next _) as [line f']. cbn [snd f_rest f_pos] in H.
  destruct H as [Hr Hp].
  destruct line as [|c line]; [constructor |].
  assert (Hp' : f_pos f' = Z.of_nat (length content)) by lia.
  constructor; [exact Hp' |]. rewrite <- Hp'.
  now apply lines_and_tells_drained.
Qed.

(** X29.  The cursor of a file that fits the read-ahead buffer.  When the
    file scanned from its start is no longer than 8192 bytes, every cursor
    that [main] writes is the length of the file, whatever the record at
    which it is written and whatever the toolkit: [tell()] returns the end
    of the buffer, which is the end of the file. *)
Theorem cursor_of_short_file_is_its_end (TK : Toolkit) (sg : bool)
    (content : str) (d : table) (pos : Z) :
  length content <= READAHEAD_BUFSIZE ->
  In (WriteCursor pos)
    (written (final_state (main sg (iterate_file (open_at content 0)) d))) ->
  pos = Z.of_nat (length content).
Proof.
  intros Hlen H. rewrite final_state_main in H.
  destruct (scan_lines_cursors sg _ (initial_state d) pos H)
    as [[] | (j & line & Hj & _)].
  apply nth_error_In in Hj.
  pose proof (iterate_short_file content Hlen) as Hall.
  rewrite Forall_forall in Hall. exact (Hall _ Hj).
Qed.

Lemma cursor_of_short_file_is_its_end_witness :
  82%Z = Z.of_nat (length two_records).
Proof.
  apply (cursor_of_short_file_is_its_end standin_toolkit true two_records []
           82%Z).
  - apply Nat.leb_le. vm_compute. reflexivity.
  - vm_compute. right. left. reflexivity.
Defined.

(** * Functional groups under the super-general flag *)

(** ** Overrides and the symbols they give *)





(** ** The selection without groups *)

Section NoGroups.

Variable m : mol.
Variable changed_atom_tags : list str.







End NoGroups.


